(** * Devconnect Pretix sync service: a shallow embedding and its properties

    The development follows the class [DevconnectPretixSyncService] of the
    passport server, which copies events, items and orders from Pretix into
    three local tables, and the queries on [devconnect_pretix_items_info]:

    - the records exchanged with the Pretix API and the rows of the tables;
    - [JsMap]: the part of the JavaScript [Map] the service relies on;
    - [ChangeSet]: the three filters every save phase computes;
    - [Projection]: [ordersToDevconnectTickets];
    - [Sync]: the database, the effect monad and the three save phases;
    - [Scheduler]: [startSyncLoop] / [stop] as a transition system.

    One (organizer, event) pair is followed at a time: the phases of a pair
    run one after the other, and the statements of other pairs, which
    [Promise.all] may interleave with them, are not modelled.  A query on the
    database is taken to succeed; a call to the Pretix API may reject.
    Telemetry ([traced], [span.setAttribute]) is left out. *)

From stdpp Require Import gmap strings list pretty.

Local Open Scope string_scope.
Local Open Scope list_scope.

(** ** JavaScript primitives used by the service *)

(** [String.prototype.toLowerCase], on the ASCII letters of a byte string. *)
Definition lower_ascii (c : Ascii.ascii) : Ascii.ascii :=
  let n := Ascii.N_of_ascii c in
  if ((65 <=? n) && (n <=? 90))%N then Ascii.ascii_of_N (n + 32) else c.

Fixpoint toLowerCase (s : string) : string :=
  match s with
  | EmptyString => EmptyString
  | String c r => String (lower_ascii c) (toLowerCase r)
  end.

(** [Number.prototype.toString] on the non-negative integer ids Pretix uses. *)
Definition toString (n : N) : string := pretty n.

(** Truthiness of a [string | null] value: [null] and the empty string are
    falsy, every other string is truthy. *)
Definition truthy (s : option string) : bool :=
  match s with
  | Some (String _ _) => true
  | _ => false
  end.

(** [a || b] for [a : string | null] and [b : string]. *)
Definition js_or (a : option string) (b : string) : string :=
  match a with
  | Some (String c r) => String c r
  | _ => b
  end.

(** ** Data *)

(** An item of the Pretix catalog ([DevconnectPretixItem]: [id], [name.en]). *)
Record DevconnectPretixItem := {
  dpi_id : N;
  dpi_name_en : string;
}.

(** A row of [devconnect_pretix_items_info] ([PretixItemInfo]). *)
Record PretixItemInfo := {
  pii_id : N;
  pii_item_id : string;
  pii_events_info_id : N;
  pii_item_name : string;
}.

(** A position of an order ([attendee_email] may be [null]). *)
Record DevconnectPretixPosition := {
  positionid : N;
  item : N;
  attendee_name : string;
  attendee_email : option string;
}.

Record DevconnectPretixOrder := {
  ord_code : string;
  ord_status : string;
  ord_email : string;
  ord_positions : list DevconnectPretixPosition;
}.

Record DevconnectPretixTicket := {
  email : string;
  full_name : string;
  devconnect_pretix_items_info_id : N;
  is_deleted : bool;
}.

Record DevconnectPretixEvent := {
  ev_slug : string;
  ev_name_en : string;
}.

Record DevconnectPretixEventConfig := {
  ec_id : N;
  eventID : string;
  activeItemIDs : list string;
}.

Record DevconnectPretixOrganizerConfig := {
  orgURL : string;
  token : string;
  events : list DevconnectPretixEventConfig;
}.

#[global] Instance DevconnectPretixItem_eq_dec : EqDecision DevconnectPretixItem.
Proof. solve_decision. Defined.
#[global] Instance PretixItemInfo_eq_dec : EqDecision PretixItemInfo.
Proof. solve_decision. Defined.
#[global] Instance DevconnectPretixTicket_eq_dec : EqDecision DevconnectPretixTicket.
Proof. solve_decision. Defined.

(** ** The JavaScript [Map] *)

Module JsMap.
Section map.
Context {K : Type} `{Countable K} {V : Type}.

(** [new Map(entries)]: the entries are set from left to right, so a later
    entry replaces an earlier one with the same key. *)
Definition of_entries (entries : list (K * V)) : gmap K V :=
  foldl (fun m kv => <[kv.1 := kv.2]> m) ∅ entries.

(** [m.has(k)] *)
Definition has (m : gmap K V) (k : K) : bool := bool_decide (is_Some (m !! k)).

(** [m.get(k)] ([undefined] is [None]) *)
Definition get (m : gmap K V) (k : K) : option V := m !! k.
End map.
End JsMap.

(** ** Change sets

    [saveItemsInfo] and [saveTickets] compute the same three lists from the
    rows already stored ([existing]) and the entities wanted ([desired]); only
    the key, the row types and the comparison change.  The three filters are
    written once here and instantiated in both phases. *)

Module ChangeSet.
Section diff.
Context {K : Type} `{Countable K} {E D : Type}.
Variable keyE : E -> K.
Variable keyD : D -> K.
Variable different : E -> D -> bool.

(** [new Map(existing.map((e) => [key(e), e]))] *)
Definition existingByKey (existing : list E) : gmap K E :=
  JsMap.of_entries (map (fun e => (keyE e, e)) existing).

(** [new Map(desired.map((d) => [key(d), d]))] *)
Definition desiredByKey (desired : list D) : gmap K D :=
  JsMap.of_entries (map (fun d => (keyD d, d)) desired).

(** [desired.filter((d) => !existingByKey.has(key(d)))] *)
Definition toInsert (existing : list E) (desired : list D) : list D :=
  List.filter (fun d => negb (JsMap.has (existingByKey existing) (keyD d)))
    desired.

(** [desired.filter((d) => existingByKey.has(key(d)))
           .filter((d) => different(existingByKey.get(key(d))!, d))].
    The second callback only sees entities that passed the first, so the
    non-null assertion never meets [undefined]. *)
Definition toUpdate (existing : list E) (desired : list D) : list D :=
  List.filter
    (fun d =>
       match JsMap.get (existingByKey existing) (keyD d) with
       | Some old => different old d
       | None => false
       end)
    (List.filter (fun d => JsMap.has (existingByKey existing) (keyD d))
       desired).

(** [existing.filter((e) => !desiredByKey.has(key(e)))] *)
Definition toRemove (existing : list E) (desired : list D) : list E :=
  List.filter (fun e => negb (JsMap.has (desiredByKey desired) (keyE e)))
    existing.

(** The row an update is addressed to: [existingByKey.get(key(d))]. *)
Definition oldOf (existing : list E) (d : D) : option E :=
  JsMap.get (existingByKey existing) (keyD d).
End diff.
End ChangeSet.

(** ** Effects *)

(** A row of [devconnect_pretix_events_info]. *)
Record PretixEventInfo := {
  pei_id : N;
  pei_pretix_events_config_id : N;
  pei_event_name : string;
}.

(** The calls to [logger], one constructor per call site. *)
Inductive LogMsg :=
| LogSyncing (org ev : string)
| LogAbortingSync
| LogErrorUpdatingTickets
| LogErrorSyncingEvent (org ev : string)
| LogInsertingItems (n : nat)
| LogInsertingItem (i : DevconnectPretixItem)
| LogUpdatingItems (n : nat)
| LogUpdatingItem (old : PretixItemInfo) (new_name : string)
| LogDeletingItems (n : nat)
| LogDeletingItem (i : PretixItemInfo)
| LogErrorSyncingItems (org ev : string)
| LogNoAttendeeEmail (orderCode : string) (positionID : N)
| LogInsertingTickets (n : nat)
| LogInsertingTicket (t : DevconnectPretixTicket)
| LogUpdatingTickets (n : nat)
| LogUpdatingTicket (old : option DevconnectPretixTicket) (t : DevconnectPretixTicket)
| LogDeletingUsers (n : nat)
| LogDeletingTicket (t : DevconnectPretixTicket)
| LogErrorSyncing (org ev : string).

(** What a phase does to the outside world, in order: calls to the Pretix
    API, statements sent to the database, and log lines. *)
Inductive Effect :=
| Log (m : LogMsg)
| ApiFetchEvent (org tok ev : string)
| ApiFetchItems (org tok ev : string)
| ApiFetchOrders (org tok ev : string)
| SelectEventInfo (cfg : N)
| InsertEventsInfo (name : string) (cfg : N)
| UpdateEventsInfo (id : N) (name : string)
| SelectItemsInfoByEvent (cfg : N)
| InsertItemsInfo (item_id : string) (cfg : N) (name : string)
| UpdateItemsInfo (id : N) (name : string)
| DeleteItemInfo (id : N)
| SelectTicketsByEvent (cfg : N)
| InsertTicket (t : DevconnectPretixTicket)
| UpdateTicket (t : DevconnectPretixTicket)
| SoftDeleteTicket (t : DevconnectPretixTicket).

(** Statements that write to [devconnect_pretix_events_info]. *)
Definition writes_event_info (e : Effect) : bool :=
  match e with
  | InsertEventsInfo _ _ | UpdateEventsInfo _ _ => true
  | _ => false
  end.

(** Statements that write to [devconnect_pretix_items_info]. *)
Definition writes_item_info (e : Effect) : bool :=
  match e with
  | InsertItemsInfo _ _ _ | UpdateItemsInfo _ _ | DeleteItemInfo _ => true
  | _ => false
  end.

(** Statements that write to [devconnect_pretix_tickets]. *)
Definition writes_ticket (e : Effect) : bool :=
  match e with
  | InsertTicket _ | UpdateTicket _ | SoftDeleteTicket _ => true
  | _ => false
  end.

(** Everything only [saveTickets] does: its API call, its ticket statements
    and its log lines. *)
Definition of_ticket_phase (e : Effect) : bool :=
  match e with
  | ApiFetchOrders _ _ _ | SelectTicketsByEvent _
  | InsertTicket _ | UpdateTicket _ | SoftDeleteTicket _ => true
  | Log (LogNoAttendeeEmail _ _) | Log (LogInsertingTickets _)
  | Log (LogInsertingTicket _) | Log (LogUpdatingTickets _)
  | Log (LogUpdatingTicket _ _) | Log (LogDeletingUsers _)
  | Log (LogDeletingTicket _) | Log (LogErrorSyncing _ _) => true
  | _ => false
  end.

(** ** Ticket projection: [ordersToDevconnectTickets] *)

Module Projection.

(** The [tickets] array being filled, and the lines logged so far. *)
Definition Acc : Type := list DevconnectPretixTicket * list LogMsg.

(** The body of the inner loop, for one position of [order]. *)
Definition pushPosition (itemsInfoByItemID : gmap string PretixItemInfo)
    (order : DevconnectPretixOrder) (acc : Acc)
    (p : DevconnectPretixPosition) : Acc :=
  match JsMap.get itemsInfoByItemID (toString (item p)) with
  | Some existingItem =>
      let logged :=
        if negb (truthy (attendee_email p))
        then acc.2 ++ [LogNoAttendeeEmail (ord_code order) (positionid p)]
        else acc.2 in
      let lowered := toLowerCase (js_or (attendee_email p) (ord_email order)) in
      (acc.1 ++ [{| email := lowered;
                    full_name := attendee_name p;
                    devconnect_pretix_items_info_id := pii_id existingItem;
                    is_deleted := false |}],
       logged)
  | None => acc
  end.

(** The body of the outer loop: orders that are not paid are skipped. *)
Definition pushOrder (itemsInfoByItemID : gmap string PretixItemInfo)
    (acc : Acc) (order : DevconnectPretixOrder) : Acc :=
  if negb (String.eqb (ord_status order) "p") then acc
  else foldl (pushPosition itemsInfoByItemID order) acc (ord_positions order).

Definition itemsInfoByItemID (itemsInfo : list PretixItemInfo)
    : gmap string PretixItemInfo :=
  JsMap.of_entries (map (fun i => (pii_item_id i, i)) itemsInfo).

Definition ordersToDevconnectTickets (orders : list DevconnectPretixOrder)
    (itemsInfo : list PretixItemInfo) : Acc :=
  foldl (pushOrder (itemsInfoByItemID itemsInfo)) ([], []) orders.

(** What one position contributes, read off [pushPosition]. *)
Definition positionTickets (byItemID : gmap string PretixItemInfo)
    (order : DevconnectPretixOrder) (p : DevconnectPretixPosition)
    : list DevconnectPretixTicket :=
  (pushPosition byItemID order ([], []) p).1.

Definition positionLogs (byItemID : gmap string PretixItemInfo)
    (order : DevconnectPretixOrder) (p : DevconnectPretixPosition)
    : list LogMsg :=
  (pushPosition byItemID order ([], []) p).2.

(** What one order contributes, read off [pushOrder]. *)
Definition orderTickets (byItemID : gmap string PretixItemInfo)
    (order : DevconnectPretixOrder) : list DevconnectPretixTicket :=
  (pushOrder byItemID ([], []) order).1.

Definition orderLogs (byItemID : gmap string PretixItemInfo)
    (order : DevconnectPretixOrder) : list LogMsg :=
  (pushOrder byItemID ([], []) order).2.

End Projection.

(** ** The database, the effect monad and the save phases *)

Module Sync.

(** The three tables, and the next value of the two [serial] columns. *)
Record Db := {
  events_info : list PretixEventInfo;
  items_info : list PretixItemInfo;
  tickets : list DevconnectPretixTicket;
  next_event_info_id : N;
  next_item_info_id : N;
}.

Definition set_events_info (f : list PretixEventInfo -> list PretixEventInfo)
    (db : Db) : Db :=
  {| events_info := f (events_info db); items_info := items_info db;
     tickets := tickets db; next_event_info_id := next_event_info_id db;
     next_item_info_id := next_item_info_id db |}.

Definition set_items_info (f : list PretixItemInfo -> list PretixItemInfo)
    (db : Db) : Db :=
  {| events_info := events_info db; items_info := f (items_info db);
     tickets := tickets db; next_event_info_id := next_event_info_id db;
     next_item_info_id := next_item_info_id db |}.

Definition set_tickets
    (f : list DevconnectPretixTicket -> list DevconnectPretixTicket)
    (db : Db) : Db :=
  {| events_info := events_info db; items_info := items_info db;
     tickets := f (tickets db); next_event_info_id := next_event_info_id db;
     next_item_info_id := next_item_info_id db |}.

(** The Pretix client.  A call either resolves ([Some]) or rejects
    ([None]). *)
Record IDevconnectPretixAPI := {
  fetchEvent : string -> string -> string -> option DevconnectPretixEvent;
  fetchItems : string -> string -> string -> option (list DevconnectPretixItem);
  fetchOrders : string -> string -> string -> option (list DevconnectPretixOrder);
}.

(** *** The monad: database state, effect trace, exceptions *)

Inductive Outcome (A : Type) :=
| Returned (a : A)
| Thrown (msg : string).
Arguments Returned {A} a.
Arguments Thrown {A} msg.

Definition M (A : Type) : Type := Db -> Outcome A * Db * list Effect.

Definition ret {A} (a : A) : M A := fun db => (Returned a, db, []).

Definition bind {A B} (m : M A) (k : A -> M B) : M B :=
  fun db =>
    match m db with
    | (Returned a, db1, t1) =>
        match k a db1 with
        | (r, db2, t2) => (r, db2, t1 ++ t2)
        end
    | (Thrown e, db1, t1) => (Thrown e, db1, t1)
    end.

Definition throw {A} (msg : string) : M A := fun db => (Thrown msg, db, []).

(** [try { body } catch (e) { handler(e) }] *)
Definition try_catch {A} (body : M A) (handler : string -> M A) : M A :=
  fun db =>
    match body db with
    | (Returned a, db1, t1) => (Returned a, db1, t1)
    | (Thrown e, db1, t1) =>
        match handler e db1 with
        | (r, db2, t2) => (r, db2, t1 ++ t2)
        end
    end.

Definition emit (e : Effect) : M unit := fun db => (Returned tt, db, [e]).

Definition logger (m : LogMsg) : M unit := emit (Log m).

Definition query {A} (e : Effect) (read : Db -> A) (write : Db -> Db) : M A :=
  fun db => (Returned (read db), write db, [e]).

(** [await] of an API call that may reject. *)
Definition await {A} (e : Effect) (r : option A) : M A :=
  fun db =>
    match r with
    | Some a => (Returned a, db, [e])
    | None => (Thrown "request failed", db, [e])
    end.

(** [for (const x of xs) { body(x) }] *)
Fixpoint for_of {A} (xs : list A) (body : A -> M unit) : M unit :=
  match xs with
  | [] => ret tt
  | x :: rest => bind (body x) (fun _ => for_of rest body)
  end.

Notation "'let*' x ':=' m 'in' k" := (bind m (fun x => k))
  (at level 10, x name, m at level 100, k at level 200, only parsing).
Notation "'do' m 'then' k" := (bind m (fun _ => k))
  (at level 10, m at level 100, k at level 200, only parsing).

(** *** Queries on [devconnect_pretix_items_info]
    (database/queries/pretixItemInfo.ts) *)

(** [select * from devconnect_pretix_items_info
     where devconnect_pretix_events_info_id = $1] *)
Definition fetchPretixItemsInfoByEvent (eventConfigID : N)
    : M (list PretixItemInfo) :=
  query (SelectItemsInfoByEvent eventConfigID)
    (fun db =>
       List.filter (fun i => N.eqb (pii_events_info_id i) eventConfigID)
         (items_info db))
    (fun db => db).

(** [insert into devconnect_pretix_items_info
     (item_id, devconnect_pretix_events_info_id, item_name)
     values ($1, $2, $3)]; the [id] column is filled by the database. *)
Definition insertPretixItemsInfo (item_id : string) (event_config_id : N)
    (item_name : string) : M unit :=
  query (InsertItemsInfo item_id event_config_id item_name)
    (fun _ => tt)
    (fun db =>
       {| events_info := events_info db;
          items_info :=
            items_info db ++
            [{| pii_id := next_item_info_id db; pii_item_id := item_id;
                pii_events_info_id := event_config_id;
                pii_item_name := item_name |}];
          tickets := tickets db;
          next_event_info_id := next_event_info_id db;
          next_item_info_id := N.succ (next_item_info_id db) |}).

(** [update devconnect_pretix_items_info set item_name = $1 where id=$2] *)
Definition updatePretixItemsInfo (id : N) (item_name : string) : M unit :=
  query (UpdateItemsInfo id item_name)
    (fun _ => tt)
    (set_items_info
       (map (fun i =>
               if N.eqb (pii_id i) id
               then {| pii_id := pii_id i; pii_item_id := pii_item_id i;
                       pii_events_info_id := pii_events_info_id i;
                       pii_item_name := item_name |}
               else i))).

(** [delete from devconnect_pretix_items_info where id=$1] *)
Definition deletePretixItemInfo (id : N) : M unit :=
  query (DeleteItemInfo id)
    (fun _ => tt)
    (set_items_info (List.filter (fun i => negb (N.eqb (pii_id i) id)))).

(** *** Queries on [devconnect_pretix_events_info] *)

(** Modelled from the spec: [fetchPretixEventInfo] is imported from
    database/queries/pretixEventInfo, which is not part of the sources.
    The spec gives the persistence gateway a fetch for event-info by event
    configuration id; the caller tests the result against [null]. *)
Definition fetchPretixEventInfo (eventConfigID : N)
    : M (option PretixEventInfo) :=
  query (SelectEventInfo eventConfigID)
    (fun db =>
       List.find (fun e => N.eqb (pei_pretix_events_config_id e) eventConfigID)
         (events_info db))
    (fun db => db).

(** Modelled from the spec: [insertPretixEventsInfo] is imported from
    database/queries/pretixEventInfo, which is not part of the sources.
    A plain insert of one event-info row. *)
Definition insertPretixEventsInfo (event_name : string) (eventConfigID : N)
    : M unit :=
  query (InsertEventsInfo event_name eventConfigID)
    (fun _ => tt)
    (fun db =>
       {| events_info :=
            events_info db ++
            [{| pei_id := next_event_info_id db;
                pei_pretix_events_config_id := eventConfigID;
                pei_event_name := event_name |}];
          items_info := items_info db;
          tickets := tickets db;
          next_event_info_id := N.succ (next_event_info_id db);
          next_item_info_id := next_item_info_id db |}).

(** Modelled from the spec: [updatePretixEventsInfo] is imported from
    database/queries/pretixEventInfo, which is not part of the sources.
    A plain update of the name of the row with the given id. *)
Definition updatePretixEventsInfo (id : N) (event_name : string) : M unit :=
  query (UpdateEventsInfo id event_name)
    (fun _ => tt)
    (set_events_info
       (map (fun e =>
               if N.eqb (pei_id e) id
               then {| pei_id := pei_id e;
                       pei_pretix_events_config_id :=
                         pei_pretix_events_config_id e;
                       pei_event_name := event_name |}
               else e))).

(** *** Ticket helpers and queries on [devconnect_pretix_tickets] *)

(** Modelled from the spec: [getEmailAndItemKey] is imported from
    util/devconnectTicket, which is not part of the sources.  The spec
    derives a ticket's identity from the pair (normalized email, owning
    item). *)
Definition getEmailAndItemKey (t : DevconnectPretixTicket) : string * N :=
  (email t, devconnect_pretix_items_info_id t).

(** Modelled from the spec: [ticketsToMapByEmailAndItem] is imported from
    util/devconnectTicket, which is not part of the sources.  A [Map] from
    [getEmailAndItemKey] to the ticket. *)
Definition ticketsToMapByEmailAndItem (ts : list DevconnectPretixTicket)
    : gmap (string * N) DevconnectPretixTicket :=
  JsMap.of_entries (map (fun t => (getEmailAndItemKey t, t)) ts).

(** Modelled from the spec: [pretixTicketsDifferent] is imported from
    util/devconnectTicket, which is not part of the sources.  The spec
    updates a ticket when its full name or its owning item differs. *)
Definition pretixTicketsDifferent (oldTicket newTicket : DevconnectPretixTicket)
    : bool :=
  negb (String.eqb (full_name oldTicket) (full_name newTicket))
  || negb (N.eqb (devconnect_pretix_items_info_id oldTicket)
                 (devconnect_pretix_items_info_id newTicket)).

(** A ticket belongs to an event through its owning item. *)
Definition ticket_of_event (db : Db) (eventConfigID : N)
    (t : DevconnectPretixTicket) : bool :=
  existsb
    (fun i => N.eqb (pii_id i) (devconnect_pretix_items_info_id t)
              && N.eqb (pii_events_info_id i) eventConfigID)
    (items_info db).

(** Modelled from the spec: [fetchDevconnectPretixTicketsByEvent] is not
    part of the sources.  The spec computes the ticket change set against
    the existing non-deleted local tickets of the event. *)
Definition fetchDevconnectPretixTicketsByEvent (eventConfigID : N)
    : M (list DevconnectPretixTicket) :=
  query (SelectTicketsByEvent eventConfigID)
    (fun db =>
       List.filter
         (fun t => negb (is_deleted t) && ticket_of_event db eventConfigID t)
         (tickets db))
    (fun db => db).

Definition same_key (a b : DevconnectPretixTicket) : bool :=
  String.eqb (email a) (email b)
  && N.eqb (devconnect_pretix_items_info_id a)
           (devconnect_pretix_items_info_id b).

(** Modelled from the spec: [insertDevconnectPretixTicket] is not part of
    the sources.  The spec's persistence gateway is plain CRUD: the insert
    adds the record as a new row. *)
Definition insertDevconnectPretixTicket (t : DevconnectPretixTicket) : M unit :=
  query (InsertTicket t) (fun _ => tt) (set_tickets (fun rows => rows ++ [t])).

(** The row [row] after an update for ticket [t]. *)
Definition setFullNameWhere (t row : DevconnectPretixTicket)
    : DevconnectPretixTicket :=
  if same_key row t
  then {| email := email row; full_name := full_name t;
          devconnect_pretix_items_info_id :=
            devconnect_pretix_items_info_id row;
          is_deleted := is_deleted row |}
  else row.

(** The row [row] after a soft delete for ticket [t]. *)
Definition setDeletedWhere (t row : DevconnectPretixTicket)
    : DevconnectPretixTicket :=
  if same_key row t
  then {| email := email row; full_name := full_name row;
          devconnect_pretix_items_info_id :=
            devconnect_pretix_items_info_id row;
          is_deleted := true |}
  else row.

(** Modelled from the spec: [updateDevconnectPretixTicket] is not part of
    the sources.  It receives the projected ticket only, and a ticket row
    stores no identifier besides (email, owning item): the update writes the
    full name into the rows with that pair. *)
Definition updateDevconnectPretixTicket (t : DevconnectPretixTicket) : M unit :=
  query (UpdateTicket t) (fun _ => tt) (set_tickets (map (setFullNameWhere t))).

(** Modelled from the spec: [softDeleteDevconnectPretixTicket] is not part
    of the sources.  The soft delete sets the flag and keeps the row. *)
Definition softDeleteDevconnectPretixTicket (t : DevconnectPretixTicket)
    : M unit :=
  query (SoftDeleteTicket t) (fun _ => tt) (set_tickets (map (setDeletedWhere t))).

(** *** The three phases *)

Section phases.
Variable pretixAPI : IDevconnectPretixAPI.

(** [saveEventInfo]: returns whether the update was successful. *)
Definition saveEventInfo (organizer : DevconnectPretixOrganizerConfig)
    (event : DevconnectPretixEventConfig) : M bool :=
  let eventConfigID := ec_id event in
  try_catch
    (let* fetched :=
       await (ApiFetchEvent (orgURL organizer) (token organizer) (eventID event))
         (fetchEvent pretixAPI (orgURL organizer) (token organizer)
            (eventID event)) in
     let eventNameFromAPI := ev_name_en fetched in
     let* existingEvent := fetchPretixEventInfo eventConfigID in
     do match existingEvent with
        | None => insertPretixEventsInfo eventNameFromAPI eventConfigID
        | Some existing =>
            updatePretixEventsInfo (pei_id existing) eventNameFromAPI
        end
     then ret true)
    (fun _ =>
       do logger (LogErrorSyncingEvent (orgURL organizer) (eventID event))
       then ret false).

(** The change set of the item phase: rows are keyed by [item_id], catalog
    items by [id.toString()], and compared on the name. *)
Definition itemKeyE (i : PretixItemInfo) : string := pii_item_id i.
Definition itemKeyD (i : DevconnectPretixItem) : string := toString (dpi_id i).
Definition itemDifferent (oldItem : PretixItemInfo) (i : DevconnectPretixItem)
    : bool :=
  negb (String.eqb (pii_item_name oldItem) (dpi_name_en i)).

Definition itemsToInsert := ChangeSet.toInsert itemKeyE itemKeyD.
Definition itemsToUpdate := ChangeSet.toUpdate itemKeyE itemKeyD itemDifferent.
Definition itemsToRemove := ChangeSet.toRemove itemKeyE itemKeyD.

(** [activeItemIDs.some((i) => !newItemIDsSet.has(i))] *)
Definition someActiveItemMissing (activeIDs : list string)
    (itemsFromAPI : list DevconnectPretixItem) : bool :=
  let newItemIDsSet : gset string :=
    list_to_set (map (fun i => toString (dpi_id i)) itemsFromAPI) in
  existsb (fun i => negb (bool_decide (i ∈ newItemIDsSet))) activeIDs.

(** [itemsFromAPI.filter((i) => activeItemIDsSet.has(i.id.toString()))] *)
Definition newActiveItemsOf (activeIDs : list string)
    (itemsFromAPI : list DevconnectPretixItem) : list DevconnectPretixItem :=
  let activeItemIDsSet : gset string := list_to_set activeIDs in
  List.filter (fun i => bool_decide (toString (dpi_id i) ∈ activeItemIDsSet))
    itemsFromAPI.

(** [saveItemsInfo]: returns whether the update was successful. *)
Definition saveItemsInfo (organizer : DevconnectPretixOrganizerConfig)
    (event : DevconnectPretixEventConfig) : M bool :=
  let eventConfigID := ec_id event in
  try_catch
    (let* itemsFromAPI :=
       await (ApiFetchItems (orgURL organizer) (token organizer) (eventID event))
         (fetchItems pretixAPI (orgURL organizer) (token organizer)
            (eventID event)) in
     if someActiveItemMissing (activeItemIDs event) itemsFromAPI
     then throw "One or more of event's active items no longer exist on Pretix"
     else
       let newActiveItems := newActiveItemsOf (activeItemIDs event) itemsFromAPI in
       let* existingItemsInfo := fetchPretixItemsInfoByEvent eventConfigID in
       let toInsert := itemsToInsert existingItemsInfo newActiveItems in
       do logger (LogInsertingItems (length toInsert)) then
       do for_of toInsert (fun i =>
            do logger (LogInsertingItem i) then
            insertPretixItemsInfo (toString (dpi_id i)) eventConfigID
              (dpi_name_en i)) then
       let toUpdate := itemsToUpdate existingItemsInfo newActiveItems in
       do logger (LogUpdatingItems (length toUpdate)) then
       do for_of toUpdate (fun i =>
            match ChangeSet.oldOf itemKeyE itemKeyD existingItemsInfo i with
            | Some oldItem =>
                do logger (LogUpdatingItem oldItem (dpi_name_en i)) then
                updatePretixItemsInfo (pii_id oldItem) (dpi_name_en i)
            | None => throw "TypeError: oldItem is undefined"
            end) then
       let toRemove := itemsToRemove existingItemsInfo newActiveItems in
       do logger (LogDeletingItems (length toRemove)) then
       do for_of toRemove (fun i =>
            do logger (LogDeletingItem i) then
            deletePretixItemInfo (pii_id i)) then
       ret true)
    (fun _ =>
       do logger (LogErrorSyncingItems (orgURL organizer) (eventID event))
       then ret false).

(** The change set of the ticket phase: both sides are tickets, keyed by
    [getEmailAndItemKey] and compared by [pretixTicketsDifferent]. *)
Definition newTicketsOf :=
  ChangeSet.toInsert getEmailAndItemKey getEmailAndItemKey.
Definition updatedTicketsOf :=
  ChangeSet.toUpdate getEmailAndItemKey getEmailAndItemKey
    pretixTicketsDifferent.
Definition removedTicketsOf :=
  ChangeSet.toRemove getEmailAndItemKey getEmailAndItemKey.

(** The call to [ordersToDevconnectTickets]: its log lines join the
    trace; it neither reads nor writes the database. *)
Definition projectOrders (orders : list DevconnectPretixOrder)
    (itemsInfo : list PretixItemInfo) : M (list DevconnectPretixTicket) :=
  fun db =>
    let r := Projection.ordersToDevconnectTickets orders itemsInfo in
    (Returned r.1, db, map Log r.2).

(** [saveTickets]: returns whether the update was successful. *)
Definition saveTickets (organizer : DevconnectPretixOrganizerConfig)
    (event : DevconnectPretixEventConfig) : M bool :=
  let eventConfigID := ec_id event in
  try_catch
    (let* pretixOrders :=
       await (ApiFetchOrders (orgURL organizer) (token organizer) (eventID event))
         (fetchOrders pretixAPI (orgURL organizer) (token organizer)
            (eventID event)) in
     let* updatedItemsInfo := fetchPretixItemsInfoByEvent eventConfigID in
     let* projected := projectOrders pretixOrders updatedItemsInfo in
     let* existingTickets := fetchDevconnectPretixTicketsByEvent eventConfigID in
     let newTickets := newTicketsOf existingTickets projected in
     do logger (LogInsertingTickets (length newTickets)) then
     do for_of newTickets (fun ticket =>
          do logger (LogInsertingTicket ticket) then
          insertDevconnectPretixTicket ticket) then
     let updatedTickets := updatedTicketsOf existingTickets projected in
     do logger (LogUpdatingTickets (length updatedTickets)) then
     do for_of updatedTickets (fun updatedTicket =>
          let oldTicket :=
            ChangeSet.oldOf getEmailAndItemKey getEmailAndItemKey
              existingTickets updatedTicket in
          do logger (LogUpdatingTicket oldTicket updatedTicket) then
          updateDevconnectPretixTicket updatedTicket) then
     let removedTickets := removedTicketsOf existingTickets projected in
     do logger (LogDeletingUsers (length removedTickets)) then
     do for_of removedTickets (fun removedTicket =>
          do logger (LogDeletingTicket removedTicket) then
          softDeleteDevconnectPretixTicket removedTicket) then
     ret true)
    (fun _ =>
       do logger (LogErrorSyncing (orgURL organizer) (eventID event))
       then ret false).

(** [syncAllPretixForOrganizerAndEvent] *)
Definition syncAllPretixForOrganizerAndEvent
    (organizer : DevconnectPretixOrganizerConfig)
    (event : DevconnectPretixEventConfig) : M unit :=
  do logger (LogSyncing (orgURL organizer) (eventID event)) then
  let* eventOk := saveEventInfo organizer event in
  if negb eventOk then logger LogAbortingSync
  else
    let* itemsOk := saveItemsInfo organizer event in
    if negb itemsOk then logger LogAbortingSync
    else
      let* ticketsOk := saveTickets organizer event in
      if negb ticketsOk then logger LogErrorUpdatingTickets
      else ret tt.
End phases.

(** *** The ticket phase in closed form *)

(** What [saveTickets] reads: the item rows of the event, the candidates
    projected from the orders, and the stored tickets of the event. *)
Definition eventItems (db : Db) (eventConfigID : N) : list PretixItemInfo :=
  List.filter (fun i => N.eqb (pii_events_info_id i) eventConfigID)
    (items_info db).

Definition candidates (db : Db) (eventConfigID : N)
    (orders : list DevconnectPretixOrder) : list DevconnectPretixTicket :=
  (Projection.ordersToDevconnectTickets orders (eventItems db eventConfigID)).1.

Definition storedTickets (db : Db) (eventConfigID : N)
    : list DevconnectPretixTicket :=
  List.filter
    (fun t => negb (is_deleted t) && ticket_of_event db eventConfigID t)
    (tickets db).

(** The ticket table after the three loops of [saveTickets]. *)
Definition applyTicketChanges
    (newTickets updatedTickets removedTickets rows : list DevconnectPretixTicket)
    : list DevconnectPretixTicket :=
  foldl (fun rows t => map (setDeletedWhere t) rows)
    (foldl (fun rows t => map (setFullNameWhere t) rows)
       (foldl (fun rows t => rows ++ [t]) rows newTickets)
       updatedTickets)
    removedTickets.

(** One row under all the updates, then all the soft deletes. *)
Definition renameBy (updatedTickets : list DevconnectPretixTicket)
    (row : DevconnectPretixTicket) : DevconnectPretixTicket :=
  foldl (fun row t => setFullNameWhere t row) row updatedTickets.

Definition deleteBy (removedTickets : list DevconnectPretixTicket)
    (row : DevconnectPretixTicket) : DevconnectPretixTicket :=
  foldl (fun row t => setDeletedWhere t row) row removedTickets.

Definition rowAfter (updatedTickets removedTickets : list DevconnectPretixTicket)
    (row : DevconnectPretixTicket) : DevconnectPretixTicket :=
  deleteBy removedTickets (renameBy updatedTickets row).

(** *** The ticket invariant *)

(** At most one non-deleted ticket row per (email, owning item). *)
Definition nonDeletedKeys (db : Db) : list (string * N) :=
  map getEmailAndItemKey (List.filter (fun t => negb (is_deleted t)) (tickets db)).

Definition ticketInvariant (db : Db) : Prop := NoDup (nonDeletedKeys db).

#[global] Instance ticketInvariant_dec db : Decision (ticketInvariant db).
Proof. unfold ticketInvariant. apply _. Defined.

End Sync.

(** ** The sync loop: [startSyncLoop] and [stop]

    The scheduler is a transition system over the [timeout] field of the
    service and the timers of the event loop.  [startSyncLoop] enters the
    closure [trySync]; the closure awaits [this.trySync()] (a cycle, which
    never rejects), then stores the handle of a fresh 60 s timer in
    [this.timeout]; when the timer fires the closure is entered again. *)

Module Scheduler.

Record State := {
  timeout : option N;    (** [this.timeout] *)
  armed : list N;        (** timers set, neither fired nor cleared *)
  next_handle : N;       (** the handle the next [setTimeout] returns *)
  in_flight : nat;       (** closures awaiting [this.trySync()] *)
  cycles_started : nat;  (** how many times [this.trySync()] was called *)
}.

(** A freshly constructed service. *)
Definition init : State :=
  {| timeout := None; armed := []; next_handle := 0%N; in_flight := 0;
     cycles_started := 0 |}.

Inductive Event :=
| CallStartSyncLoop
| CallStop
| CycleSettles
| TimerFires (h : N).

(** Entering the closure: [await this.trySync()] begins a cycle. *)
Definition enterTrySync (s : State) : State :=
  {| timeout := timeout s; armed := armed s; next_handle := next_handle s;
     in_flight := S (in_flight s); cycles_started := S (cycles_started s) |}.

(** [clearTimeout(h)]: a handle that already fired is ignored. *)
Definition clearTimeout (h : N) (s : State) : State :=
  {| timeout := timeout s;
     armed := List.filter (fun h' => negb (N.eqb h' h)) (armed s);
     next_handle := next_handle s; in_flight := in_flight s;
     cycles_started := cycles_started s |}.

(** [stop()]: [if (this.timeout) { clearTimeout(this.timeout); }] *)
Definition stop (s : State) : State :=
  match timeout s with
  | Some h => clearTimeout h s
  | None => s
  end.

(** The continuation of the closure after the cycle:
    [this.timeout = setTimeout(() => trySync(), 1000 * 60)]. *)
Definition rearm (s : State) : State :=
  {| timeout := Some (next_handle s);
     armed := armed s ++ [next_handle s];
     next_handle := N.succ (next_handle s);
     in_flight := pred (in_flight s);
     cycles_started := cycles_started s |}.

(** One step; [None] when the event cannot happen in the state. *)
Definition step (s : State) (e : Event) : option State :=
  match e with
  | CallStartSyncLoop => Some (enterTrySync s)
  | CallStop => Some (stop s)
  | CycleSettles =>
      match in_flight s with
      | O => None
      | S _ => Some (rearm s)
      end
  | TimerFires h =>
      if existsb (N.eqb h) (armed s)
      then Some (enterTrySync (clearTimeout h s))
      else None
  end.

Fixpoint run (s : State) (evs : list Event) : option State :=
  match evs with
  | [] => Some s
  | e :: rest =>
      match step s e with
      | Some s' => run s' rest
      | None => None
      end
  end.

Definition is_start (e : Event) : bool :=
  match e with CallStartSyncLoop => true | _ => false end.

(** The loop is idle between two cycles: no cycle in flight, and the only
    timer armed, if any, is the one [this.timeout] holds. *)
Definition between_cycles (s : State) : Prop :=
  in_flight s = 0 /\ forall h, In h (armed s) -> timeout s = Some h.

(** Nothing is pending: no cycle in flight and no timer armed. *)
Definition quiescent (s : State) : Prop := in_flight s = 0 /\ armed s = [].

(** The claim about [stop]: in every execution, once [stop()] has been
    called and [startSyncLoop()] is not called again, no cycle starts. *)
Definition stop_is_final : Prop :=
  forall (before after : list Event) (s1 s2 : State),
    run init (before ++ [CallStop]) = Some s1 ->
    forallb (fun e => negb (is_start e)) after = true ->
    run s1 after = Some s2 ->
    cycles_started s2 = cycles_started s1.

End Scheduler.

(** ** The change set in the words of the specification

    Entities present in "desired" but not in "existing" are inserted;
    entities present in both whose payload differs by the predicate are
    updated; entities present in "existing" but absent from "desired" are
    deleted.  Presence is presence of the identity key in the other list. *)

Module ChangeSetSpec.
Section spec.
Context {K : Type} `{EqDecision K} {E D : Type}.
Variable keyE : E -> K.
Variable keyD : D -> K.
Variable different : E -> D -> bool.

Definition key_in_existing (existing : list E) (d : D) : bool :=
  existsb (fun e => bool_decide (keyE e = keyD d)) existing.

Definition key_in_desired (desired : list D) (e : E) : bool :=
  existsb (fun d => bool_decide (keyD d = keyE e)) desired.

Definition to_insert (existing : list E) (desired : list D) : list D :=
  List.filter (fun d => negb (key_in_existing existing d)) desired.

Definition to_update (existing : list E) (desired : list D) : list D :=
  List.filter
    (fun d =>
       existsb (fun e => bool_decide (keyE e = keyD d) && different e d)
         existing)
    desired.

Definition to_delete (existing : list E) (desired : list D) : list E :=
  List.filter (fun e => negb (key_in_desired desired e)) existing.
End spec.
End ChangeSetSpec.

(** ** Concrete inputs

    The mock configuration of the server tests (one organizer, event A with
    active item 1) and small orders around it. *)

Module Fixtures.
Import Sync.

Definition eventA : DevconnectPretixEventConfig :=
  {| ec_id := 1; eventID := "event-a"; activeItemIDs := ["1"] |}.

Definition organizer : DevconnectPretixOrganizerConfig :=
  {| orgURL := "organizer-url"; token := "token"; events := [eventA] |}.

Definition catalog : list DevconnectPretixItem :=
  [{| dpi_id := 1; dpi_name_en := "GA" |};
   {| dpi_id := 2; dpi_name_en := "VIP" |}].

Definition rowGA : PretixItemInfo :=
  {| pii_id := 10; pii_item_id := "1"; pii_events_info_id := 1;
     pii_item_name := "GA" |}.

Definition withEmail : DevconnectPretixPosition :=
  {| positionid := 1; item := 1; attendee_name := "Alice";
     attendee_email := Some "X@Y.com" |}.

Definition noEmail (name : string) (posid : N) : DevconnectPretixPosition :=
  {| positionid := posid; item := 1; attendee_name := name;
     attendee_email := None |}.

Definition emptyEmail : DevconnectPretixPosition :=
  {| positionid := 3; item := 1; attendee_name := "Carol";
     attendee_email := Some "" |}.

Definition untracked : DevconnectPretixPosition :=
  {| positionid := 4; item := 99; attendee_name := "Dave";
     attendee_email := Some "dave@example.com" |}.

Definition paidOrder : DevconnectPretixOrder :=
  {| ord_code := "ABC"; ord_status := "p"; ord_email := "Buyer@Example.com";
     ord_positions := [withEmail; noEmail "Bob" 2; emptyEmail; untracked] |}.

Definition pendingOrder : DevconnectPretixOrder :=
  {| ord_code := "DEF"; ord_status := "n"; ord_email := "late@example.com";
     ord_positions := [withEmail] |}.

(** One buyer, two positions on the same item, neither with an attendee
    email: both fall back to the purchaser email. *)
Definition twoSeats (first second : string) : DevconnectPretixOrder :=
  {| ord_code := "GHI"; ord_status := "p"; ord_email := "Buyer@Example.com";
     ord_positions := [noEmail first 1; noEmail second 2] |}.

Definition apiWith (name : string) (items : list DevconnectPretixItem)
    (orders : list DevconnectPretixOrder) : IDevconnectPretixAPI :=
  {| fetchEvent := fun _ _ _ => Some {| ev_slug := "event-a"; ev_name_en := name |};
     fetchItems := fun _ _ _ => Some items;
     fetchOrders := fun _ _ _ => Some orders |}.

(** A database that holds the item of event A and no ticket. *)
Definition dbItems : Db :=
  {| events_info := []; items_info := [rowGA]; tickets := [];
     next_event_info_id := 0; next_item_info_id := 11 |}.

(** The same with the event already recorded under its current name. *)
Definition dbSynced : Db :=
  {| events_info :=
       [{| pei_id := 7; pei_pretix_events_config_id := 1;
           pei_event_name := "Devconnect" |}];
     items_info := [rowGA]; tickets := [];
     next_event_info_id := 8; next_item_info_id := 11 |}.

(** existing = {A(v1), B(v1)}, desired = {A(v2), C(v1)}. *)
Definition rowA : PretixItemInfo :=
  {| pii_id := 1; pii_item_id := "1"; pii_events_info_id := 1;
     pii_item_name := "v1" |}.
Definition rowB : PretixItemInfo :=
  {| pii_id := 2; pii_item_id := "2"; pii_events_info_id := 1;
     pii_item_name := "v1" |}.
Definition itemA2 : DevconnectPretixItem := {| dpi_id := 1; dpi_name_en := "v2" |}.
Definition itemC : DevconnectPretixItem := {| dpi_id := 3; dpi_name_en := "v1" |}.

End Fixtures.

(** A position with its attendee email removed. *)
Definition withoutAttendeeEmail (p : DevconnectPretixPosition)
    : DevconnectPretixPosition :=
  {| positionid := positionid p; item := item p;
     attendee_name := attendee_name p; attendee_email := None |}.

(** The claim on the event phase as the specification words it: when the
    stored record already carries the fetched name, nothing is written to the
    event-info table. *)
Definition no_write_when_name_unchanged (api : Sync.IDevconnectPretixAPI)
    (organizer : DevconnectPretixOrganizerConfig)
    (event : DevconnectPretixEventConfig) (db : Sync.Db) : Prop :=
  forall fetched existing,
    Sync.fetchEvent api (orgURL organizer) (token organizer) (eventID event)
      = Some fetched ->
    List.find (fun e => N.eqb (pei_pretix_events_config_id e) (ec_id event))
      (Sync.events_info db) = Some existing ->
    pei_event_name existing = ev_name_en fetched ->
    List.filter writes_event_info (Sync.saveEventInfo api organizer event db).2
      = [].

(** ** What a computation may do

    Three properties of a computation of the monad, each preserved by
    sequencing, loops and [try]/[catch]: it returns (no exception escapes),
    every effect it has satisfies a given test, and it leaves a given part of
    the database as it was. *)

Module Laws.
Import Sync.

Definition returns {A} (m : M A) : Prop :=
  forall db, exists a db' tr, m db = (Returned a, db', tr).

Definition emits {A} (P : Effect -> bool) (m : M A) : Prop :=
  forall db, forallb P (m db).2 = true.

Definition keeps {A B} (f : Db -> B) (m : M A) : Prop :=
  forall db, f (m db).1.2 = f db.

(** An effect that writes to none of the three tables. *)
Definition writes_nothing (e : Effect) : bool :=
  negb (writes_event_info e) && negb (writes_item_info e)
  && negb (writes_ticket e).

(** An effect that writes to some table. *)
Definition is_write (e : Effect) : bool :=
  writes_event_info e || writes_item_info e || writes_ticket e.

(** The effects the three phases may have. *)
Definition of_event_phase (e : Effect) : bool :=
  negb (writes_item_info e) && negb (writes_ticket e).
Definition of_item_phase (e : Effect) : bool :=
  negb (writes_event_info e) && negb (writes_ticket e).
Definition of_ticket_phase_only (e : Effect) : bool :=
  negb (writes_event_info e) && negb (writes_item_info e).
End Laws.

(** ** The item phase in closed form *)

Module ItemPhase.
Import Sync.

(** The rows [insertPretixItemsInfo] adds for the items [ins], the first
    one under the id [next]. *)
Fixpoint insertedRows (cfg next : N) (ins : list DevconnectPretixItem)
    : list PretixItemInfo :=
  match ins with
  | [] => []
  | i :: rest =>
      {| pii_id := next; pii_item_id := toString (dpi_id i);
         pii_events_info_id := cfg; pii_item_name := dpi_name_en i |}
      :: insertedRows cfg (N.succ next) rest
  end.

(** The row [row] after [updatePretixItemsInfo id name]. *)
Definition renameWhere (id : N) (name : string) (row : PretixItemInfo)
    : PretixItemInfo :=
  if N.eqb (pii_id row) id
  then {| pii_id := pii_id row; pii_item_id := pii_item_id row;
          pii_events_info_id := pii_events_info_id row;
          pii_item_name := name |}
  else row.

(** The (id, name) pairs the update loop sends: the id of the stored row
    found for the item, and the item's name. *)
Definition updateTargets (existing : list PretixItemInfo)
    (upd : list DevconnectPretixItem) : list (N * string) :=
  omap (fun i =>
          match ChangeSet.oldOf itemKeyE itemKeyD existing i with
          | Some oldItem => Some (pii_id oldItem, dpi_name_en i)
          | None => None
          end) upd.

Definition renameBy (targets : list (N * string)) (row : PretixItemInfo)
    : PretixItemInfo :=
  foldl (fun row t => renameWhere t.1 t.2 row) row targets.

Definition removedBy (ids : list N) (row : PretixItemInfo) : bool :=
  existsb (N.eqb (pii_id row)) ids.

(** The database after the insert loop. *)
Definition insertWrite (cfg : N) (i : DevconnectPretixItem) (db : Db) : Db :=
  {| events_info := events_info db;
     items_info :=
       items_info db ++
       [{| pii_id := next_item_info_id db; pii_item_id := toString (dpi_id i);
           pii_events_info_id := cfg; pii_item_name := dpi_name_en i |}];
     tickets := tickets db;
     next_event_info_id := next_event_info_id db;
     next_item_info_id := N.succ (next_item_info_id db) |}.

(** The write of one round of the update loop. *)
Definition updateWrite (existing : list PretixItemInfo)
    (i : DevconnectPretixItem) (db : Db) : Db :=
  match ChangeSet.oldOf itemKeyE itemKeyD existing i with
  | Some oldItem =>
      set_items_info (map (renameWhere (pii_id oldItem) (dpi_name_en i))) db
  | None => db
  end.

Definition updateTrace (existing : list PretixItemInfo)
    (i : DevconnectPretixItem) : list Effect :=
  match ChangeSet.oldOf itemKeyE itemKeyD existing i with
  | Some oldItem =>
      [Log (LogUpdatingItem oldItem (dpi_name_en i));
       UpdateItemsInfo (pii_id oldItem) (dpi_name_en i)]
  | None => []
  end.

(** The item table after the three loops of [saveItemsInfo]. *)
Definition applyItemChanges (cfg next : N)
    (existing : list PretixItemInfo) (newActive : list DevconnectPretixItem)
    (rows : list PretixItemInfo) : list PretixItemInfo :=
  List.filter
    (fun r => negb (removedBy (map pii_id (itemsToRemove existing newActive)) r))
    (map (renameBy (updateTargets existing (itemsToUpdate existing newActive)))
       (rows ++ insertedRows cfg next (itemsToInsert existing newActive))).

(** The database after a successful run of [saveItemsInfo]. *)
Definition after (cfg : N) (catalog : list DevconnectPretixItem)
    (activeIDs : list string) (db : Db) : Db :=
  let existing := eventItems db cfg in
  let newActive := newActiveItemsOf activeIDs catalog in
  {| events_info := events_info db;
     items_info :=
       applyItemChanges cfg (next_item_info_id db) existing newActive
         (items_info db);
     tickets := tickets db;
     next_event_info_id := next_event_info_id db;
     next_item_info_id :=
       (next_item_info_id db
        + N.of_nat (length (itemsToInsert existing newActive)))%N |}.

(** Ids are a primary key filled from a sequence: they are pairwise
    distinct and below the next value of the sequence. *)
Definition idsWellFormed (db : Db) : Prop :=
  NoDup (map pii_id (items_info db))
  /\ forall r, In r (items_info db) -> (pii_id r < next_item_info_id db)%N.

(** What the item table says about an event: the (item id, name) pairs. *)
Definition storedItems (db : Db) (cfg : N) : list (string * string) :=
  map (fun r => (pii_item_id r, pii_item_name r)) (eventItems db cfg).

(** What the catalog says about an event: the pairs of its active items. *)
Definition wantedItems (activeIDs : list string)
    (catalog : list DevconnectPretixItem) : list (string * string) :=
  map (fun i => (toString (dpi_id i), dpi_name_en i))
    (newActiveItemsOf activeIDs catalog).
End ItemPhase.

(** ** More concrete inputs *)

Module Fixtures2.
(** Event C of the mock configuration tracks no item. *)
Definition eventC : DevconnectPretixEventConfig :=
  {| ec_id := 3; eventID := "event-c"; activeItemIDs := [] |}.

(** Event B tracks both items of the catalog. *)
Definition eventB : DevconnectPretixEventConfig :=
  {| ec_id := 2; eventID := "event-b"; activeItemIDs := ["1"; "2"] |}.

(** Item rows of three events; the row of event A bears an old name. *)
Definition dbThreeEvents : Sync.Db :=
  {| Sync.events_info := [];
     Sync.items_info :=
       [{| pii_id := 10; pii_item_id := "1"; pii_events_info_id := 1;
           pii_item_name := "General" |};
        {| pii_id := 11; pii_item_id := "7"; pii_events_info_id := 1;
           pii_item_name := "Retired" |};
        {| pii_id := 12; pii_item_id := "1"; pii_events_info_id := 2;
           pii_item_name := "GA" |};
        {| pii_id := 13; pii_item_id := "2"; pii_events_info_id := 3;
           pii_item_name := "VIP" |}];
     Sync.tickets := [];
     Sync.next_event_info_id := 0;
     Sync.next_item_info_id := 14 |}.

Definition api : Sync.IDevconnectPretixAPI :=
  Fixtures.apiWith "Devconnect" Fixtures.catalog [Fixtures.paidOrder].
End Fixtures2.

Module Fixtures3.
(** An order with a single position, for attendee "X@Y.com". *)
Definition singleOrder : DevconnectPretixOrder :=
  {| ord_code := "JKL"; ord_status := "p"; ord_email := "buyer@example.com";
     ord_positions := [Fixtures.withEmail] |}.

Definition api : Sync.IDevconnectPretixAPI :=
  Fixtures.apiWith "Devconnect" Fixtures.catalog [singleOrder].

(** A Pretix client whose every call rejects. *)
Definition apiDown : Sync.IDevconnectPretixAPI :=
  {| Sync.fetchEvent := fun _ _ _ => None;
     Sync.fetchItems := fun _ _ _ => None;
     Sync.fetchOrders := fun _ _ _ => None |}.
End Fixtures3.

(** ** The projection as a comprehension *)

Module ProjectionSpec.
(** The positions of the paid orders, each with its order, in the order
    the loops visit them. *)
Definition paidPositions (orders : list DevconnectPretixOrder)
    : list (DevconnectPretixOrder * DevconnectPretixPosition) :=
  flat_map (fun o => map (pair o) (ord_positions o))
    (List.filter (fun o => String.eqb (ord_status o) "p") orders).

(** The item of the position has a row among [itemsInfo]. *)
Definition tracked (itemsInfo : list PretixItemInfo)
    (op : DevconnectPretixOrder * DevconnectPretixPosition) : bool :=
  existsb (fun i => String.eqb (pii_item_id i) (toString (item op.2)))
    itemsInfo.

Definition lacksEmail
    (op : DevconnectPretixOrder * DevconnectPretixPosition) : bool :=
  negb (truthy (attendee_email op.2)).

(** An ASCII capital letter. *)
Definition is_upper (c : Ascii.ascii) : bool :=
  let n := Ascii.N_of_ascii c in ((65 <=? n) && (n <=? 90))%N.

Definition has_upper (s : string) : bool :=
  existsb is_upper (String.list_ascii_of_string s).
End ProjectionSpec.

(** ** The service object: readiness flag, [replaceApi] and start-up

    [Scheduler.State] follows the timers; the service adds the two fields
    [replaceApi] writes.  A cycle is [this.trySync()]: it sets
    [_hasCompletedSyncSinceStarting] when [sync()] and the semaphore reload
    went through, reports the error otherwise, and in both cases the closure
    of [startSyncLoop] then arms the next timer. *)

Module Service.
Section service.
Context {API : Type}.

Record State := {
  sched : Scheduler.State;
  pretixAPI : API;
  hasCompletedSyncSinceStarting : bool;
}.

(** [new DevconnectPretixSyncService(context, pretixAPI, ...)] *)
Definition construct (api : API) : State :=
  {| sched := Scheduler.init; pretixAPI := api;
     hasCompletedSyncSinceStarting := false |}.

Definition on_sched (f : Scheduler.State -> Scheduler.State) (s : State)
    : State :=
  {| sched := f (sched s); pretixAPI := pretixAPI s;
     hasCompletedSyncSinceStarting := hasCompletedSyncSinceStarting s |}.

Definition startSyncLoop : State -> State := on_sched Scheduler.enterTrySync.

Definition stop : State -> State := on_sched Scheduler.stop.

(** [replaceApi(newAPI)] *)
Definition replaceApi (newAPI : API) (s : State) : State :=
  let wasRunning :=
    match Scheduler.timeout (sched s) with Some _ => true | None => false end in
  let stopped := if wasRunning then stop s else s in
  let swapped :=
    {| sched := sched stopped; pretixAPI := newAPI;
       hasCompletedSyncSinceStarting := false |} in
  if wasRunning then startSyncLoop swapped else swapped.

Inductive Event :=
| CallStartSyncLoop
| CallStop
| CallReplaceApi (newAPI : API)
| CycleSucceeds
| CycleFails
| TimerFires (h : N).

(** The end of a cycle, then the re-arming of the timer. *)
Definition settle (ok : bool) (s : State) : option State :=
  match Scheduler.in_flight (sched s) with
  | O => None
  | S _ =>
      Some {| sched := Scheduler.rearm (sched s); pretixAPI := pretixAPI s;
              hasCompletedSyncSinceStarting :=
                if ok then true else hasCompletedSyncSinceStarting s |}
  end.

Definition step (s : State) (e : Event) : option State :=
  match e with
  | CallStartSyncLoop => Some (startSyncLoop s)
  | CallStop => Some (stop s)
  | CallReplaceApi newAPI => Some (replaceApi newAPI s)
  | CycleSucceeds => settle true s
  | CycleFails => settle false s
  | TimerFires h =>
      if existsb (N.eqb h) (Scheduler.armed (sched s))
      then Some (on_sched
                   (fun sc => Scheduler.enterTrySync (Scheduler.clearTimeout h sc))
                   s)
      else None
  end.

Fixpoint run (s : State) (evs : list Event) : option State :=
  match evs with
  | [] => Some s
  | e :: rest =>
      match step s e with
      | Some s' => run s' rest
      | None => None
      end
  end.

(** [startDevconnectPretixSyncService]: no service when the server runs
    as Zuzalu or has no Pretix client; otherwise a service whose loop was
    started. *)
Definition startDevconnectPretixSyncService (isZuzalu : bool)
    (devconnectPretixAPI : option API) : option State :=
  if isZuzalu then None
  else match devconnectPretixAPI with
       | None => None
       | Some api => Some (startSyncLoop (construct api))
       end.

Definition is_replace (e : Event) : bool :=
  match e with CallReplaceApi _ => true | _ => false end.

(** At most one cycle or one timer, never both. *)
Definition one_loop (s : State) : Prop :=
  Scheduler.in_flight (sched s) + length (Scheduler.armed (sched s)) <= 1
  /\ forall h, In h (Scheduler.armed (sched s)) ->
               Scheduler.timeout (sched s) = Some h.

(** The calls that keep one loop: no second [startSyncLoop], and
    [replaceApi] only while no cycle is in flight or before the first timer
    was set. *)
Definition calm (s : State) (e : Event) : bool :=
  match e with
  | CallStartSyncLoop => false
  | CallReplaceApi _ =>
      Nat.eqb (Scheduler.in_flight (sched s)) 0
      || match Scheduler.timeout (sched s) with Some _ => false | None => true end
  | _ => true
  end.

Fixpoint calm_run (s : State) (evs : list Event) : bool :=
  match evs with
  | [] => true
  | e :: rest =>
      calm s e
      && match step s e with
         | Some s' => calm_run s' rest
         | None => true
         end
  end.
End service.
Arguments State : clear implicits.
Arguments Event : clear implicits.
End Service.

(** ** The mock Pretix client of the server tests *)

Module Mock.
(** The constants the mock configuration imports from the data mocker,
    which is not part of the sources: they are parameters here. *)
Record Constants := {
  ITEM_1 : N;
  ITEM_2 : N;
  EVENT_A_CONFIG_ID : N;
  EVENT_A_ID : string;
  EVENT_B_CONFIG_ID : N;
  EVENT_B_ID : string;
  EVENT_C_CONFIG_ID : N;
  EVENT_C_ID : string;
}.

(** [IMockDevconnectPretixData], as far as the client reads it. *)
Record IMockDevconnectPretixData := {
  eventNameByEventID : gmap string string;
  ordersByEventId : gmap string (list DevconnectPretixOrder);
}.

(** The organizers of [MOCK_PRETIX_API_CONFIG] (the configuration id of the
    organizer, which the service never reads, is left out). *)
Definition MOCK_PRETIX_API_CONFIG (c : Constants)
    : list DevconnectPretixOrganizerConfig :=
  [{| orgURL := "organizer-url";
      token := "token";
      events :=
        [{| ec_id := EVENT_A_CONFIG_ID c; eventID := EVENT_A_ID c;
            activeItemIDs := [toString (ITEM_1 c)] |};
         {| ec_id := EVENT_B_CONFIG_ID c; eventID := EVENT_B_ID c;
            activeItemIDs := [toString (ITEM_1 c); toString (ITEM_2 c)] |};
         {| ec_id := EVENT_C_CONFIG_ID c; eventID := EVENT_C_ID c;
            activeItemIDs := [] |}] |}].

(** [getDevconnectMockPretixAPI(mockData)]: [fetchEvent] throws "404 event
    not found" unless the event id has a truthy name; [fetchItems] always
    returns the two items; [fetchOrders] returns the orders of the event,
    or none. *)
Definition getDevconnectMockPretixAPI (c : Constants)
    (mockData : IMockDevconnectPretixData) : Sync.IDevconnectPretixAPI :=
  {| Sync.fetchEvent := fun _ _ eventID =>
       let eventName := eventNameByEventID mockData !! eventID in
       if truthy eventName
       then Some {| ev_slug := eventID; ev_name_en := js_or eventName "" |}
       else None;
     Sync.fetchItems := fun _ _ _ =>
       Some [{| dpi_id := ITEM_1 c; dpi_name_en := "item-1" |};
             {| dpi_id := ITEM_2 c; dpi_name_en := "item-2" |}];
     Sync.fetchOrders := fun _ _ eventID =>
       Some (default [] (ordersByEventId mockData !! eventID)) |}.
End Mock.

Module Fixtures4.
Definition constants : Mock.Constants :=
  {| Mock.ITEM_1 := 1; Mock.ITEM_2 := 2;
     Mock.EVENT_A_CONFIG_ID := 1; Mock.EVENT_A_ID := "event-a";
     Mock.EVENT_B_CONFIG_ID := 2; Mock.EVENT_B_ID := "event-b";
     Mock.EVENT_C_CONFIG_ID := 3; Mock.EVENT_C_ID := "event-c" |}.

(** Mock data that names event A only. *)
Definition mockData : Mock.IMockDevconnectPretixData :=
  {| Mock.eventNameByEventID := {[ "event-a" := "Event A" ]};
     Mock.ordersByEventId := {[ "event-a" := [Fixtures.paidOrder] ]} |}.
End Fixtures4.

(** * Properties *)

(** ** The JavaScript [Map] *)

Section JsMap_facts.
Context {K : Type} `{Countable K} {V : Type}.
Implicit Types (l : list (K * V)) (k : K) (v : V).

Lemma of_entries_snoc l k v :
  JsMap.of_entries (l ++ [(k, v)]) = <[k:=v]> (JsMap.of_entries l).
Proof. unfold JsMap.of_entries. by rewrite foldl_snoc. Qed.

(** Built from the last entry backwards, the map is stdpp's
    [list_to_map], in which the first entry of a key wins. *)
Lemma of_entries_list_to_map l :
  JsMap.of_entries l = list_to_map (reverse l).
Proof.
  induction l as [|[k v] l IH] using rev_ind; [done|].
  by rewrite of_entries_snoc, reverse_snoc, list_to_map_cons, IH.
Qed.

Lemma of_entries_lookup_None l k :
  JsMap.of_entries l !! k = None <-> k ∉ l.*1.
Proof.
  rewrite of_entries_list_to_map, <-not_elem_of_list_to_map.
  by rewrite fmap_reverse, elem_of_reverse.
Qed.

Lemma of_entries_has l k :
  JsMap.has (JsMap.of_entries l) k = bool_decide (k ∈ l.*1).
Proof.
  unfold JsMap.has. apply bool_decide_ext.
  rewrite <-not_eq_None_Some, of_entries_lookup_None.
  split; [apply dec_stable | tauto].
Qed.

Lemma of_entries_lookup_elem l k v :
  JsMap.of_entries l !! k = Some v -> (k, v) ∈ l.
Proof.
  rewrite of_entries_list_to_map. intros Hl.
  apply elem_of_list_to_map_2 in Hl. by rewrite elem_of_reverse in Hl.
Qed.

Lemma of_entries_lookup_NoDup l k v :
  NoDup l.*1 -> (k, v) ∈ l -> JsMap.of_entries l !! k = Some v.
Proof.
  intros Hnd Hin. rewrite of_entries_list_to_map.
  apply elem_of_list_to_map_1.
  - by rewrite fmap_reverse, reverse_Permutation.
  - by apply elem_of_reverse.
Qed.

Lemma has_lookup (m : gmap K V) k :
  JsMap.has m k = match m !! k with Some _ => true | None => false end.
Proof.
  unfold JsMap.has. destruct (m !! k) eqn:Hl.
  - by apply bool_decide_eq_true_2.
  - apply bool_decide_eq_false_2. by intros [? ?].
Qed.

(** With distinct keys the order of the entries is irrelevant. *)
Lemma of_entries_perm l l' :
  NoDup l.*1 -> l ≡ₚ l' -> JsMap.of_entries l = JsMap.of_entries l'.
Proof.
  intros Hnd Hp. rewrite !of_entries_list_to_map.
  apply list_to_map_proper.
  - by rewrite fmap_reverse, reverse_Permutation.
  - by rewrite !reverse_Permutation.
Qed.

(** Membership of a key never depends on the order. *)
Lemma of_entries_has_perm l l' k :
  l ≡ₚ l' ->
  JsMap.has (JsMap.of_entries l) k = JsMap.has (JsMap.of_entries l') k.
Proof.
  intros Hp. rewrite !of_entries_has. apply bool_decide_ext. by rewrite Hp.
Qed.
End JsMap_facts.

(** ** Change sets *)

Lemma filter_Permutation_bool {A} (f g : A -> bool) (l l' : list A) :
  (forall x, f x = g x) -> l ≡ₚ l' -> List.filter f l ≡ₚ List.filter g l'.
Proof.
  intros Hfg Hp. induction Hp as [|x l l' _ IH|x y l|l l' l'' _ IH1 _ IH2]; simpl.
  - done.
  - rewrite <-Hfg. destruct (f x); by rewrite IH.
  - rewrite <-!Hfg. erewrite (filter_ext f g) by done.
    destruct (f x), (f y); try done. apply perm_swap.
  - etrans; [apply IH1|]. etrans; [|apply IH2].
    erewrite (filter_ext g f); [done|]. intros; by rewrite Hfg.
Qed.

Lemma filter_none {A} (f : A -> bool) (l : list A) :
  (forall x, In x l -> f x = false) -> List.filter f l = [].
Proof.
  induction l as [|x l IH]; intros Hf; [done|]. simpl.
  rewrite (Hf x (or_introl eq_refl)). apply IH. intros y Hy. apply Hf. by right.
Qed.

Lemma existsb_bool_decide_elem_of {A B} `{EqDecision B} (f : A -> B) (l : list A) (b : B) :
  existsb (fun a => bool_decide (f a = b)) l = bool_decide (b ∈ map f l).
Proof.
  induction l as [|a l IH].
  - symmetry. apply bool_decide_eq_false_2. intros Hb. by apply elem_of_nil in Hb.
  - cbn [existsb map]. rewrite IH. destruct (decide (f a = b)) as [Hab|Hab].
    + rewrite (bool_decide_eq_true_2 (f a = b)) by done.
      symmetry. apply bool_decide_eq_true_2. rewrite Hab. left.
    + rewrite (bool_decide_eq_false_2 (f a = b)) by done.
      apply bool_decide_ext. rewrite elem_of_cons.
      split; [by right | intros [?|?]; [congruence|done]].
Qed.

Section ChangeSet_facts.
Context {K : Type} `{Countable K} {E D : Type}.
Variable keyE : E -> K.
Variable keyD : D -> K.
Variable different : E -> D -> bool.

Local Abbreviation existingByKey := (ChangeSet.existingByKey keyE).
Local Abbreviation desiredByKey := (ChangeSet.desiredByKey keyD).
Local Abbreviation toInsert := (ChangeSet.toInsert keyE keyD).
Local Abbreviation toUpdate := (ChangeSet.toUpdate keyE keyD different).
Local Abbreviation toRemove := (ChangeSet.toRemove keyE keyD).
Local Abbreviation oldOf := (ChangeSet.oldOf keyE keyD).

Lemma existingByKey_has existing k :
  JsMap.has (existingByKey existing) k = bool_decide (k ∈ map keyE existing).
Proof.
  unfold ChangeSet.existingByKey. rewrite of_entries_has.
  apply bool_decide_ext. by rewrite <-list_fmap_compose.
Qed.

Lemma desiredByKey_has desired k :
  JsMap.has (desiredByKey desired) k = bool_decide (k ∈ map keyD desired).
Proof.
  unfold ChangeSet.desiredByKey. rewrite of_entries_has.
  apply bool_decide_ext. by rewrite <-list_fmap_compose.
Qed.

(** The row found for a key is a stored row with that key. *)
Lemma existingByKey_lookup_In existing k old :
  existingByKey existing !! k = Some old -> In old existing /\ keyE old = k.
Proof.
  intros Hl%of_entries_lookup_elem.
  apply list_elem_of_fmap in Hl as (e & [= -> ->] & He).
  split; [by apply list_elem_of_In|done].
Qed.

(** With distinct keys, every stored row is the one found for its key. *)
Lemma existingByKey_lookup_NoDup existing e :
  NoDup (map keyE existing) -> In e existing ->
  existingByKey existing !! keyE e = Some e.
Proof.
  intros Hnd He. apply of_entries_lookup_NoDup.
  - by rewrite <-list_fmap_compose.
  - apply list_elem_of_fmap. exists e. split; [done|by apply list_elem_of_In].
Qed.

Lemma existingByKey_perm existing existing' :
  NoDup (map keyE existing) -> existing ≡ₚ existing' ->
  existingByKey existing = existingByKey existing'.
Proof.
  intros Hnd Hp. apply of_entries_perm.
  - by rewrite <-list_fmap_compose.
  - by apply fmap_Permutation.
Qed.

Lemma toInsert_spec existing desired :
  toInsert existing desired = ChangeSetSpec.to_insert keyE keyD existing desired.
Proof.
  apply filter_ext. intros d. f_equal.
  rewrite existingByKey_has. unfold ChangeSetSpec.key_in_existing.
  by rewrite existsb_bool_decide_elem_of.
Qed.

Lemma toRemove_spec existing desired :
  toRemove existing desired = ChangeSetSpec.to_delete keyE keyD existing desired.
Proof.
  apply filter_ext. intros e. f_equal.
  rewrite desiredByKey_has. unfold ChangeSetSpec.key_in_desired.
  by rewrite existsb_bool_decide_elem_of.
Qed.

(** The two filters of [toUpdate] are one filter. *)
Lemma toUpdate_one_filter existing desired :
  toUpdate existing desired =
  List.filter
    (fun d => match oldOf existing d with
              | Some old => different old d
              | None => false
              end)
    desired.
Proof.
  unfold ChangeSet.toUpdate, ChangeSet.oldOf, JsMap.get.
  induction desired as [|d desired IH]; [done|]. cbn [List.filter].
  rewrite has_lookup.
  destruct (existingByKey existing !! keyD d) as [old|] eqn:Hl.
  - cbn [List.filter]. rewrite Hl. destruct (different old d); by rewrite IH.
  - done.
Qed.

Lemma toUpdate_spec existing desired :
  NoDup (map keyE existing) ->
  toUpdate existing desired =
  ChangeSetSpec.to_update keyE keyD different existing desired.
Proof.
  intros Hnd. rewrite toUpdate_one_filter. apply filter_ext. intros d.
  unfold ChangeSet.oldOf, JsMap.get.
  destruct (existingByKey existing !! keyD d) as [old|] eqn:Hl.
  - apply existingByKey_lookup_In in Hl as Hold. destruct Hold as [Hin Hk].
    destruct (different old d) eqn:Hd; symmetry.
    + apply existsb_exists. exists old. rewrite Hd, bool_decide_eq_true_2; done.
    + apply not_true_iff_false. intros (e & He & Hed)%existsb_exists.
      apply andb_true_iff in Hed as [Hke%bool_decide_eq_true Hdiff].
      pose proof (existingByKey_lookup_NoDup existing e Hnd He) as Hle.
      rewrite Hke, Hl in Hle. congruence.
  - symmetry. apply not_true_iff_false. intros (e & He & Hed)%existsb_exists.
    apply andb_true_iff in Hed as [Hke%bool_decide_eq_true _].
    pose proof (existingByKey_lookup_NoDup existing e Hnd He) as Hle.
    rewrite Hke, Hl in Hle. congruence.
Qed.

(** Every entity to update comes with the stored row it replaces. *)
Lemma toUpdate_old existing desired d :
  In d (toUpdate existing desired) ->
  exists old, oldOf existing d = Some old /\ In old existing
              /\ keyE old = keyD d /\ different old d = true.
Proof.
  rewrite toUpdate_one_filter. intros [_ Hd]%filter_In.
  destruct (oldOf existing d) as [old|] eqn:Hl; [|done].
  exists old. apply existingByKey_lookup_In in Hl as [? ?]. done.
Qed.

Lemma toInsert_perm existing existing' desired desired' :
  existing ≡ₚ existing' -> desired ≡ₚ desired' ->
  toInsert existing' desired' ≡ₚ toInsert existing desired.
Proof.
  intros He Hd. symmetry. apply filter_Permutation_bool; [|done].
  intros d. rewrite !existingByKey_has. f_equal. apply bool_decide_ext.
  by rewrite He.
Qed.

Lemma toRemove_perm existing existing' desired desired' :
  existing ≡ₚ existing' -> desired ≡ₚ desired' ->
  toRemove existing' desired' ≡ₚ toRemove existing desired.
Proof.
  intros He Hd. symmetry. apply filter_Permutation_bool; [|done].
  intros d. rewrite !desiredByKey_has. f_equal. apply bool_decide_ext.
  by rewrite Hd.
Qed.

Lemma toUpdate_perm existing existing' desired desired' :
  NoDup (map keyE existing) ->
  existing ≡ₚ existing' -> desired ≡ₚ desired' ->
  toUpdate existing' desired' ≡ₚ toUpdate existing desired.
Proof.
  intros Hnd He Hd. symmetry. rewrite !toUpdate_one_filter.
  apply filter_Permutation_bool; [|done].
  intros d. unfold ChangeSet.oldOf.
  by rewrite (existingByKey_perm existing existing').
Qed.
End ChangeSet_facts.

(** ** Ticket projection *)

Lemma lower_ascii_idem c : lower_ascii (lower_ascii c) = lower_ascii c.
Proof. destruct c as [[] [] [] [] [] [] [] []]; reflexivity. Qed.

Lemma toLowerCase_idem s : toLowerCase (toLowerCase s) = toLowerCase s.
Proof. induction s as [|c s IH]; simpl; [done|]. by rewrite lower_ascii_idem, IH. Qed.

Lemma js_or_truthy a b : truthy a = true -> exists e, a = Some e /\ js_or a b = e.
Proof. destruct a as [[|c r]|]; simpl; try done. eauto. Qed.

Lemma js_or_falsy a b : truthy a = false -> js_or a b = b.
Proof. by destruct a as [[|c r]|]. Qed.

Section Projection_facts.
Import Projection.
Variable byItemID : gmap string PretixItemInfo.

Lemma pushPosition_acc o acc p :
  pushPosition byItemID o acc p =
  (acc.1 ++ positionTickets byItemID o p, acc.2 ++ positionLogs byItemID o p).
Proof.
  unfold positionTickets, positionLogs, pushPosition. destruct acc as [ts ls].
  destruct (JsMap.get byItemID (toString (item p))); simpl.
  - destruct (truthy (attendee_email p)); simpl; by rewrite ?app_nil_r.
  - by rewrite !app_nil_r.
Qed.

Lemma foldl_pushPosition o ps acc :
  foldl (pushPosition byItemID o) acc ps =
  (acc.1 ++ flat_map (positionTickets byItemID o) ps,
   acc.2 ++ flat_map (positionLogs byItemID o) ps).
Proof.
  revert acc. induction ps as [|p ps IH]; intros [ts ls]; simpl.
  - by rewrite !app_nil_r.
  - rewrite pushPosition_acc, IH. simpl. by rewrite !app_assoc.
Qed.

Lemma orderTickets_unpaid o :
  ord_status o <> "p" -> orderTickets byItemID o = [] /\ orderLogs byItemID o = [].
Proof.
  intros Hs. unfold orderTickets, orderLogs, pushOrder.
  destruct (String.eqb_spec (ord_status o) "p"); done.
Qed.

Lemma orderTickets_paid o :
  ord_status o = "p" ->
  orderTickets byItemID o = flat_map (positionTickets byItemID o) (ord_positions o)
  /\ orderLogs byItemID o = flat_map (positionLogs byItemID o) (ord_positions o).
Proof.
  intros Hs. unfold orderTickets, orderLogs, pushOrder.
  rewrite Hs. cbn [String.eqb Ascii.eqb Bool.eqb negb andb].
  by rewrite foldl_pushPosition.
Qed.

Lemma pushOrder_acc acc o :
  pushOrder byItemID acc o =
  (acc.1 ++ orderTickets byItemID o, acc.2 ++ orderLogs byItemID o).
Proof.
  unfold orderTickets, orderLogs, pushOrder. destruct acc as [ts ls].
  destruct (negb (ord_status o =? "p")%string); simpl.
  - by rewrite !app_nil_r.
  - by rewrite !foldl_pushPosition.
Qed.

Lemma foldl_pushOrder orders acc :
  foldl (pushOrder byItemID) acc orders =
  (acc.1 ++ flat_map (orderTickets byItemID) orders,
   acc.2 ++ flat_map (orderLogs byItemID) orders).
Proof.
  revert acc. induction orders as [|o orders IH]; intros [ts ls]; simpl.
  - by rewrite !app_nil_r.
  - rewrite pushOrder_acc, IH. simpl. by rewrite !app_assoc.
Qed.

(** A position whose item is not in the map contributes nothing. *)
Lemma positionTickets_untracked o p :
  byItemID !! toString (item p) = None ->
  positionTickets byItemID o p = [] /\ positionLogs byItemID o p = [].
Proof.
  intros Hl. unfold positionTickets, positionLogs, pushPosition, JsMap.get.
  by rewrite Hl.
Qed.

(** A position whose item is in the map contributes one ticket. *)
Lemma positionTickets_tracked o p info :
  byItemID !! toString (item p) = Some info ->
  positionTickets byItemID o p =
  [{| email := toLowerCase (js_or (attendee_email p) (ord_email o));
      full_name := attendee_name p;
      devconnect_pretix_items_info_id := pii_id info;
      is_deleted := false |}].
Proof.
  intros Hl. unfold positionTickets, pushPosition, JsMap.get. by rewrite Hl.
Qed.

Lemma positionLogs_tracked o p info :
  byItemID !! toString (item p) = Some info ->
  positionLogs byItemID o p =
  if truthy (attendee_email p) then []
  else [LogNoAttendeeEmail (ord_code o) (positionid p)].
Proof.
  intros Hl. unfold positionLogs, pushPosition, JsMap.get. rewrite Hl.
  by destruct (truthy (attendee_email p)).
Qed.
End Projection_facts.

Lemma ordersToDevconnectTickets_flat orders itemsInfo :
  Projection.ordersToDevconnectTickets orders itemsInfo =
  (flat_map (Projection.orderTickets (Projection.itemsInfoByItemID itemsInfo)) orders,
   flat_map (Projection.orderLogs (Projection.itemsInfoByItemID itemsInfo)) orders).
Proof. unfold Projection.ordersToDevconnectTickets. by rewrite foldl_pushOrder. Qed.

Lemma ordersToDevconnectTickets_app orders1 orders2 itemsInfo :
  Projection.ordersToDevconnectTickets (orders1 ++ orders2) itemsInfo =
  ((Projection.ordersToDevconnectTickets orders1 itemsInfo).1 ++
   (Projection.ordersToDevconnectTickets orders2 itemsInfo).1,
   (Projection.ordersToDevconnectTickets orders1 itemsInfo).2 ++
   (Projection.ordersToDevconnectTickets orders2 itemsInfo).2).
Proof. rewrite !ordersToDevconnectTickets_flat. simpl. by rewrite !flat_map_app. Qed.

(** Every ticket the projection emits is not deleted and carries an email
    that lower-casing leaves as it is. *)
Lemma projected_ticket_shape orders itemsInfo t :
  In t (Projection.ordersToDevconnectTickets orders itemsInfo).1 ->
  is_deleted t = false /\ toLowerCase (email t) = email t
  /\ exists info, In info itemsInfo
                  /\ devconnect_pretix_items_info_id t = pii_id info.
Proof.
  rewrite ordersToDevconnectTickets_flat. simpl.
  intros (o & _ & Ht)%in_flat_map.
  destruct (decide (ord_status o = "p")) as [Hp|Hp].
  - rewrite (proj1 (orderTickets_paid _ o Hp)) in Ht.
    apply in_flat_map in Ht as (p & _ & Ht).
    destruct (Projection.itemsInfoByItemID itemsInfo !! toString (item p))
      as [info|] eqn:Hl.
    + rewrite (positionTickets_tracked _ o p info Hl) in Ht.
      destruct Ht as [<-|[]]. simpl. split; [done|]. split.
      * apply toLowerCase_idem.
      * exists info. split; [|done].
        apply of_entries_lookup_elem in Hl.
        apply list_elem_of_fmap in Hl as (i & [= _ ->] & Hi).
        by apply list_elem_of_In.
    + by rewrite (proj1 (positionTickets_untracked _ o p Hl)) in Ht.
  - by rewrite (proj1 (orderTickets_unpaid _ o Hp)) in Ht.
Qed.

(** C6. An order whose status is not ["p"] contributes no ticket, whatever
    its positions are: its own projection is empty, and removing it from any
    order list leaves the projected tickets unchanged. *)
Theorem unpaid_order_emits_nothing
    (itemsInfo : list PretixItemInfo)
    (before after : list DevconnectPretixOrder) (o : DevconnectPretixOrder) :
  ord_status o <> "p" ->
  Projection.orderTickets (Projection.itemsInfoByItemID itemsInfo) o = []
  /\ (Projection.ordersToDevconnectTickets [o] itemsInfo).1 = []
  /\ (Projection.ordersToDevconnectTickets (before ++ o :: after) itemsInfo).1
     = (Projection.ordersToDevconnectTickets (before ++ after) itemsInfo).1.
Proof.
  intros Hs.
  destruct (orderTickets_unpaid (Projection.itemsInfoByItemID itemsInfo) o Hs)
    as [Ht _].
  split; [done|]. rewrite !ordersToDevconnectTickets_flat. simpl.
  rewrite !flat_map_app. simpl. by rewrite Ht, app_nil_r.
Qed.

Lemma unpaid_order_emits_nothing_witness :
  Projection.orderTickets
    (Projection.itemsInfoByItemID [Fixtures.rowGA]) Fixtures.pendingOrder = []
  /\ (Projection.ordersToDevconnectTickets
        [Fixtures.pendingOrder] [Fixtures.rowGA]).1 = []
  /\ (Projection.ordersToDevconnectTickets
        ([Fixtures.paidOrder] ++ Fixtures.pendingOrder :: []) [Fixtures.rowGA]).1
     = (Projection.ordersToDevconnectTickets
          ([Fixtures.paidOrder] ++ []) [Fixtures.rowGA]).1.
Proof.
  apply (unpaid_order_emits_nothing [Fixtures.rowGA] [Fixtures.paidOrder] []
           Fixtures.pendingOrder).
  vm_compute. discriminate.
Defined.

(** The tickets of an order list that holds the paid order [o] with the
    position [p], position by position. *)
Lemma projection_around_position itemsInfo before after o pre post p :
  ord_status o = "p" ->
  ord_positions o = pre ++ p :: post ->
  let m := Projection.itemsInfoByItemID itemsInfo in
  (Projection.ordersToDevconnectTickets (before ++ o :: after) itemsInfo).1 =
    (Projection.ordersToDevconnectTickets before itemsInfo).1
    ++ flat_map (Projection.positionTickets m o) pre
    ++ Projection.positionTickets m o p
    ++ flat_map (Projection.positionTickets m o) post
    ++ (Projection.ordersToDevconnectTickets after itemsInfo).1
  /\ (Projection.ordersToDevconnectTickets (before ++ o :: after) itemsInfo).2 =
    (Projection.ordersToDevconnectTickets before itemsInfo).2
    ++ flat_map (Projection.positionLogs m o) pre
    ++ Projection.positionLogs m o p
    ++ flat_map (Projection.positionLogs m o) post
    ++ (Projection.ordersToDevconnectTickets after itemsInfo).2.
Proof.
  intros Hs Hp m. subst m. rewrite !ordersToDevconnectTickets_flat. simpl.
  rewrite !flat_map_app. simpl.
  destruct (orderTickets_paid (Projection.itemsInfoByItemID itemsInfo) o Hs)
    as [-> ->].
  rewrite Hp.
  rewrite !flat_map_app. simpl. by rewrite <-!app_assoc.
Qed.

(** C7. In a paid order, a position whose item is in the item-info map and
    whose attendee email is present yields exactly one ticket, at its place
    in the output: the email is the attendee email lower-cased and the owning
    item is the local id of the matching row.  A position whose item is not
    in the map yields no ticket and no log line. *)
Theorem paid_tracked_position_emits_one_ticket
    (itemsInfo : list PretixItemInfo)
    (before after : list DevconnectPretixOrder) (o : DevconnectPretixOrder)
    (pre post : list DevconnectPretixPosition) (p : DevconnectPretixPosition)
    (e : string) (info : PretixItemInfo) :
  ord_status o = "p" ->
  ord_positions o = pre ++ p :: post ->
  attendee_email p = Some e ->
  e <> "" ->
  Projection.itemsInfoByItemID itemsInfo !! toString (item p) = Some info ->
  let m := Projection.itemsInfoByItemID itemsInfo in
  let t := {| email := toLowerCase e; full_name := attendee_name p;
              devconnect_pretix_items_info_id := pii_id info;
              is_deleted := false |} in
  Projection.positionTickets m o p = [t]
  /\ (In info itemsInfo /\ pii_item_id info = toString (item p))
  /\ (Projection.ordersToDevconnectTickets (before ++ o :: after) itemsInfo).1 =
       (Projection.ordersToDevconnectTickets before itemsInfo).1
       ++ flat_map (Projection.positionTickets m o) pre
       ++ [t]
       ++ flat_map (Projection.positionTickets m o) post
       ++ (Projection.ordersToDevconnectTickets after itemsInfo).1
  /\ (forall q, m !! toString (item q) = None ->
        Projection.positionTickets m o q = []
        /\ Projection.positionLogs m o q = []).
Proof.
  intros Hs Hp He Hne Hl m t.
  assert (Projection.positionTickets m o p = [t]) as Ht.
  { unfold m. rewrite (positionTickets_tracked _ o p info Hl), He.
    destruct e; done. }
  split; [done|]. split.
  { apply of_entries_lookup_elem in Hl.
    apply list_elem_of_fmap in Hl as (i & [= Hk ->] & Hi).
    split; [by apply list_elem_of_In|done]. }
  split.
  - rewrite <-Ht. by apply projection_around_position.
  - intros q Hq. by apply positionTickets_untracked.
Qed.

Lemma paid_tracked_position_emits_one_ticket_witness :
  (ord_status Fixtures.paidOrder = "p"
   /\ attendee_email Fixtures.withEmail = Some "X@Y.com"
   /\ Projection.itemsInfoByItemID [Fixtures.rowGA]
        !! toString (item Fixtures.withEmail) = Some Fixtures.rowGA)
  /\ Projection.positionTickets (Projection.itemsInfoByItemID [Fixtures.rowGA])
       Fixtures.paidOrder Fixtures.withEmail
     = [{| email := "x@y.com"; full_name := "Alice";
           devconnect_pretix_items_info_id := 10; is_deleted := false |}].
Proof.
  assert (Projection.itemsInfoByItemID [Fixtures.rowGA]
            !! toString (item Fixtures.withEmail) = Some Fixtures.rowGA) as Hl
    by (vm_compute; reflexivity).
  split; [repeat split; (reflexivity || exact Hl)|].
  apply (paid_tracked_position_emits_one_ticket [Fixtures.rowGA]
           [Fixtures.pendingOrder] [] Fixtures.paidOrder []
           [Fixtures.noEmail "Bob" 2; Fixtures.emptyEmail; Fixtures.untracked]
           Fixtures.withEmail "X@Y.com" Fixtures.rowGA);
    [reflexivity | reflexivity | reflexivity | discriminate | exact Hl].
Defined.

(** C8. In a paid order, a position whose item is tracked and whose attendee
    email is missing is not dropped: it yields one ticket whose email is the
    purchaser email of the order lower-cased, and one log line; the
    projection goes on with the positions and orders that follow.  On either
    path the email is [toLowerCase] of the address chosen, and lower-casing
    an emitted email again changes nothing. *)
Theorem missing_attendee_email_falls_back
    (itemsInfo : list PretixItemInfo)
    (before after : list DevconnectPretixOrder) (o : DevconnectPretixOrder)
    (pre post : list DevconnectPretixPosition) (p : DevconnectPretixPosition)
    (info : PretixItemInfo) :
  ord_status o = "p" ->
  ord_positions o = pre ++ p :: post ->
  truthy (attendee_email p) = false ->
  Projection.itemsInfoByItemID itemsInfo !! toString (item p) = Some info ->
  let m := Projection.itemsInfoByItemID itemsInfo in
  let out := Projection.ordersToDevconnectTickets (before ++ o :: after) itemsInfo in
  let t := {| email := toLowerCase (ord_email o); full_name := attendee_name p;
              devconnect_pretix_items_info_id := pii_id info;
              is_deleted := false |} in
  let line := LogNoAttendeeEmail (ord_code o) (positionid p) in
  Projection.positionTickets m o p = [t]
  /\ Projection.positionLogs m o p = [line]
  /\ out.1 =
       (Projection.ordersToDevconnectTickets before itemsInfo).1
       ++ flat_map (Projection.positionTickets m o) pre
       ++ [t]
       ++ flat_map (Projection.positionTickets m o) post
       ++ (Projection.ordersToDevconnectTickets after itemsInfo).1
  /\ out.2 =
       (Projection.ordersToDevconnectTickets before itemsInfo).2
       ++ flat_map (Projection.positionLogs m o) pre
       ++ [line]
       ++ flat_map (Projection.positionLogs m o) post
       ++ (Projection.ordersToDevconnectTickets after itemsInfo).2
  /\ (forall q info', m !! toString (item q) = Some info' ->
        exists t', Projection.positionTickets m o q = [t']
                   /\ email t' = toLowerCase (js_or (attendee_email q) (ord_email o)))
  /\ (forall t', In t' out.1 -> toLowerCase (email t') = email t').
Proof.
  intros Hs Hp He Hl m out t line.
  assert (Projection.positionTickets m o p = [t]) as Ht.
  { unfold m. rewrite (positionTickets_tracked _ o p info Hl).
    by rewrite (js_or_falsy _ _ He). }
  assert (Projection.positionLogs m o p = [line]) as Hlog.
  { unfold m. by rewrite (positionLogs_tracked _ o p info Hl), He. }
  destruct (projection_around_position itemsInfo before after o pre post p Hs Hp)
    as [H1 H2].
  split; [done|]. split; [done|]. split; [by rewrite <-Ht|].
  split; [by rewrite <-Hlog|]. split.
  - intros q info' Hq. eexists. split; [by apply positionTickets_tracked|done].
  - intros t' Hin. by apply projected_ticket_shape in Hin as (_ & ? & _).
Qed.

Lemma missing_attendee_email_falls_back_witness :
  (ord_status Fixtures.paidOrder = "p"
   /\ truthy (attendee_email (Fixtures.noEmail "Bob" 2)) = false)
  /\ Projection.positionTickets (Projection.itemsInfoByItemID [Fixtures.rowGA])
       Fixtures.paidOrder (Fixtures.noEmail "Bob" 2)
     = [{| email := "buyer@example.com"; full_name := "Bob";
           devconnect_pretix_items_info_id := 10; is_deleted := false |}].
Proof.
  split; [split; reflexivity|].
  apply (missing_attendee_email_falls_back [Fixtures.rowGA]
           [Fixtures.pendingOrder] [] Fixtures.paidOrder [Fixtures.withEmail]
           [Fixtures.emptyEmail; Fixtures.untracked]
           (Fixtures.noEmail "Bob" 2) Fixtures.rowGA);
    [reflexivity | reflexivity | reflexivity | vm_compute; reflexivity].
Defined.

(** C10. A position whose attendee email is the empty string is projected
    exactly like one without attendee email: the ticket carries the purchaser
    email of the order lower-cased (not the empty attendee email), and the
    same line is logged.  Every ticket the projection emits has [is_deleted]
    false. *)
Theorem empty_attendee_email_is_absent
    (itemsInfo : list PretixItemInfo) (orders : list DevconnectPretixOrder)
    (o : DevconnectPretixOrder) (p : DevconnectPretixPosition)
    (info : PretixItemInfo) :
  attendee_email p = Some "" ->
  Projection.itemsInfoByItemID itemsInfo !! toString (item p) = Some info ->
  let m := Projection.itemsInfoByItemID itemsInfo in
  Projection.positionTickets m o p =
    [{| email := toLowerCase (ord_email o); full_name := attendee_name p;
        devconnect_pretix_items_info_id := pii_id info; is_deleted := false |}]
  /\ (forall acc, Projection.pushPosition m o acc p
                  = Projection.pushPosition m o acc (withoutAttendeeEmail p))
  /\ (forall t, In t (Projection.ordersToDevconnectTickets orders itemsInfo).1 ->
                is_deleted t = false).
Proof.
  intros He Hl m. split; [|split].
  - unfold m. by rewrite (positionTickets_tracked _ o p info Hl), He.
  - intros acc. unfold Projection.pushPosition. simpl. by rewrite He.
  - intros t Hin. by apply projected_ticket_shape in Hin as (? & _).
Qed.

Lemma empty_attendee_email_is_absent_witness :
  attendee_email Fixtures.emptyEmail = Some ""
  /\ Projection.positionTickets (Projection.itemsInfoByItemID [Fixtures.rowGA])
       Fixtures.paidOrder Fixtures.emptyEmail
     = [{| email := "buyer@example.com"; full_name := "Carol";
           devconnect_pretix_items_info_id := 10; is_deleted := false |}].
Proof.
  split; [reflexivity|].
  apply (empty_attendee_email_is_absent [Fixtures.rowGA] [Fixtures.paidOrder]
           Fixtures.paidOrder Fixtures.emptyEmail Fixtures.rowGA);
    [reflexivity | vm_compute; reflexivity].
Defined.

(** The maps built in the two phases are the maps of the change set. *)
Lemma ticketsToMapByEmailAndItem_existing ts :
  Sync.ticketsToMapByEmailAndItem ts
  = ChangeSet.existingByKey Sync.getEmailAndItemKey ts.
Proof. reflexivity. Qed.

Lemma ticketsToMapByEmailAndItem_desired ts :
  Sync.ticketsToMapByEmailAndItem ts
  = ChangeSet.desiredByKey Sync.getEmailAndItemKey ts.
Proof. reflexivity. Qed.

(** C2. The change set computed by the save phases is the one the
    specification describes: to-insert holds the desired entities whose key
    no stored row has, to-update the desired entities whose key a stored row
    has with a different payload (each comes with that stored row, whose id
    the update statement uses), to-delete the stored rows whose key no
    desired entity has.  For existing = {A(v1), B(v1)} and desired =
    {A(v2), C(v1)} this gives to-update = [A], to-insert = [C], to-delete =
    [B].  The three lists are functions of the two inputs, and reordering
    either input only reorders them.  Stored rows are addressed by their key:
    where the row of a key matters (to-update), the keys of the stored rows
    are pairwise distinct. *)
Theorem change_set_partition_stable
    {K : Type} `{Countable K} {E D : Type}
    (keyE : E -> K) (keyD : D -> K) (different : E -> D -> bool)
    (existing existing' : list E) (desired desired' : list D) :
  existing ≡ₚ existing' ->
  desired ≡ₚ desired' ->
  (ChangeSet.toInsert keyE keyD existing desired
     = ChangeSetSpec.to_insert keyE keyD existing desired
   /\ ChangeSet.toRemove keyE keyD existing desired
     = ChangeSetSpec.to_delete keyE keyD existing desired
   /\ (forall d, In d (ChangeSet.toUpdate keyE keyD different existing desired) ->
         exists old, ChangeSet.oldOf keyE keyD existing d = Some old
                     /\ In old existing /\ keyE old = keyD d
                     /\ different old d = true)
   /\ (NoDup (map keyE existing) ->
       ChangeSet.toUpdate keyE keyD different existing desired
       = ChangeSetSpec.to_update keyE keyD different existing desired))
  /\ (Sync.itemsToInsert [Fixtures.rowA; Fixtures.rowB]
        [Fixtures.itemA2; Fixtures.itemC] = [Fixtures.itemC]
      /\ Sync.itemsToUpdate [Fixtures.rowA; Fixtures.rowB]
        [Fixtures.itemA2; Fixtures.itemC] = [Fixtures.itemA2]
      /\ ChangeSet.oldOf Sync.itemKeyE Sync.itemKeyD
        [Fixtures.rowA; Fixtures.rowB] Fixtures.itemA2 = Some Fixtures.rowA
      /\ Sync.itemsToRemove [Fixtures.rowA; Fixtures.rowB]
        [Fixtures.itemA2; Fixtures.itemC] = [Fixtures.rowB])
  /\ (ChangeSet.toInsert keyE keyD existing' desired'
        ≡ₚ ChangeSet.toInsert keyE keyD existing desired
      /\ ChangeSet.toRemove keyE keyD existing' desired'
        ≡ₚ ChangeSet.toRemove keyE keyD existing desired
      /\ ChangeSet.toUpdate keyE keyD different existing desired'
        ≡ₚ ChangeSet.toUpdate keyE keyD different existing desired
      /\ (NoDup (map keyE existing) ->
          ChangeSet.toUpdate keyE keyD different existing' desired'
          ≡ₚ ChangeSet.toUpdate keyE keyD different existing desired)).
Proof.
  intros He Hd. split; [|split].
  - split; [apply toInsert_spec|]. split; [apply toRemove_spec|].
    split; [apply toUpdate_old|apply toUpdate_spec].
  - repeat split; vm_compute; reflexivity.
  - split; [by apply toInsert_perm|]. split; [by apply toRemove_perm|].
    split.
    + rewrite !toUpdate_one_filter. symmetry.
      by apply filter_Permutation_bool.
    + intros Hnd. by apply toUpdate_perm.
Qed.

Lemma change_set_partition_stable_witness :
  NoDup (map Sync.itemKeyE [Fixtures.rowA; Fixtures.rowB])
  /\ Sync.itemsToUpdate [Fixtures.rowB; Fixtures.rowA]
       [Fixtures.itemC; Fixtures.itemA2]
     ≡ₚ Sync.itemsToUpdate [Fixtures.rowA; Fixtures.rowB]
          [Fixtures.itemA2; Fixtures.itemC].
Proof.
  assert (NoDup (map Sync.itemKeyE [Fixtures.rowA; Fixtures.rowB])) as Hnd.
  { apply (bool_decide_unpack _). vm_compute. exact I. }
  split; [exact Hnd|].
  apply (change_set_partition_stable Sync.itemKeyE Sync.itemKeyD
           Sync.itemDifferent [Fixtures.rowA; Fixtures.rowB]
           [Fixtures.rowB; Fixtures.rowA] [Fixtures.itemA2; Fixtures.itemC]
           [Fixtures.itemC; Fixtures.itemA2]);
    [apply perm_swap | apply perm_swap | exact Hnd].
Defined.

(** ** The save phases *)

Section Sync_facts.
Import Sync.
Variable api : IDevconnectPretixAPI.
Variable organizer : DevconnectPretixOrganizerConfig.
Variable event : DevconnectPretixEventConfig.

Lemma someActiveItemMissing_true activeIDs catalog missing :
  In missing activeIDs ->
  ~ In missing (map (fun i => toString (dpi_id i)) catalog) ->
  someActiveItemMissing activeIDs catalog = true.
Proof.
  intros Hin Hnot. apply existsb_exists. exists missing. split; [done|].
  apply negb_true_iff, bool_decide_eq_false_2.
  rewrite elem_of_list_to_set. by rewrite list_elem_of_In.
Qed.

(** The item phase with a catalog that lacks an active item: the catalog is
    fetched, the error is logged, and nothing else happens. *)
Lemma saveItemsInfo_missing catalog db :
  fetchItems api (orgURL organizer) (token organizer) (eventID event)
    = Some catalog ->
  someActiveItemMissing (activeItemIDs event) catalog = true ->
  saveItemsInfo api organizer event db =
  (Returned false, db,
   [ApiFetchItems (orgURL organizer) (token organizer) (eventID event);
    Log (LogErrorSyncingItems (orgURL organizer) (eventID event))]).
Proof.
  intros Hf Hm. unfold saveItemsInfo, try_catch, bind, await.
  by rewrite Hf, Hm.
Qed.

(** The event phase always returns, touches only the event-info table and
    does nothing that belongs to the other two phases. *)
Lemma saveEventInfo_outcome db :
  exists b db' tr,
    saveEventInfo api organizer event db = (Returned b, db', tr)
    /\ items_info db' = items_info db
    /\ tickets db' = tickets db
    /\ List.filter writes_item_info tr = []
    /\ List.filter of_ticket_phase tr = [].
Proof.
  unfold saveEventInfo, try_catch, bind, await, fetchPretixEventInfo, query.
  destruct (fetchEvent api _ _ _) as [fetched|]; simpl.
  - destruct (find _ (events_info db)) as [existing|]; simpl;
      by eexists _, _, _.
  - by eexists _, _, _.
Qed.
End Sync_facts.

(** C1. When an id of [activeItemIDs] is absent from the fetched catalog,
    [saveItemsInfo] sends no statement to the database (it only fetches the
    catalog and logs the error), leaves the database as it was and returns
    [false]; [syncAllPretixForOrganizerAndEvent] then leaves the item rows
    and the tickets untouched and performs no step of [saveTickets]. *)
Theorem missing_active_item_aborts_sync
    (api : Sync.IDevconnectPretixAPI)
    (organizer : DevconnectPretixOrganizerConfig)
    (event : DevconnectPretixEventConfig) (db : Sync.Db)
    (catalog : list DevconnectPretixItem) (missing : string) :
  Sync.fetchItems api (orgURL organizer) (token organizer) (eventID event)
    = Some catalog ->
  In missing (activeItemIDs event) ->
  ~ In missing (map (fun i => toString (dpi_id i)) catalog) ->
  Sync.saveItemsInfo api organizer event db =
    (Sync.Returned false, db,
     [ApiFetchItems (orgURL organizer) (token organizer) (eventID event);
      Log (LogErrorSyncingItems (orgURL organizer) (eventID event))])
  /\ exists db' tr,
       Sync.syncAllPretixForOrganizerAndEvent api organizer event db
         = (Sync.Returned tt, db', tr)
       /\ Sync.items_info db' = Sync.items_info db
       /\ Sync.tickets db' = Sync.tickets db
       /\ List.filter writes_item_info tr = []
       /\ List.filter of_ticket_phase tr = [].
Proof.
  intros Hf Hin Hnot.
  pose proof (someActiveItemMissing_true _ _ _ Hin Hnot) as Hm.
  split; [by apply (saveItemsInfo_missing api organizer event catalog)|].
  unfold Sync.syncAllPretixForOrganizerAndEvent, Sync.bind, Sync.logger, Sync.emit.
  destruct (saveEventInfo_outcome api organizer event db)
    as (b & db1 & tr1 & -> & Hi & Ht & Hw & Hp).
  destruct b; simpl.
  - rewrite (saveItemsInfo_missing api organizer event catalog db1 Hf Hm). simpl.
    eexists _, _. split; [reflexivity|]. split; [done|]. split; [done|].
    simpl. rewrite !List.filter_app, Hw, Hp. done.
  - eexists _, _. split; [reflexivity|]. split; [done|]. split; [done|].
    simpl. rewrite !List.filter_app, Hw, Hp. done.
Qed.

Lemma missing_active_item_aborts_sync_witness :
  let api := Fixtures.apiWith "Devconnect"
               [{| dpi_id := 2; dpi_name_en := "VIP" |}] [Fixtures.paidOrder] in
  (In "1" (activeItemIDs Fixtures.eventA)
   /\ ~ In "1" (map (fun i => toString (dpi_id i))
                  [{| dpi_id := 2; dpi_name_en := "VIP" |}]))
  /\ Sync.saveItemsInfo api Fixtures.organizer Fixtures.eventA Fixtures.dbItems =
       (Sync.Returned false, Fixtures.dbItems,
        [ApiFetchItems "organizer-url" "token" "event-a";
         Log (LogErrorSyncingItems "organizer-url" "event-a")]).
Proof.
  intros api.
  assert (In "1" (activeItemIDs Fixtures.eventA)) as Hin by (left; reflexivity).
  assert (~ In "1" (map (fun i => toString (dpi_id i))
                      [{| dpi_id := 2; dpi_name_en := "VIP" |}])) as Hnot.
  { vm_compute. intros [Heq|[]]. discriminate Heq. }
  split; [split; [exact Hin|exact Hnot]|].
  apply (missing_active_item_aborts_sync api Fixtures.organizer Fixtures.eventA
           Fixtures.dbItems [{| dpi_id := 2; dpi_name_en := "VIP" |}] "1");
    [reflexivity | exact Hin | exact Hnot].
Defined.

Lemma NoDup_map_inj_In {A B} (f : A -> B) (l : list A) (a b : A) :
  NoDup (map f l) -> In a l -> In b l -> f a = f b -> a = b.
Proof.
  induction l as [|x l IH]; simpl; [done|].
  intros [Hx Hnd]%NoDup_cons [<-|Ha] [<-|Hb] Hab; try done.
  - exfalso. apply Hx. rewrite Hab. apply list_elem_of_In. by apply in_map.
  - exfalso. apply Hx. rewrite <-Hab. apply list_elem_of_In. by apply in_map.
  - by apply IH.
Qed.

(** Writing a row's own name back leaves the table as it is, ids being
    distinct. *)
Lemma rename_event_same_name (rows : list PretixEventInfo) existing :
  NoDup (map pei_id rows) -> In existing rows ->
  map (fun e =>
         if N.eqb (pei_id e) (pei_id existing)
         then {| pei_id := pei_id e;
                 pei_pretix_events_config_id := pei_pretix_events_config_id e;
                 pei_event_name := pei_event_name existing |}
         else e) rows = rows.
Proof.
  intros Hnd Hex. rewrite <-(map_id rows) at 2. apply map_ext_in.
  intros e He. destruct (N.eqb_spec (pei_id e) (pei_id existing)) as [Hid|]; [|done].
  rewrite <-(NoDup_map_inj_In pei_id rows e existing Hnd He Hex Hid).
  by destruct e.
Qed.

(** C4, as the code has it. [saveEventInfo] inserts an event record when none
    is stored for the event; when one is stored it always sends one update,
    addressed to that record and carrying the fetched name, whether or not
    the name differs from the stored one.  After the update every row with
    that id bears the fetched name; when the stored name already was the
    fetched one (ids being distinct), the update leaves the database as it
    was. *)
Theorem saveEventInfo_inserts_or_updates
    (api : Sync.IDevconnectPretixAPI)
    (organizer : DevconnectPretixOrganizerConfig)
    (event : DevconnectPretixEventConfig) (db : Sync.Db)
    (fetched : DevconnectPretixEvent) :
  Sync.fetchEvent api (orgURL organizer) (token organizer) (eventID event)
    = Some fetched ->
  let stored :=
    List.find (fun e => N.eqb (pei_pretix_events_config_id e) (ec_id event))
      (Sync.events_info db) in
  let calls := [ApiFetchEvent (orgURL organizer) (token organizer) (eventID event);
                SelectEventInfo (ec_id event)] in
  (stored = None ->
   exists db',
     Sync.saveEventInfo api organizer event db =
       (Sync.Returned true, db',
        calls ++ [InsertEventsInfo (ev_name_en fetched) (ec_id event)])
     /\ Sync.events_info db' =
          Sync.events_info db ++
          [{| pei_id := Sync.next_event_info_id db;
              pei_pretix_events_config_id := ec_id event;
              pei_event_name := ev_name_en fetched |}])
  /\ (forall existing, stored = Some existing ->
      exists db',
        Sync.saveEventInfo api organizer event db =
          (Sync.Returned true, db',
           calls ++ [UpdateEventsInfo (pei_id existing) (ev_name_en fetched)])
        /\ (forall row, In row (Sync.events_info db') ->
              pei_id row = pei_id existing ->
              pei_event_name row = ev_name_en fetched)
        /\ (pei_event_name existing = ev_name_en fetched ->
            NoDup (map pei_id (Sync.events_info db)) -> db' = db)).
Proof.
  intros Hf stored calls. subst stored calls.
  unfold Sync.saveEventInfo, Sync.try_catch, Sync.bind, Sync.await,
    Sync.fetchPretixEventInfo, Sync.query.
  rewrite Hf. split.
  - intros ->. simpl. by eexists.
  - intros existing Hst. rewrite Hst. simpl. eexists. split; [reflexivity|].
    split.
    + simpl. intros row (e & <- & He)%in_map_iff Hid.
      destruct (N.eqb_spec (pei_id e) (pei_id existing)); [done|].
      by destruct (N.eqb_spec (pei_id e) (pei_id existing)).
    + intros Hname Hnd. apply find_some in Hst as [Hin _].
      unfold Sync.set_events_info. rewrite <-Hname.
      rewrite (rename_event_same_name _ existing Hnd Hin). by destruct db.
Qed.

Lemma saveEventInfo_inserts_or_updates_witness :
  let api := Fixtures.apiWith "Devconnect" Fixtures.catalog [] in
  Sync.fetchEvent api "organizer-url" "token" "event-a"
    = Some {| ev_slug := "event-a"; ev_name_en := "Devconnect" |}
  /\ exists db',
       Sync.saveEventInfo api Fixtures.organizer Fixtures.eventA Fixtures.dbSynced
         = (Sync.Returned true, db',
            [ApiFetchEvent "organizer-url" "token" "event-a"; SelectEventInfo 1]
            ++ [UpdateEventsInfo 7 "Devconnect"])
       /\ db' = Fixtures.dbSynced.
Proof.
  intros api. split; [reflexivity|].
  destruct (saveEventInfo_inserts_or_updates api Fixtures.organizer
              Fixtures.eventA Fixtures.dbSynced
              {| ev_slug := "event-a"; ev_name_en := "Devconnect" |} eq_refl)
    as [_ Hupd].
  destruct (Hupd {| pei_id := 7; pei_pretix_events_config_id := 1;
                    pei_event_name := "Devconnect" |} eq_refl)
    as (db' & Heq & _ & Hsame).
  exists db'. split; [exact Heq|]. apply Hsame; [reflexivity|].
  apply (bool_decide_unpack _). vm_compute. exact I.
Defined.

(** C4, as the claim words it, fails: with the event stored under the very
    name Pretix returns, [saveEventInfo] still sends an update to the
    event-info table. *)
Lemma saveEventInfo_unchanged_name_still_updates :
  List.filter writes_event_info
    (Sync.saveEventInfo (Fixtures.apiWith "Devconnect" Fixtures.catalog [])
       Fixtures.organizer Fixtures.eventA Fixtures.dbSynced).2
  = [UpdateEventsInfo 7 "Devconnect"]
  /\ ~ no_write_when_name_unchanged
         (Fixtures.apiWith "Devconnect" Fixtures.catalog [])
         Fixtures.organizer Fixtures.eventA Fixtures.dbSynced.
Proof.
  split; [vm_compute; reflexivity|].
  intros Hclaim.
  specialize (Hclaim {| ev_slug := "event-a"; ev_name_en := "Devconnect" |}
                {| pei_id := 7; pei_pretix_events_config_id := 1;
                   pei_event_name := "Devconnect" |} eq_refl eq_refl eq_refl).
  vm_compute in Hclaim. discriminate Hclaim.
Qed.


(** C5, at a failing input.  With the same order (two positions, one key,
    two attendee names) the first run of [saveTickets] inserts both
    candidates; the second run, with the same orders and the same items,
    finds the row of the second candidate under the key, sees the first
    candidate differ from it and sends an update: the state reached by the
    first run is not a fixed point. *)
Theorem second_ticket_run_still_writes :
  let api := Fixtures.apiWith "Devconnect" Fixtures.catalog
               [Fixtures.twoSeats "Alice" "Bob"] in
  let first := Sync.saveTickets api Fixtures.organizer Fixtures.eventA
                 Fixtures.dbItems in
  let second := Sync.saveTickets api Fixtures.organizer Fixtures.eventA
                  first.1.2 in
  first.1.1 = Sync.Returned true
  /\ second.1.1 = Sync.Returned true
  /\ List.filter writes_ticket second.2 =
       [UpdateTicket {| email := "buyer@example.com"; full_name := "Alice";
                        devconnect_pretix_items_info_id := 10;
                        is_deleted := false |}]
  /\ map full_name (Sync.tickets first.1.2) = ["Alice"; "Bob"]
  /\ map full_name (Sync.tickets second.1.2) = ["Alice"; "Alice"].
Proof. intros api first second. repeat split; vm_compute; reflexivity. Qed.

(** ** The sync loop *)

Section Scheduler_facts.
Import Scheduler.

(** Once no cycle is in flight and no timer is armed, only
    [startSyncLoop] can start a cycle. *)
Lemma stop_quiescent s : quiescent s -> stop s = s.
Proof.
  intros [_ Har]. unfold stop, clearTimeout. rewrite Har.
  destruct s as [t a n f c]; simpl in *. subst a. by destruct t.
Qed.

Lemma quiescent_run s evs s' :
  quiescent s ->
  forallb (fun e => negb (is_start e)) evs = true ->
  run s evs = Some s' ->
  quiescent s' /\ cycles_started s' = cycles_started s.
Proof.
  revert s. induction evs as [|e evs IH]; intros s Hq Hns Hrun.
  - by injection Hrun as <-.
  - cbn [forallb] in Hns. apply andb_true_iff in Hns as [He Hns].
    cbn [run] in Hrun. destruct e; cbn [step is_start negb] in *.
    + done.
    + rewrite (stop_quiescent s Hq) in Hrun. by apply IH.
    + destruct Hq as [Hfl _]. by rewrite Hfl in Hrun.
    + destruct Hq as [_ Har]. by rewrite Har in Hrun.
Qed.

Lemma stop_between_cycles_quiescent s :
  between_cycles s -> quiescent (stop s).
Proof.
  intros [Hfl Har]. unfold quiescent, stop.
  destruct (timeout s) as [h|] eqn:Ht; simpl.
  - split; [done|]. apply filter_none. intros h' Hh'.
    apply Har in Hh'. injection Hh' as ->. by rewrite N.eqb_refl.
  - split; [done|]. destruct (armed s) as [|h l]; [done|].
    by specialize (Har h (or_introl eq_refl)).
Qed.

(** [stop()] called between two cycles does end the loop. *)
Lemma stop_between_cycles_is_final s after s' :
  between_cycles s ->
  forallb (fun e => negb (is_start e)) after = true ->
  run (stop s) after = Some s' ->
  cycles_started s' = cycles_started (stop s).
Proof.
  intros Hb Hns Hrun.
  by destruct (quiescent_run (stop s) after s'
                 (stop_between_cycles_quiescent s Hb) Hns Hrun).
Qed.
End Scheduler_facts.

(** [stop()] called once the first cycle has settled: the pending timer is
    cleared, it can no longer fire, and the loop has ended. *)
Example stop_after_first_cycle :
  let stopped := Scheduler.run Scheduler.init
                   [Scheduler.CallStartSyncLoop; Scheduler.CycleSettles;
                    Scheduler.CallStop] in
  (Scheduler.armed <$> stopped) = Some []
  /\ (Scheduler.in_flight <$> stopped) = Some 0
  /\ Scheduler.run Scheduler.init
       [Scheduler.CallStartSyncLoop; Scheduler.CycleSettles;
        Scheduler.CallStop; Scheduler.TimerFires 0] = None.
Proof. repeat split; reflexivity. Qed.

(** C9, at a failing input.  [stop()] is called while the first cycle is in
    flight: [this.timeout] is still undefined, so nothing is cleared.  When
    the cycle settles the closure arms a timer, and when that timer fires a
    second cycle starts although [startSyncLoop()] was never called again. *)
Theorem stop_during_cycle_does_not_end_loop :
  let stopped := Scheduler.run Scheduler.init
                   [Scheduler.CallStartSyncLoop; Scheduler.CallStop] in
  let later := Scheduler.run Scheduler.init
                 [Scheduler.CallStartSyncLoop; Scheduler.CallStop;
                  Scheduler.CycleSettles; Scheduler.TimerFires 0] in
  (Scheduler.cycles_started <$> stopped) = Some 1
  /\ (Scheduler.in_flight <$> stopped) = Some 1
  /\ (Scheduler.cycles_started <$> later) = Some 2
  /\ ~ Scheduler.stop_is_final.
Proof.
  intros stopped later. repeat split; try reflexivity.
  intros Hfinal.
  specialize (Hfinal [Scheduler.CallStartSyncLoop]
                [Scheduler.CycleSettles; Scheduler.TimerFires 0]
                _ _ eq_refl eq_refl eq_refl).
  discriminate Hfinal.
Qed.

(** ** The ticket phase in closed form *)

Section saveTickets_closed.
Import Sync.

Lemma for_of_writes {A} (l : list A) (body : A -> M unit)
    (write : A -> Db -> Db) (tr : A -> list Effect) db :
  (forall x db, body x db = (Returned tt, write x db, tr x)) ->
  for_of l body db =
  (Returned tt, foldl (fun db x => write x db) db l, flat_map tr l).
Proof.
  intros Hbody. revert db. induction l as [|x l IH]; intros db; [done|].
  cbn [for_of]. unfold bind. rewrite Hbody, IH. done.
Qed.

Lemma foldl_set_tickets {A}
    (f : A -> list DevconnectPretixTicket -> list DevconnectPretixTicket)
    (l : list A) db :
  foldl (fun db x => set_tickets (f x) db) db l =
  set_tickets (fun rows => foldl (fun rows x => f x rows) rows l) db.
Proof.
  revert db. induction l as [|x l IH]; intros db; simpl.
  - by destruct db.
  - by rewrite IH.
Qed.

Lemma filter_writes_ticket_logs (logs : list LogMsg) :
  List.filter writes_ticket (map Log logs) = [].
Proof. apply filter_none. by intros e (m & <- & _)%in_map_iff. Qed.

Lemma filter_writes_ticket_loop (mk : DevconnectPretixTicket -> Effect)
    (line : DevconnectPretixTicket -> LogMsg) (l : list DevconnectPretixTicket) :
  (forall t, writes_ticket (mk t) = true) ->
  List.filter writes_ticket (flat_map (fun t => [Log (line t); mk t]) l)
  = map mk l.
Proof.
  intros Hmk. induction l as [|t l IH]; [done|]. simpl. by rewrite Hmk, IH.
Qed.

Variable api : IDevconnectPretixAPI.
Variable organizer : DevconnectPretixOrganizerConfig.
Variable event : DevconnectPretixEventConfig.

(** A run of [saveTickets] whose orders were fetched: it returns [true],
    rewrites the ticket table by [applyTicketChanges] and sends exactly
    the inserts, updates and soft deletes of the change set. *)
Lemma saveTickets_closed_form orders db :
  fetchOrders api (orgURL organizer) (token organizer) (eventID event)
    = Some orders ->
  let projected := candidates db (ec_id event) orders in
  let existing := storedTickets db (ec_id event) in
  exists tr,
    saveTickets api organizer event db =
      (Returned true,
       set_tickets
         (applyTicketChanges (newTicketsOf existing projected)
            (updatedTicketsOf existing projected)
            (removedTicketsOf existing projected)) db,
       tr)
    /\ List.filter writes_ticket tr =
         map InsertTicket (newTicketsOf existing projected)
         ++ map UpdateTicket (updatedTicketsOf existing projected)
         ++ map SoftDeleteTicket (removedTicketsOf existing projected).
Proof.
  intros Hf projected existing.
  unfold saveTickets, try_catch.
  unfold bind at 1. unfold await. rewrite Hf.
  unfold bind at 1. unfold fetchPretixItemsInfoByEvent at 1, query at 1.
  unfold bind at 1. unfold projectOrders at 1.
  unfold bind at 1. unfold fetchDevconnectPretixTicketsByEvent at 1, query at 1.
  fold (eventItems db (ec_id event)).
  fold (candidates db (ec_id event) orders). fold projected.
  fold (storedTickets db (ec_id event)). fold existing.
  unfold bind at 1. unfold logger at 1, emit at 1.
  unfold bind at 1.
  rewrite (for_of_writes (newTicketsOf existing projected) _
             (fun t => set_tickets (fun rows => rows ++ [t]))
             (fun t => [Log (LogInsertingTicket t); InsertTicket t]))
    by done.
  unfold bind at 1. unfold logger at 1, emit at 1.
  unfold bind at 1.
  rewrite (for_of_writes (updatedTicketsOf existing projected) _
             (fun t => set_tickets (map (setFullNameWhere t)))
             (fun t => [Log (LogUpdatingTicket
                               (ChangeSet.oldOf getEmailAndItemKey
                                  getEmailAndItemKey existing t) t);
                        UpdateTicket t]))
    by done.
  unfold bind at 1. unfold logger at 1, emit at 1.
  unfold bind at 1.
  rewrite (for_of_writes (removedTicketsOf existing projected) _
             (fun t => set_tickets (map (setDeletedWhere t)))
             (fun t => [Log (LogDeletingTicket t); SoftDeleteTicket t]))
    by done.
  unfold ret. eexists. split.
  - rewrite !foldl_set_tickets. unfold applyTicketChanges, set_tickets.
    simpl. reflexivity.
  - simpl. rewrite !List.filter_app. simpl.
    rewrite filter_writes_ticket_logs, !List.filter_app. simpl.
    rewrite !List.filter_app. simpl. rewrite !List.filter_app. simpl.
    rewrite !filter_writes_ticket_loop by done.
    by rewrite !app_nil_r.
Qed.
End saveTickets_closed.

(** ** Ticket rows under the changes of one run *)

Section ticket_rows.
Import Sync.
Implicit Types (r t u : DevconnectPretixTicket).
Implicit Types (upd rem rows : list DevconnectPretixTicket).

Lemma same_key_true a b :
  same_key a b = true <-> getEmailAndItemKey a = getEmailAndItemKey b.
Proof.
  unfold same_key, getEmailAndItemKey.
  rewrite andb_true_iff, String.eqb_eq, N.eqb_eq. split.
  - by intros [-> ->].
  - by intros [= -> ->].
Qed.

Lemma same_key_false a b :
  same_key a b = false <-> getEmailAndItemKey a <> getEmailAndItemKey b.
Proof. by rewrite <-same_key_true, not_true_iff_false. Qed.

Lemma setFullNameWhere_key t r :
  getEmailAndItemKey (setFullNameWhere t r) = getEmailAndItemKey r.
Proof. unfold setFullNameWhere. by destruct (same_key r t). Qed.

Lemma setFullNameWhere_deleted t r :
  is_deleted (setFullNameWhere t r) = is_deleted r.
Proof. unfold setFullNameWhere. by destruct (same_key r t). Qed.

Lemma setDeletedWhere_key t r :
  getEmailAndItemKey (setDeletedWhere t r) = getEmailAndItemKey r.
Proof. unfold setDeletedWhere. by destruct (same_key r t). Qed.

Lemma setDeletedWhere_full_name t r :
  full_name (setDeletedWhere t r) = full_name r.
Proof. unfold setDeletedWhere. by destruct (same_key r t). Qed.

Lemma setDeletedWhere_deleted t r :
  is_deleted (setDeletedWhere t r) = is_deleted r || same_key r t.
Proof.
  unfold setDeletedWhere. destruct (same_key r t); simpl.
  - by rewrite orb_true_r.
  - by rewrite orb_false_r.
Qed.

Lemma same_key_ext a a' b :
  getEmailAndItemKey a = getEmailAndItemKey a' -> same_key a b = same_key a' b.
Proof.
  intros Hk. destruct (same_key a' b) eqn:Hs.
  - apply same_key_true. rewrite Hk. by apply same_key_true.
  - apply same_key_false. rewrite Hk. by apply same_key_false.
Qed.

Lemma renameBy_key upd r :
  getEmailAndItemKey (renameBy upd r) = getEmailAndItemKey r.
Proof.
  unfold renameBy. revert r. induction upd as [|u upd IH]; intros r; [done|].
  simpl. by rewrite IH, setFullNameWhere_key.
Qed.

Lemma renameBy_deleted upd r : is_deleted (renameBy upd r) = is_deleted r.
Proof.
  unfold renameBy. revert r. induction upd as [|u upd IH]; intros r; [done|].
  simpl. by rewrite IH, setFullNameWhere_deleted.
Qed.

(** No update addresses the row: it is unchanged. *)
Lemma renameBy_untouched upd r :
  (forall u, In u upd -> same_key r u = false) -> renameBy upd r = r.
Proof.
  unfold renameBy. revert r. induction upd as [|u upd IH]; intros r Hno; [done|].
  simpl. assert (setFullNameWhere u r = r) as ->.
  { unfold setFullNameWhere. by rewrite (Hno u (or_introl eq_refl)). }
  apply IH. intros u' Hu'. apply Hno. by right.
Qed.

(** Some update addresses the row and all that do carry the name [n]. *)
Lemma renameBy_full_name upd r n :
  (exists u, In u upd /\ same_key r u = true) ->
  (forall u, In u upd -> same_key r u = true -> full_name u = n) ->
  full_name (renameBy upd r) = n.
Proof.
  unfold renameBy. revert r.
  induction upd as [|u upd IH]; intros r [u0 [Hin Hk]] Hall; [done|]. simpl.
  destruct (existsb (same_key r) upd) eqn:Hex.
  - apply existsb_exists in Hex as Hlater. apply IH.
    + destruct Hlater as (u' & Hu' & Hku'). exists u'. split; [done|].
      rewrite <-Hku'. apply same_key_ext, setFullNameWhere_key.
    + intros u' Hu' Hku'. apply Hall; [by right|].
      rewrite <-Hku'. symmetry. apply same_key_ext, setFullNameWhere_key.
  - fold (renameBy upd (setFullNameWhere u r)). rewrite renameBy_untouched.
    + destruct Hin as [->|Hin].
      2:{ apply not_true_iff_false in Hex. exfalso.
          apply Hex, existsb_exists. eauto. }
      unfold setFullNameWhere. rewrite Hk. simpl. apply Hall; [by left|done].
    + intros u' Hu'. rewrite (same_key_ext _ r) by apply setFullNameWhere_key.
      apply not_true_iff_false. intros Hku'.
      apply not_true_iff_false in Hex. apply Hex, existsb_exists. eauto.
Qed.

Lemma deleteBy_key rem r :
  getEmailAndItemKey (deleteBy rem r) = getEmailAndItemKey r.
Proof.
  unfold deleteBy. revert r. induction rem as [|u rem IH]; intros r; [done|].
  simpl. by rewrite IH, setDeletedWhere_key.
Qed.

Lemma deleteBy_full_name rem r : full_name (deleteBy rem r) = full_name r.
Proof.
  unfold deleteBy. revert r. induction rem as [|u rem IH]; intros r; [done|].
  simpl. by rewrite IH, setDeletedWhere_full_name.
Qed.

Lemma existsb_pointwise {A} (f g : A -> bool) (l : list A) :
  (forall x, f x = g x) -> existsb f l = existsb g l.
Proof. intros Hfg. induction l as [|x l IH]; simpl; [done|]. by rewrite Hfg, IH. Qed.

Lemma deleteBy_deleted rem r :
  is_deleted (deleteBy rem r) = is_deleted r || existsb (same_key r) rem.
Proof.
  unfold deleteBy. revert r. induction rem as [|u rem IH]; intros r; simpl.
  - by rewrite orb_false_r.
  - rewrite IH, setDeletedWhere_deleted, <-orb_assoc. do 2 f_equal.
    apply existsb_pointwise. intros u'. apply same_key_ext, setDeletedWhere_key.
Qed.

Lemma rowAfter_key upd rem r :
  getEmailAndItemKey (rowAfter upd rem r) = getEmailAndItemKey r.
Proof. unfold rowAfter. by rewrite deleteBy_key, renameBy_key. Qed.

Lemma rowAfter_deleted upd rem r :
  is_deleted (rowAfter upd rem r) = is_deleted r || existsb (same_key r) rem.
Proof.
  unfold rowAfter. rewrite deleteBy_deleted, renameBy_deleted. f_equal.
  apply existsb_pointwise. intros u. apply same_key_ext, renameBy_key.
Qed.

Lemma rowAfter_full_name upd rem r :
  full_name (rowAfter upd rem r) = full_name (renameBy upd r).
Proof. unfold rowAfter. by rewrite deleteBy_full_name. Qed.

Lemma foldl_snoc_all {A} (l k : list A) :
  foldl (fun acc x => acc ++ [x]) l k = l ++ k.
Proof.
  revert l. induction k as [|x k IH]; intros l; simpl.
  - by rewrite app_nil_r.
  - by rewrite IH, <-app_assoc.
Qed.

Lemma foldl_map_rows {A B} (f : B -> A -> A) (l : list B) (xs : list A) :
  foldl (fun acc b => map (f b) acc) xs l
  = map (fun a => foldl (fun a b => f b a) a l) xs.
Proof.
  revert xs. induction l as [|b l IH]; intros xs; simpl.
  - by rewrite map_id.
  - by rewrite IH, map_map.
Qed.

(** The three loops act row by row on the table extended by the inserts. *)
Lemma applyTicketChanges_rows new upd rem rows :
  applyTicketChanges new upd rem rows = map (rowAfter upd rem) (rows ++ new).
Proof.
  unfold applyTicketChanges.
  by rewrite foldl_snoc_all, !foldl_map_rows, map_map.
Qed.

Lemma ticket_of_event_ext db cfg r r' :
  devconnect_pretix_items_info_id r = devconnect_pretix_items_info_id r' ->
  ticket_of_event db cfg r = ticket_of_event db cfg r'.
Proof. intros Hid. unfold ticket_of_event. by rewrite Hid. Qed.

Lemma key_item_id r r' :
  getEmailAndItemKey r = getEmailAndItemKey r' ->
  devconnect_pretix_items_info_id r = devconnect_pretix_items_info_id r'.
Proof. by intros [= _ ->]. Qed.

(** A candidate belongs to the event it was projected for. *)
Lemma candidate_of_event db cfg orders t :
  In t (candidates db cfg orders) ->
  is_deleted t = false /\ ticket_of_event db cfg t = true.
Proof.
  intros (Hd & _ & info & Hinfo & Hid)%projected_ticket_shape.
  split; [done|]. apply existsb_exists. exists info.
  apply filter_In in Hinfo as [Hin Hev]. split; [done|].
  by rewrite Hid, N.eqb_refl, Hev.
Qed.
End ticket_rows.

Lemma filter_map_comm {A B} (p : B -> bool) (g : A -> B) (l : list A) :
  List.filter p (map g l) = map g (List.filter (fun x => p (g x)) l).
Proof.
  induction l as [|x l IH]; [done|]. simpl. destruct (p (g x)); simpl; by rewrite IH.
Qed.

Lemma NoDup_map_filter_impl {A B} (f : A -> B) (p q : A -> bool) (l : list A) :
  (forall x, p x = true -> q x = true) ->
  NoDup (map f (List.filter q l)) -> NoDup (map f (List.filter p l)).
Proof.
  intros Hpq. induction l as [|x l IH]; [done|]. simpl.
  destruct (p x) eqn:Hp.
  - rewrite (Hpq x Hp). simpl. intros [Hx Hnd]%NoDup_cons. apply NoDup_cons.
    split; [|by apply IH]. intros Hin. apply Hx.
    apply list_elem_of_fmap in Hin as (y & -> & Hy). apply list_elem_of_fmap.
    exists y. split; [done|]. apply list_elem_of_In.
    apply list_elem_of_In, filter_In in Hy as [Hy Hpy].
    apply filter_In. split; [done|by apply Hpq].
  - destruct (q x); simpl; [|done]. intros [_ Hnd]%NoDup_cons. by apply IH.
Qed.

Lemma NoDup_map_filter {A B} (f : A -> B) (p : A -> bool) (l : list A) :
  NoDup (map f l) -> NoDup (map f (List.filter p l)).
Proof.
  intros Hnd. apply (NoDup_map_filter_impl f p (fun _ => true)); [done|].
  assert (List.filter (fun _ : A => true) l = l) as ->; [|done].
  induction l as [|x l IH]; simpl; [done|]. rewrite IH; [done|].
  by apply NoDup_cons in Hnd as [_ ?].
Qed.

Lemma filter_all {A} (p : A -> bool) (l : list A) :
  (forall x, In x l -> p x = true) -> List.filter p l = l.
Proof.
  induction l as [|x l IH]; intros Hp; [done|]. simpl.
  rewrite (Hp x (or_introl eq_refl)). f_equal. apply IH. intros y Hy. apply Hp.
  by right.
Qed.

(** Membership in the three lists of a change set. *)
Section ChangeSet_membership.
Context {K : Type} `{Countable K} {E D : Type}.
Variable keyE : E -> K.
Variable keyD : D -> K.
Variable different : E -> D -> bool.

Lemma In_toInsert existing desired d :
  In d (ChangeSet.toInsert keyE keyD existing desired)
  <-> In d desired /\ keyD d ∉ map keyE existing.
Proof.
  unfold ChangeSet.toInsert. rewrite filter_In, existingByKey_has.
  by rewrite negb_true_iff, bool_decide_eq_false.
Qed.

Lemma In_toRemove existing desired e :
  In e (ChangeSet.toRemove keyE keyD existing desired)
  <-> In e existing /\ keyE e ∉ map keyD desired.
Proof.
  unfold ChangeSet.toRemove. rewrite filter_In, desiredByKey_has.
  by rewrite negb_true_iff, bool_decide_eq_false.
Qed.

Lemma In_toUpdate existing desired d :
  In d (ChangeSet.toUpdate keyE keyD different existing desired)
  <-> In d desired
      /\ exists old, ChangeSet.oldOf keyE keyD existing d = Some old
                     /\ different old d = true.
Proof.
  rewrite toUpdate_one_filter, filter_In.
  destruct (ChangeSet.oldOf keyE keyD existing d) as [old|].
  - split; [intros [? ?]; eauto|]. by intros [? (old' & [= <-] & ?)].
  - split; [by intros [? ?]|]. by intros [? (old' & ? & ?)].
Qed.
End ChangeSet_membership.

(** ** The ticket phase when the candidates have distinct keys *)

Lemma In_storedTickets db cfg r :
  In r (Sync.storedTickets db cfg)
  <-> In r (Sync.tickets db) /\ is_deleted r = false
      /\ Sync.ticket_of_event db cfg r = true.
Proof.
  unfold Sync.storedTickets. by rewrite filter_In, andb_true_iff, negb_true_iff.
Qed.

Lemma ticket_of_event_set_tickets f db cfg r :
  Sync.ticket_of_event (Sync.set_tickets f db) cfg r
  = Sync.ticket_of_event db cfg r.
Proof. done. Qed.

Section ticket_phase_distinct.
Import Sync.
Variable db : Db.
Variable cfg : N.
Variable orders : list DevconnectPretixOrder.

Local Abbreviation key := getEmailAndItemKey.
Local Abbreviation P := (candidates db cfg orders).
Local Abbreviation E0 := (storedTickets db cfg).
Local Abbreviation new := (newTicketsOf E0 P).
Local Abbreviation upd := (updatedTicketsOf E0 P).
Local Abbreviation rem := (removedTicketsOf E0 P).
Local Abbreviation db1 := (set_tickets (applyTicketChanges new upd rem) db).

Hypothesis candidates_distinct : NoDup (map key P).
Hypothesis invariant : ticketInvariant db.

Lemma stored_In r :
  In r E0 <-> In r (tickets db) /\ is_deleted r = false
              /\ ticket_of_event db cfg r = true.
Proof. apply In_storedTickets. Qed.

Lemma stored_distinct : NoDup (map key E0).
Proof.
  unfold storedTickets.
  apply (NoDup_map_filter_impl key _ (fun t => negb (is_deleted t)));
    [|exact invariant].
  by intros x [? _]%andb_true_iff.
Qed.

(** A row whose key is a candidate's key is not soft-deleted. *)
Lemma candidate_key_kept r :
  key r ∈ map key P -> existsb (same_key r) rem = false.
Proof.
  intros Hk. apply not_true_iff_false.
  intros (u & Hu & Hs)%existsb_exists.
  apply In_toRemove in Hu as [_ Hnot]. apply Hnot.
  apply same_key_true in Hs. by rewrite <-Hs.
Qed.

Lemma In_stored_after r1 :
  In r1 (storedTickets db1 cfg) <->
  exists r', In r' (tickets db ++ new) /\ r1 = rowAfter upd rem r'
             /\ is_deleted r' = false
             /\ existsb (same_key r') rem = false
             /\ ticket_of_event db cfg r' = true.
Proof.
  rewrite In_storedTickets, ticket_of_event_set_tickets.
  cbn [tickets set_tickets].
  rewrite applyTicketChanges_rows, in_map_iff. split.
  - intros [(r' & <- & Hin) [Hd Hev]]. exists r'.
    rewrite rowAfter_deleted in Hd. apply orb_false_iff in Hd as [? ?].
    repeat split; try done.
    rewrite <-Hev. apply ticket_of_event_ext. symmetry.
    apply key_item_id, rowAfter_key.
  - intros (r' & Hin & -> & Hd & Hrem & Hev). split; [eauto|].
    rewrite rowAfter_deleted, Hd, Hrem. split; [done|].
    rewrite <-Hev. apply ticket_of_event_ext, key_item_id, rowAfter_key.
Qed.

(** After the run every candidate has a stored row. *)
Lemma candidate_stored_after t :
  In t P -> key t ∈ map key (storedTickets db1 cfg).
Proof.
  intros Ht.
  assert (key t ∈ map key P) as HtP.
  { apply list_elem_of_fmap. exists t. by rewrite list_elem_of_In. }
  destruct (decide (key t ∈ map key E0)) as [Hin|Hnot].
  - apply list_elem_of_fmap in Hin as (r0 & Hk & Hr0).
    apply list_elem_of_In, stored_In in Hr0 as (Hr0 & Hd & Hev).
    apply list_elem_of_fmap. exists (rowAfter upd rem r0).
    split; [by rewrite rowAfter_key|].
    apply list_elem_of_In, In_stored_after. exists r0.
    split; [apply in_or_app; by left|]. repeat split; try done.
    apply candidate_key_kept. by rewrite <-Hk.
  - apply list_elem_of_fmap. exists (rowAfter upd rem t).
    split; [by rewrite rowAfter_key|].
    apply list_elem_of_In, In_stored_after. exists t.
    destruct (candidate_of_event db cfg orders t Ht) as [Hd Hev].
    split; [apply in_or_app; right; by apply In_toInsert|].
    repeat split; try done. by apply candidate_key_kept.
Qed.

(** After the run every stored row has a candidate. *)
Lemma stored_after_candidate r1 :
  In r1 (storedTickets db1 cfg) -> key r1 ∈ map key P.
Proof.
  intros (r' & Hin & -> & Hd & Hrem & Hev)%In_stored_after.
  rewrite rowAfter_key. apply in_app_or in Hin as [Hin|Hin].
  - destruct (decide (key r' ∈ map key P)) as [|Hnot]; [done|].
    exfalso. apply not_true_iff_false in Hrem. apply Hrem.
    apply existsb_exists. exists r'. split; [|by apply same_key_true].
    apply In_toRemove. split; [by apply stored_In|done].
  - apply In_toInsert in Hin as [Hin _].
    apply list_elem_of_fmap. exists r'. by rewrite list_elem_of_In.
Qed.

Lemma candidate_unique t u : In t P -> In u P -> key t = key u -> t = u.
Proof. intros. by apply (NoDup_map_inj_In key P). Qed.

(** After the run a stored row agrees with the candidate of its key. *)
Lemma stored_after_agrees t r1 :
  In t P -> In r1 (storedTickets db1 cfg) -> key r1 = key t ->
  pretixTicketsDifferent r1 t = false.
Proof.
  intros Ht (r' & Hin & -> & Hd & Hrem & Hev)%In_stored_after Hk.
  rewrite rowAfter_key in Hk.
  unfold pretixTicketsDifferent. apply orb_false_iff. split.
  2:{ apply negb_false_iff, N.eqb_eq.
      rewrite <-(key_item_id _ _ Hk). apply key_item_id, rowAfter_key. }
  apply negb_false_iff, String.eqb_eq. rewrite rowAfter_full_name.
  assert (forall u, In u upd -> same_key r' u = true -> u = t) as Honly.
  { intros u Hu Hs. apply In_toUpdate in Hu as [Hu _].
    apply candidate_unique; [done|done|].
    apply same_key_true in Hs. by rewrite <-Hs. }
  destruct (decide (t ∈ upd)) as [Htu%list_elem_of_In|Htu].
  - apply renameBy_full_name.
    + exists t. split; [done|by apply same_key_true].
    + intros u Hu Hs. by rewrite (Honly u Hu Hs).
  - rewrite renameBy_untouched.
    2:{ intros u Hu. apply not_true_iff_false. intros Hs.
        apply Htu, list_elem_of_In. by rewrite <-(Honly u Hu Hs). }
    apply in_app_or in Hin as [Hin|Hin].
    + assert (In r' E0) as Hr' by by apply stored_In.
      pose proof (existingByKey_lookup_NoDup key E0 r' stored_distinct Hr')
        as Hl.
      rewrite Hk in Hl.
      destruct (pretixTicketsDifferent r' t) eqn:Hdiff.
      * exfalso. apply Htu, list_elem_of_In, In_toUpdate.
        split; [done|]. by exists r'.
      * unfold pretixTicketsDifferent in Hdiff.
        apply orb_false_iff in Hdiff as [Hn _].
        by apply negb_false_iff, String.eqb_eq in Hn.
    + apply In_toInsert in Hin as [Hin _].
      by rewrite (candidate_unique r' t Hin Ht Hk).
Qed.

(** The invariant holds for the table extended by the new tickets, hence
    after the updates and the soft deletes as well. *)
Lemma invariant_after : ticketInvariant db1.
Proof.
  unfold ticketInvariant, nonDeletedKeys. cbn [tickets set_tickets].
  rewrite applyTicketChanges_rows, filter_map_comm, map_map.
  rewrite (map_ext _ key) by (intros; apply rowAfter_key).
  apply (NoDup_map_filter_impl key _ (fun t => negb (is_deleted t))).
  { intros x. rewrite rowAfter_deleted, !negb_true_iff.
    by intros [? _]%orb_false_iff. }
  rewrite List.filter_app, map_app.
  rewrite (filter_all _ new).
  2:{ intros t [Ht _]%In_toInsert.
      by rewrite (proj1 (candidate_of_event db cfg orders t Ht)). }
  apply NoDup_app. split; [exact invariant|]. split.
  - intros k (r & -> & Hr)%list_elem_of_fmap (t & Hk & Ht)%list_elem_of_fmap.
    apply list_elem_of_In, filter_In in Hr as [Hr Hd].
    apply list_elem_of_In, In_toInsert in Ht as [Ht Hnot].
    apply Hnot. rewrite <-Hk. apply list_elem_of_fmap. exists r.
    split; [done|]. apply list_elem_of_In, stored_In.
    split; [done|]. split; [by apply negb_true_iff|].
    rewrite (ticket_of_event_ext db cfg r t) by by apply key_item_id.
    apply (candidate_of_event db cfg orders t Ht).
  - by apply NoDup_map_filter.
Qed.

(** A second run on the same candidates finds nothing to do. *)
Lemma change_set_empty_after :
  newTicketsOf (storedTickets db1 cfg) P = []
  /\ updatedTicketsOf (storedTickets db1 cfg) P = []
  /\ removedTicketsOf (storedTickets db1 cfg) P = [].
Proof.
  split; [|split].
  - apply filter_none. intros t Ht. apply negb_false_iff.
    rewrite existingByKey_has. apply bool_decide_eq_true_2.
    by apply candidate_stored_after.
  - unfold updatedTicketsOf at 1. rewrite toUpdate_one_filter.
    apply filter_none. intros t Ht. cbv beta.
    destruct (ChangeSet.oldOf key key (storedTickets db1 cfg) t)
      as [old|] eqn:Hold; [|done].
    apply existingByKey_lookup_In in Hold as [Hin Hk].
    by apply stored_after_agrees.
  - apply filter_none. intros r Hr. apply negb_false_iff.
    rewrite desiredByKey_has. apply bool_decide_eq_true_2.
    by apply stored_after_candidate.
Qed.
End ticket_phase_distinct.

(** X21. With distinct candidate keys the ticket phase keeps the invariant:
    when the tickets projected for the event have pairwise distinct
    (email, item) keys and the stored tickets satisfy the invariant,
    [saveTickets] succeeds and the stored tickets satisfy it again. *)
Theorem saveTickets_keeps_invariant_when_candidates_distinct
    (api : Sync.IDevconnectPretixAPI)
    (organizer : DevconnectPretixOrganizerConfig)
    (event : DevconnectPretixEventConfig)
    (orders : list DevconnectPretixOrder) (db : Sync.Db) :
  Sync.fetchOrders api (orgURL organizer) (token organizer) (eventID event)
    = Some orders ->
  NoDup (map Sync.getEmailAndItemKey (Sync.candidates db (ec_id event) orders)) ->
  Sync.ticketInvariant db ->
  exists db' tr,
    Sync.saveTickets api organizer event db = (Sync.Returned true, db', tr)
    /\ Sync.ticketInvariant db'.
Proof.
  intros Hf Hnd Hinv.
  destruct (saveTickets_closed_form api organizer event orders db Hf)
    as (tr & Heq & _).
  eexists _, tr. split; [exact Heq|]. by apply invariant_after.
Qed.

(** X22. With distinct candidate keys a second run of the ticket phase on
    the same orders writes nothing and leaves the database as the first run
    left it. *)
Theorem saveTickets_second_run_idle_when_candidates_distinct
    (api : Sync.IDevconnectPretixAPI)
    (organizer : DevconnectPretixOrganizerConfig)
    (event : DevconnectPretixEventConfig)
    (orders : list DevconnectPretixOrder) (db : Sync.Db) :
  Sync.fetchOrders api (orgURL organizer) (token organizer) (eventID event)
    = Some orders ->
  NoDup (map Sync.getEmailAndItemKey (Sync.candidates db (ec_id event) orders)) ->
  Sync.ticketInvariant db ->
  exists db1 tr1 tr2,
    Sync.saveTickets api organizer event db = (Sync.Returned true, db1, tr1)
    /\ Sync.saveTickets api organizer event db1 = (Sync.Returned true, db1, tr2)
    /\ List.filter writes_ticket tr2 = [].
Proof.
  intros Hf Hnd Hinv.
  destruct (saveTickets_closed_form api organizer event orders db Hf)
    as (tr1 & Heq1 & _).
  match type of Heq1 with
  | _ = (_, ?d, _) =>
      destruct (saveTickets_closed_form api organizer event orders d Hf)
        as (tr2 & Heq2 & Hw2)
  end.
  change (Sync.candidates (Sync.set_tickets _ db) (ec_id event) orders)
    with (Sync.candidates db (ec_id event) orders) in *.
  destruct (change_set_empty_after db (ec_id event) orders Hnd Hinv)
    as (Hnew & Hupd & Hrem).
  rewrite Hnew, Hupd, Hrem in Heq2, Hw2.
  eexists _, tr1, tr2. split; [exact Heq1|]. split; [exact Heq2|exact Hw2].
Qed.

(** The scenario of the specification: event A tracks item 1, the catalog
    names it "GA", and an order has one paid position on item 1 for
    "X@Y.com".  After one cycle the item row is named "GA" and the ticket row
    has email "x@y.com" and is not deleted; when the next cycle's orders no
    longer hold the position, the row is kept with its flag set. *)
Example sync_scenario :
  let order := {| ord_code := "ABC"; ord_status := "p";
                  ord_email := "buyer@example.com";
                  ord_positions := [Fixtures.withEmail] |} in
  let catalog := [{| dpi_id := 1; dpi_name_en := "GA" |}] in
  let empty := {| Sync.events_info := []; Sync.items_info := [];
                  Sync.tickets := []; Sync.next_event_info_id := 0;
                  Sync.next_item_info_id := 0 |} in
  let first := Sync.syncAllPretixForOrganizerAndEvent
                 (Fixtures.apiWith "Devconnect" catalog [order])
                 Fixtures.organizer Fixtures.eventA empty in
  let second := Sync.syncAllPretixForOrganizerAndEvent
                  (Fixtures.apiWith "Devconnect" catalog [])
                  Fixtures.organizer Fixtures.eventA first.1.2 in
  map pii_item_name (Sync.items_info first.1.2) = ["GA"]
  /\ Sync.tickets first.1.2 =
       [{| email := "x@y.com"; full_name := "Alice";
           devconnect_pretix_items_info_id := 0; is_deleted := false |}]
  /\ Sync.tickets second.1.2 =
       [{| email := "x@y.com"; full_name := "Alice";
           devconnect_pretix_items_info_id := 0; is_deleted := true |}].
Proof. repeat split; vm_compute; reflexivity. Qed.

(** Two stored rows under one key make the update list depend on their
    order: the [Map] keeps the later row. *)
Example toUpdate_follows_last_row_of_a_key :
  let stale := {| pii_id := 1; pii_item_id := "1"; pii_events_info_id := 1;
                  pii_item_name := "v1" |} in
  let fresh := {| pii_id := 2; pii_item_id := "1"; pii_events_info_id := 1;
                  pii_item_name := "v2" |} in
  Sync.itemsToUpdate [stale; fresh] [Fixtures.itemA2] = []
  /\ Sync.itemsToUpdate [fresh; stale] [Fixtures.itemA2] = [Fixtures.itemA2].
Proof. split; vm_compute; reflexivity. Qed.

(** * More of the service *)

(** ** What a computation may do *)

Section Laws_facts.
Import Sync Laws.
Context {A B C : Type}.
Implicit Types (P : Effect -> bool) (f : Db -> C).

Lemma run_shape (m : M A) db : m db = ((m db).1.1, (m db).1.2, (m db).2).
Proof. by destruct (m db) as [[? ?] ?]. Qed.

Lemma returns_ret (a : A) : returns (ret a).
Proof. intros db. by eexists _, _, _. Qed.

Lemma returns_bind (m : M A) (k : A -> M B) :
  returns m -> (forall a, returns (k a)) -> returns (bind m k).
Proof.
  intros Hm Hk db. unfold bind. destruct (Hm db) as (a & db1 & t1 & ->).
  destruct (Hk a db1) as (b & db2 & t2 & ->). by eexists _, _, _.
Qed.

(** Whatever the body does, a handler that returns makes the whole
    [try]/[catch] return. *)
Lemma returns_try_catch (body : M A) (handler : string -> M A) :
  (forall e, returns (handler e)) -> returns (try_catch body handler).
Proof.
  intros Hh db. unfold try_catch. destruct (body db) as [[[a|e] db1] t1].
  - by eexists _, _, _.
  - destruct (Hh e db1) as (a & db2 & t2 & ->). by eexists _, _, _.
Qed.

Lemma returns_emit e : returns (emit e).
Proof. intros db. by eexists _, _, _. Qed.

Lemma emits_ret P (a : A) : emits P (ret a).
Proof. by intros db. Qed.

Lemma emits_throw P msg : emits P (@throw A msg).
Proof. by intros db. Qed.

Lemma emits_bind P (m : M A) (k : A -> M B) :
  emits P m -> (forall a, emits P (k a)) -> emits P (bind m k).
Proof.
  intros Hm Hk db. unfold bind. specialize (Hm db).
  destruct (m db) as [[[a|e] db1] t1]; simpl in *; [|done].
  specialize (Hk a db1). destruct (k a db1) as [[r db2] t2]. simpl in *.
  by rewrite forallb_app, Hm, Hk.
Qed.

Lemma emits_try_catch P (body : M A) (handler : string -> M A) :
  emits P body -> (forall e, emits P (handler e)) ->
  emits P (try_catch body handler).
Proof.
  intros Hb Hh db. unfold try_catch. specialize (Hb db).
  destruct (body db) as [[[a|e] db1] t1]; simpl in *; [done|].
  specialize (Hh e db1). destruct (handler e db1) as [[r db2] t2]. simpl in *.
  by rewrite forallb_app, Hb, Hh.
Qed.

Lemma emits_emit P e : P e = true -> emits P (emit e).
Proof. intros He db. simpl. by rewrite He. Qed.

Lemma emits_query P e (read : Db -> A) (write : Db -> Db) :
  P e = true -> emits P (query e read write).
Proof. intros He db. simpl. by rewrite He. Qed.

Lemma emits_await P e (r : option A) : P e = true -> emits P (await e r).
Proof. intros He db. unfold await. destruct r; simpl; by rewrite He. Qed.

Lemma emits_for_of P (l : list A) (body : A -> M unit) :
  (forall x, emits P (body x)) -> emits P (for_of l body).
Proof.
  intros Hb. induction l as [|x l IH]; [by intros db|].
  cbn [for_of]. unfold emits, bind. intros db. specialize (Hb x db).
  destruct (body x db) as [[[[]|e] db1] t1]; simpl in *; [|done].
  specialize (IH db1). destruct (for_of l body db1) as [[r db2] t2].
  simpl in *. by rewrite forallb_app, Hb, IH.
Qed.

Lemma keeps_ret f (a : A) : keeps f (ret a).
Proof. by intros db. Qed.

Lemma keeps_throw f msg : keeps f (@throw A msg).
Proof. by intros db. Qed.

Lemma keeps_bind f (m : M A) (k : A -> M B) :
  keeps f m -> (forall a, keeps f (k a)) -> keeps f (bind m k).
Proof.
  intros Hm Hk db. unfold bind. specialize (Hm db).
  destruct (m db) as [[[a|e] db1] t1]; simpl in *; [|done].
  specialize (Hk a db1). destruct (k a db1) as [[r db2] t2]. simpl in *.
  by rewrite Hk.
Qed.

Lemma keeps_try_catch f (body : M A) (handler : string -> M A) :
  keeps f body -> (forall e, keeps f (handler e)) ->
  keeps f (try_catch body handler).
Proof.
  intros Hb Hh db. unfold try_catch. specialize (Hb db).
  destruct (body db) as [[[a|e] db1] t1]; simpl in *; [done|].
  specialize (Hh e db1). destruct (handler e db1) as [[r db2] t2]. simpl in *.
  by rewrite Hh.
Qed.

Lemma keeps_emit f e : keeps f (emit e).
Proof. by intros db. Qed.

Lemma keeps_query f e (read : Db -> A) (write : Db -> Db) :
  (forall db, f (write db) = f db) -> keeps f (query e read write).
Proof. intros Hw db. apply Hw. Qed.

Lemma keeps_await f e (r : option A) : keeps f (await e r).
Proof. intros db. unfold await. by destruct r. Qed.

Lemma keeps_for_of f (l : list A) (body : A -> M unit) :
  (forall x, keeps f (body x)) -> keeps f (for_of l body).
Proof.
  intros Hb. induction l as [|x l IH]; [by intros db|].
  cbn [for_of]. unfold keeps, bind. intros db. specialize (Hb x db).
  destruct (body x db) as [[[[]|e] db1] t1]; simpl in *; [|done].
  specialize (IH db1). destruct (for_of l body db1) as [[r db2] t2].
  simpl in *. by rewrite IH.
Qed.
End Laws_facts.

(** One step of a proof that a phase only emits, or keeps: peel the
    outermost construct of the computation. *)
Ltac law_step :=
  lazymatch goal with
  | |- Laws.emits _ (Sync.bind _ _) => apply emits_bind; [|intros ?]
  | |- Laws.emits _ (Sync.try_catch _ _) => apply emits_try_catch; [|intros ?]
  | |- Laws.emits _ (Sync.for_of _ _) => apply emits_for_of; intros ?
  | |- Laws.emits _ (Sync.ret _) => apply emits_ret
  | |- Laws.emits _ (Sync.throw _) => apply emits_throw
  | |- Laws.emits _ (Sync.await _ _) => apply emits_await; reflexivity
  | |- Laws.emits _ (Sync.query _ _ _) => apply emits_query; reflexivity
  | |- Laws.emits _ (Sync.logger _) => apply emits_emit; reflexivity
  | |- Laws.emits _ (Sync.emit _) => apply emits_emit; reflexivity
  | |- Laws.keeps _ (Sync.bind _ _) => apply keeps_bind; [|intros ?]
  | |- Laws.keeps _ (Sync.try_catch _ _) => apply keeps_try_catch; [|intros ?]
  | |- Laws.keeps _ (Sync.for_of _ _) => apply keeps_for_of; intros ?
  | |- Laws.keeps _ (Sync.ret _) => apply keeps_ret
  | |- Laws.keeps _ (Sync.throw _) => apply keeps_throw
  | |- Laws.keeps _ (Sync.await _ _) => apply keeps_await
  | |- Laws.keeps _ (Sync.query _ _ _) => apply keeps_query; reflexivity
  | |- Laws.keeps _ (Sync.logger _) => apply keeps_emit
  | |- Laws.keeps _ (Sync.emit _) => apply keeps_emit
  | |- Laws.emits _ (if ?b then _ else _) => destruct b
  | |- Laws.keeps _ (if ?b then _ else _) => destruct b
  | |- Laws.emits _ (match ?x with _ => _ end) => destruct x
  | |- Laws.keeps _ (match ?x with _ => _ end) => destruct x
  end.

Ltac law := repeat law_step.

Section phase_laws.
Import Sync Laws.
Variable api : IDevconnectPretixAPI.
Variable organizer : DevconnectPretixOrganizerConfig.
Variable event : DevconnectPretixEventConfig.

Lemma saveEventInfo_emits : emits of_event_phase (saveEventInfo api organizer event).
Proof.
  unfold saveEventInfo, fetchPretixEventInfo, insertPretixEventsInfo,
    updatePretixEventsInfo. cbv zeta. law.
Qed.

Lemma saveItemsInfo_emits : emits of_item_phase (saveItemsInfo api organizer event).
Proof.
  unfold saveItemsInfo, fetchPretixItemsInfoByEvent, insertPretixItemsInfo,
    updatePretixItemsInfo, deletePretixItemInfo. cbv zeta. law.
Qed.

Lemma projectOrders_emits P orders itemsInfo :
  (forall m, P (Log m) = true) -> emits P (projectOrders orders itemsInfo).
Proof.
  intros HP db. unfold projectOrders. simpl. apply forallb_forall.
  by intros e (m & <- & _)%in_map_iff.
Qed.

Lemma saveTickets_emits :
  emits of_ticket_phase_only (saveTickets api organizer event).
Proof.
  unfold saveTickets, fetchPretixItemsInfoByEvent,
    fetchDevconnectPretixTicketsByEvent, insertDevconnectPretixTicket,
    updateDevconnectPretixTicket, softDeleteDevconnectPretixTicket.
  cbv zeta. law_step; [|law]. law_step; [law|]. law_step; [law|].
  law_step; [by apply projectOrders_emits|]. law.
Qed.

Lemma saveItemsInfo_keeps_tickets : keeps tickets (saveItemsInfo api organizer event).
Proof.
  unfold saveItemsInfo, fetchPretixItemsInfoByEvent, insertPretixItemsInfo,
    updatePretixItemsInfo, deletePretixItemInfo. cbv zeta. law.
Qed.

Lemma saveItemsInfo_keeps_events :
  keeps events_info (saveItemsInfo api organizer event).
Proof.
  unfold saveItemsInfo, fetchPretixItemsInfoByEvent, insertPretixItemsInfo,
    updatePretixItemsInfo, deletePretixItemInfo. cbv zeta. law.
Qed.

Lemma projectOrders_keeps {C} (f : Db -> C) orders itemsInfo :
  keeps f (projectOrders orders itemsInfo).
Proof. by intros db. Qed.

Lemma saveTickets_keeps_items : keeps items_info (saveTickets api organizer event).
Proof.
  unfold saveTickets, fetchPretixItemsInfoByEvent,
    fetchDevconnectPretixTicketsByEvent, insertDevconnectPretixTicket,
    updateDevconnectPretixTicket, softDeleteDevconnectPretixTicket.
  cbv zeta. law_step; [|law]. law_step; [law|]. law_step; [law|].
  law_step; [apply projectOrders_keeps|]. law.
Qed.

Lemma saveTickets_keeps_events : keeps events_info (saveTickets api organizer event).
Proof.
  unfold saveTickets, fetchPretixItemsInfoByEvent,
    fetchDevconnectPretixTicketsByEvent, insertDevconnectPretixTicket,
    updateDevconnectPretixTicket, softDeleteDevconnectPretixTicket.
  cbv zeta. law_step; [|law]. law_step; [law|]. law_step; [law|].
  law_step; [apply projectOrders_keeps|]. law.
Qed.

Lemma saveEventInfo_keeps_items : keeps items_info (saveEventInfo api organizer event).
Proof.
  unfold saveEventInfo, fetchPretixEventInfo, insertPretixEventsInfo,
    updatePretixEventsInfo. cbv zeta. law.
Qed.

Lemma saveEventInfo_keeps_tickets : keeps tickets (saveEventInfo api organizer event).
Proof.
  unfold saveEventInfo, fetchPretixEventInfo, insertPretixEventsInfo,
    updatePretixEventsInfo. cbv zeta. law.
Qed.

Lemma phase_returns (body : M bool) (handler : string -> M bool) :
  (forall e, returns (handler e)) -> returns (try_catch body handler).
Proof. apply returns_try_catch. Qed.

Lemma handler_returns (m : LogMsg) :
  returns (bind (logger m) (fun _ => ret false)).
Proof. intros db. by eexists _, _, _. Qed.

Lemma saveEventInfo_returns : returns (saveEventInfo api organizer event).
Proof. apply returns_try_catch. intros _. apply handler_returns. Qed.

Lemma saveItemsInfo_returns : returns (saveItemsInfo api organizer event).
Proof. apply returns_try_catch. intros _. apply handler_returns. Qed.

Lemma saveTickets_returns : returns (saveTickets api organizer event).
Proof. apply returns_try_catch. intros _. apply handler_returns. Qed.
End phase_laws.

(** ** The item phase in closed form *)

Section saveItemsInfo_closed.
Import Sync ItemPhase.

Lemma for_of_writes_In {A} (l : list A) (body : A -> M unit)
    (write : A -> Db -> Db) (tr : A -> list Effect) db :
  (forall x, In x l -> forall db, body x db = (Returned tt, write x db, tr x)) ->
  for_of l body db =
  (Returned tt, foldl (fun db x => write x db) db l, flat_map tr l).
Proof.
  revert db. induction l as [|x l IH]; intros db Hbody; [done|].
  cbn [for_of]. unfold bind. rewrite (Hbody x (or_introl eq_refl)), IH; [done|].
  intros y Hy. apply Hbody. by right.
Qed.

Lemma foldl_set_items_info {A}
    (f : A -> list PretixItemInfo -> list PretixItemInfo) (l : list A) db :
  foldl (fun db x => set_items_info (f x) db) db l =
  set_items_info (fun rows => foldl (fun rows x => f x rows) rows l) db.
Proof.
  revert db. induction l as [|x l IH]; intros db; simpl.
  - by destruct db.
  - by rewrite IH.
Qed.

Lemma foldl_insertWrite cfg ins db :
  foldl (fun db i => insertWrite cfg i db) db ins =
  {| events_info := events_info db;
     items_info := items_info db ++ insertedRows cfg (next_item_info_id db) ins;
     tickets := tickets db;
     next_event_info_id := next_event_info_id db;
     next_item_info_id := (next_item_info_id db + N.of_nat (length ins))%N |}.
Proof.
  revert db. induction ins as [|i ins IH]; intros db.
  - simpl. rewrite app_nil_r, N.add_0_r. by destruct db.
  - cbn [foldl]. rewrite IH. unfold insertWrite. cbn -[N.of_nat].
    rewrite <-app_assoc. f_equal. lia.
Qed.

Lemma foldl_updateWrite existing upd db :
  foldl (fun db i => updateWrite existing i db) db upd =
  set_items_info (map (renameBy (updateTargets existing upd))) db.
Proof.
  revert db. induction upd as [|i upd IH]; intros db.
  - simpl. unfold set_items_info, renameBy. simpl. rewrite map_id.
    by destruct db.
  - cbn [foldl]. rewrite IH. unfold updateWrite, updateTargets. simpl.
    destruct (ChangeSet.oldOf itemKeyE itemKeyD existing i) as [old|]; [|done].
    unfold set_items_info. simpl. by rewrite map_map.
Qed.

Lemma filter_updateTrace existing upd :
  List.filter writes_item_info (flat_map (updateTrace existing) upd)
  = map (fun t => UpdateItemsInfo t.1 t.2) (updateTargets existing upd).
Proof.
  induction upd as [|i upd IH]; [done|]. cbn [flat_map].
  rewrite List.filter_app, IH. unfold updateTrace, updateTargets. simpl.
  by destruct (ChangeSet.oldOf itemKeyE itemKeyD existing i).
Qed.

Lemma foldl_delete_rows (ids : list N) (rows : list PretixItemInfo) :
  foldl (fun rows id => List.filter (fun i => negb (N.eqb (pii_id i) id)) rows)
    rows ids
  = List.filter (fun r => negb (removedBy ids r)) rows.
Proof.
  revert rows. induction ids as [|id ids IH]; intros rows.
  - simpl. symmetry. by apply filter_all.
  - cbn [foldl]. rewrite IH. clear IH.
    induction rows as [|r rows IHr]; [done|]. unfold removedBy in *. simpl.
    destruct (N.eqb (pii_id r) id); simpl; [done|].
    destruct (existsb (N.eqb (pii_id r)) ids); simpl; by rewrite IHr.
Qed.

Variable api : IDevconnectPretixAPI.
Variable organizer : DevconnectPretixOrganizerConfig.
Variable event : DevconnectPretixEventConfig.

(** A run of [saveItemsInfo] whose catalog was fetched and holds every
    active item: it returns [true], leaves the database as [after] says,
    and sends exactly the inserts, updates and deletes of the change set. *)
Lemma saveItemsInfo_closed_form catalog db :
  fetchItems api (orgURL organizer) (token organizer) (eventID event)
    = Some catalog ->
  someActiveItemMissing (activeItemIDs event) catalog = false ->
  let existing := eventItems db (ec_id event) in
  let newActive := newActiveItemsOf (activeItemIDs event) catalog in
  exists tr,
    saveItemsInfo api organizer event db =
      (Returned true, after (ec_id event) catalog (activeItemIDs event) db, tr)
    /\ List.filter writes_item_info tr =
         map (fun i => InsertItemsInfo (toString (dpi_id i)) (ec_id event)
                         (dpi_name_en i))
           (itemsToInsert existing newActive)
         ++ map (fun t => UpdateItemsInfo t.1 t.2)
              (updateTargets existing (itemsToUpdate existing newActive))
         ++ map DeleteItemInfo
              (map pii_id (itemsToRemove existing newActive)).
Proof.
  intros Hf Hm existing newActive.
  unfold saveItemsInfo, try_catch.
  unfold bind at 1. unfold await. rewrite Hf, Hm.
  unfold bind at 1. unfold fetchPretixItemsInfoByEvent at 1, query at 1.
  fold (eventItems db (ec_id event)). fold existing. fold newActive.
  unfold bind at 1. unfold logger at 1, emit at 1.
  unfold bind at 1.
  rewrite (for_of_writes (itemsToInsert existing newActive) _
             (insertWrite (ec_id event))
             (fun i => [Log (LogInsertingItem i);
                        InsertItemsInfo (toString (dpi_id i)) (ec_id event)
                          (dpi_name_en i)]))
    by done.
  unfold bind at 1. unfold logger at 1, emit at 1.
  unfold bind at 1.
  rewrite (for_of_writes_In (itemsToUpdate existing newActive) _
             (updateWrite existing) (updateTrace existing)).
  2:{ intros i Hi db0. unfold updateWrite, updateTrace.
      apply toUpdate_old in Hi as (old & -> & _). done. }
  unfold bind at 1. unfold logger at 1, emit at 1.
  unfold bind at 1.
  rewrite (for_of_writes (itemsToRemove existing newActive) _
             (fun i => set_items_info
                         (List.filter (fun r => negb (N.eqb (pii_id r) (pii_id i)))))
             (fun i => [Log (LogDeletingItem i); DeleteItemInfo (pii_id i)]))
    by done.
  unfold ret. eexists. split.
  - do 2 f_equal.
    rewrite (foldl_set_items_info
               (fun i => List.filter (fun r => negb (N.eqb (pii_id r) (pii_id i))))).
    rewrite foldl_updateWrite, foldl_insertWrite.
    unfold after, applyItemChanges, set_items_info. cbn -[N.of_nat].
    fold existing. fold newActive. f_equal.
    rewrite <-foldl_delete_rows.
    generalize (map (renameBy (updateTargets existing
                                 (itemsToUpdate existing newActive)))
                  (items_info db ++
                   insertedRows (ec_id event) (next_item_info_id db)
                     (itemsToInsert existing newActive))).
    induction (itemsToRemove existing newActive) as [|r rm IH]; intros rows;
      [done|]. simpl. apply IH.
  - simpl. rewrite !List.filter_app. simpl. rewrite !List.filter_app. simpl.
    rewrite !List.filter_app. simpl.
    rewrite filter_updateTrace.
    assert (forall l, List.filter writes_item_info
              (flat_map (fun i => [Log (LogInsertingItem i);
                           InsertItemsInfo (toString (dpi_id i)) (ec_id event)
                             (dpi_name_en i)]) l)
            = map (fun i => InsertItemsInfo (toString (dpi_id i)) (ec_id event)
                              (dpi_name_en i)) l) as ->.
    { induction l as [|i l IH]; [done|]. simpl. by rewrite IH. }
    assert (forall l, List.filter writes_item_info
              (flat_map (fun i => [Log (LogDeletingItem i);
                                   DeleteItemInfo (pii_id i)]) l)
            = map DeleteItemInfo (map pii_id l)) as ->.
    { induction l as [|i l IH]; [done|]. simpl. by rewrite IH. }
    by rewrite !app_nil_r.
Qed.
End saveItemsInfo_closed.

(** ** Item rows under the changes of one run *)

Section item_rows.
Import Sync ItemPhase.
Implicit Types (r : PretixItemInfo) (targets : list (N * string)).

Lemma renameWhere_id id name r : pii_id (renameWhere id name r) = pii_id r.
Proof. unfold renameWhere. by destruct (N.eqb (pii_id r) id). Qed.

Lemma renameWhere_item_id id name r :
  pii_item_id (renameWhere id name r) = pii_item_id r.
Proof. unfold renameWhere. by destruct (N.eqb (pii_id r) id). Qed.

Lemma renameWhere_event id name r :
  pii_events_info_id (renameWhere id name r) = pii_events_info_id r.
Proof. unfold renameWhere. by destruct (N.eqb (pii_id r) id). Qed.

Lemma renameBy_id targets r : pii_id (renameBy targets r) = pii_id r.
Proof.
  unfold renameBy. revert r. induction targets as [|t ts IH]; intros r; [done|].
  simpl. by rewrite IH, renameWhere_id.
Qed.

Lemma renameBy_item_id targets r :
  pii_item_id (renameBy targets r) = pii_item_id r.
Proof.
  unfold renameBy. revert r. induction targets as [|t ts IH]; intros r; [done|].
  simpl. by rewrite IH, renameWhere_item_id.
Qed.

Lemma renameBy_event targets r :
  pii_events_info_id (renameBy targets r) = pii_events_info_id r.
Proof.
  unfold renameBy. revert r. induction targets as [|t ts IH]; intros r; [done|].
  simpl. by rewrite IH, renameWhere_event.
Qed.

(** No update is addressed to the row: it is unchanged. *)
Lemma renameBy_other targets r :
  (forall t, In t targets -> t.1 <> pii_id r) -> renameBy targets r = r.
Proof.
  unfold renameBy. revert r. induction targets as [|t ts IH]; intros r Hno; [done|].
  simpl. assert (renameWhere t.1 t.2 r = r) as ->.
  { unfold renameWhere. destruct (N.eqb_spec (pii_id r) t.1) as [Heq|]; [|done].
    by destruct (Hno t (or_introl eq_refl)). }
  apply IH. intros t' Ht'. apply Hno. by right.
Qed.

(** Some update is addressed to the row and all that are carry [n]. *)
Lemma renameBy_name targets r n :
  (exists t, In t targets /\ t.1 = pii_id r) ->
  (forall t, In t targets -> t.1 = pii_id r -> t.2 = n) ->
  pii_item_name (renameBy targets r) = n.
Proof.
  revert r. induction targets as [|t ts IH]; intros r [t0 [Hin Hid]] Hall;
    [done|].
  change (renameBy (t :: ts) r) with (renameBy ts (renameWhere t.1 t.2 r)).
  destruct (existsb (fun t' => N.eqb t'.1 (pii_id r)) ts) eqn:Hex.
  - apply existsb_exists in Hex as (t' & Ht' & Heq%N.eqb_eq). apply IH.
    + exists t'. by rewrite renameWhere_id.
    + intros t'' Ht''. rewrite renameWhere_id. intros ?. apply Hall; [by right|done].
  - rewrite renameBy_other.
    + destruct Hin as [->|Hin].
      * unfold renameWhere. rewrite Hid, N.eqb_refl. simpl.
        apply Hall; [by left|done].
      * apply not_true_iff_false in Hex. exfalso. apply Hex, existsb_exists.
        exists t0. split; [done|]. by apply N.eqb_eq.
    + intros t' Ht'. rewrite renameWhere_id. intros Heq.
      apply not_true_iff_false in Hex. apply Hex, existsb_exists.
      exists t'. split; [done|]. by apply N.eqb_eq.
Qed.

Lemma removedBy_true ids r : removedBy ids r = true <-> In (pii_id r) ids.
Proof.
  unfold removedBy. rewrite existsb_exists. split.
  - by intros (id & Hid & ->%N.eqb_eq).
  - intros Hin. exists (pii_id r). by rewrite N.eqb_refl.
Qed.

Lemma In_updateTargets existing upd t :
  In t (updateTargets existing upd) <->
  exists i old, In i upd
                /\ ChangeSet.oldOf itemKeyE itemKeyD existing i = Some old
                /\ t = (pii_id old, dpi_name_en i).
Proof.
  unfold updateTargets. rewrite <-list_elem_of_In, list_elem_of_omap. split.
  - intros (i & Hi%list_elem_of_In & Ht).
    destruct (ChangeSet.oldOf itemKeyE itemKeyD existing i) as [old|] eqn:Hold;
      [|done].
    injection Ht as <-. by exists i, old.
  - intros (i & old & Hi & Hold & ->). exists i.
    split; [by apply list_elem_of_In|]. by rewrite Hold.
Qed.

Lemma In_insertedRows cfg next ins r :
  In r (insertedRows cfg next ins) ->
  (exists i, In i ins /\ pii_item_id r = toString (dpi_id i)
             /\ pii_item_name r = dpi_name_en i)
  /\ pii_events_info_id r = cfg
  /\ (next <= pii_id r < next + N.of_nat (length ins))%N.
Proof.
  revert next. induction ins as [|i ins IH]; intros next; [done|].
  intros [<-|Hin]; cbn -[N.of_nat].
  - split; [exists i; by split; [left|]|]. split; [done|lia].
  - destruct (IH _ Hin) as ((j & Hj & ? & ?) & ? & ?).
    split; [exists j; by split; [right|]|]. split; [done|lia].
Qed.

Lemma insertedRows_item cfg next ins i :
  In i ins ->
  exists r, In r (insertedRows cfg next ins)
            /\ pii_item_id r = toString (dpi_id i)
            /\ pii_item_name r = dpi_name_en i.
Proof.
  revert next. induction ins as [|j ins IH]; intros next; [done|].
  intros [->|Hin].
  - eexists. split; [by left|done].
  - destruct (IH (N.succ next) Hin) as (r & ? & ? & ?).
    exists r. split; [by right|done].
Qed.

Lemma insertedRows_ids_distinct cfg next ins :
  NoDup (map pii_id (insertedRows cfg next ins)).
Proof.
  revert next. induction ins as [|i ins IH]; intros next; simpl.
  - apply NoDup_nil_2.
  - apply NoDup_cons. split; [|apply IH].
    intros (r & Hid & Hr%list_elem_of_In)%list_elem_of_fmap.
    apply In_insertedRows in Hr as (_ & _ & Hge). simpl in Hid. lia.
Qed.

Lemma insertedRows_keys cfg next ins :
  map pii_item_id (insertedRows cfg next ins) = map itemKeyD ins.
Proof.
  revert next. induction ins as [|i ins IH]; intros next; simpl; [done|].
  by rewrite IH.
Qed.

Lemma In_eventItems db cfg r :
  In r (eventItems db cfg)
  <-> In r (items_info db) /\ pii_events_info_id r = cfg.
Proof. unfold eventItems. by rewrite filter_In, N.eqb_eq. Qed.
End item_rows.

Lemma filter_andb {A} (p q : A -> bool) (l : list A) :
  List.filter p (List.filter q l) = List.filter (fun x => q x && p x) l.
Proof.
  induction l as [|x l IH]; [done|]. simpl.
  destruct (q x); simpl; [|done]. destruct (p x); by rewrite IH.
Qed.

(** ** The item phase: what a successful run leaves behind *)

Section item_phase_result.
Import Sync ItemPhase.
Variable db : Db.
Variable cfg : N.
Variable catalog : list DevconnectPretixItem.
Variable activeIDs : list string.

Local Abbreviation existing := (eventItems db cfg).
Local Abbreviation newActive := (newActiveItemsOf activeIDs catalog).
Local Abbreviation ins := (itemsToInsert existing newActive).
Local Abbreviation upd := (itemsToUpdate existing newActive).
Local Abbreviation rm := (itemsToRemove existing newActive).
Local Abbreviation targets := (updateTargets existing upd).
Local Abbreviation fresh := (insertedRows cfg (next_item_info_id db) ins).
Local Abbreviation db' := (after cfg catalog activeIDs db).

Lemma In_items_after r' :
  In r' (items_info db') <->
  exists r, In r (items_info db ++ fresh) /\ r' = renameBy targets r
            /\ ~ In (pii_id r) (map pii_id rm).
Proof.
  unfold after, applyItemChanges. cbn [items_info].
  rewrite filter_In, in_map_iff, negb_true_iff. split.
  - intros [(r & <- & Hr) Hrm]. exists r. split; [done|]. split; [done|].
    intros Hin. apply removedBy_true in Hin.
    unfold removedBy in *. rewrite renameBy_id in Hrm. congruence.
  - intros (r & Hr & -> & Hrm). split; [eauto|].
    apply not_true_iff_false. intros Hin%removedBy_true.
    by rewrite renameBy_id in Hin.
Qed.

Lemma removedBy_renameBy ids ts r :
  removedBy ids (renameBy ts r) = removedBy ids r.
Proof. unfold removedBy. by rewrite renameBy_id. Qed.

Hypothesis ids_ok : idsWellFormed db.

Lemma stored_row_unique r r2 :
  In r (items_info db) -> In r2 (items_info db) -> pii_id r = pii_id r2 ->
  r = r2.
Proof.
  intros. destruct ids_ok as [Hnd _].
  by apply (NoDup_map_inj_In pii_id (items_info db)).
Qed.

Lemma target_is_existing t :
  In t targets ->
  exists i old, In i upd /\ In old existing
                /\ ChangeSet.oldOf itemKeyE itemKeyD existing i = Some old
                /\ itemKeyE old = itemKeyD i /\ t = (pii_id old, dpi_name_en i).
Proof.
  intros (i & old & Hi & Hold & ->)%In_updateTargets. exists i, old.
  destruct (existingByKey_lookup_In itemKeyE existing _ _ Hold). done.
Qed.

Lemma removed_id_iff r :
  In r (items_info db) -> In (pii_id r) (map pii_id rm) <-> In r rm.
Proof.
  intros Hr. split; [|apply in_map].
  intros (r2 & Hid & Hr2)%in_map_iff.
  assert (In r2 (items_info db)) as Hr2'.
  { apply In_toRemove in Hr2 as [Hr2 _]. by apply In_eventItems in Hr2 as [? _]. }
  by rewrite <-(stored_row_unique r2 r Hr2' Hr Hid).
Qed.

(** A freshly inserted row is neither renamed nor deleted. *)
Lemma fresh_row_kept r :
  In r fresh ->
  renameBy targets r = r /\ ~ In (pii_id r) (map pii_id rm).
Proof.
  intros (_ & _ & [Hge _])%In_insertedRows. destruct ids_ok as [_ Hlt]. split.
  - apply renameBy_other. intros t (i & old & _ & Hold & _ & _ & ->)%target_is_existing.
    simpl. apply In_eventItems in Hold as [Hold _]. specialize (Hlt _ Hold). lia.
  - intros (r2 & Hid & Hr2)%in_map_iff.
    apply In_toRemove in Hr2 as [Hr2 _]. apply In_eventItems in Hr2 as [Hr2 _].
    specialize (Hlt _ Hr2). lia.
Qed.

(** The rows of the other events are as they were. *)
Lemma other_event_untouched cfg' :
  cfg' <> cfg -> eventItems db' cfg' = eventItems db cfg'.
Proof.
  intros Hne. unfold eventItems at 1, after, applyItemChanges.
  cbn [items_info]. rewrite filter_andb, filter_map_comm.
  assert (forall l,
    (forall r, In r l -> pii_events_info_id r = cfg' ->
               renameBy targets r = r /\ ~ In (pii_id r) (map pii_id rm)) ->
    map (renameBy targets)
      (List.filter
         (fun x => negb (removedBy (map pii_id rm) (renameBy targets x))
                   && N.eqb (pii_events_info_id (renameBy targets x)) cfg') l)
    = List.filter (fun i => N.eqb (pii_events_info_id i) cfg') l) as Hgen.
  { induction l as [|r l IH]; intros Hl; [done|]. cbn [List.filter].
    rewrite renameBy_event, removedBy_renameBy.
    destruct (N.eqb_spec (pii_events_info_id r) cfg') as [Hev|Hev].
    - destruct (Hl r (or_introl eq_refl) Hev) as [Hrn Hrm].
      assert (removedBy (map pii_id rm) r = false) as ->.
      { apply not_true_iff_false. by intros ?%removedBy_true. }
      cbn [negb andb map]. rewrite Hrn.
      by rewrite IH by (intros; apply Hl; [by right|done]).
    - rewrite andb_false_r.
      by rewrite IH by (intros; apply Hl; [by right|done]). }
  rewrite Hgen.
  - rewrite List.filter_app. rewrite (filter_none _ fresh), app_nil_r; [done|].
    intros r (_ & Hev & _)%In_insertedRows. apply N.eqb_neq. congruence.
  - intros r [Hr|Hr]%in_app_or Hev.
    2:{ apply In_insertedRows in Hr as (_ & ? & _). congruence. }
    split.
    + apply renameBy_other.
      intros t (i & old & _ & Hold & _ & _ & ->)%target_is_existing Hid.
      apply In_eventItems in Hold as [Hold Hevo]. simpl in Hid.
      rewrite (stored_row_unique old r Hold Hr Hid) in Hevo. congruence.
    + intros Hin%removed_id_iff; [|done].
      apply In_toRemove in Hin as [Hin _]. apply In_eventItems in Hin as [_ ?].
      congruence.
Qed.

Lemma ids_after : idsWellFormed db'.
Proof.
  destruct ids_ok as [Hnd Hlt]. split.
  - unfold after, applyItemChanges. cbn [items_info].
    rewrite filter_map_comm, map_map.
    rewrite (map_ext _ pii_id) by (intros; apply renameBy_id).
    apply NoDup_map_filter. rewrite map_app. apply NoDup_app.
    split; [done|]. split; [|apply insertedRows_ids_distinct].
    intros id (r & -> & Hr%list_elem_of_In)%list_elem_of_fmap
      (r2 & Hid & Hr2%list_elem_of_In)%list_elem_of_fmap.
    apply In_insertedRows in Hr2 as (_ & _ & [Hge _]).
    specialize (Hlt _ Hr). lia.
  - intros r' (r & Hr & -> & _)%In_items_after. rewrite renameBy_id.
    unfold after. cbn [next_item_info_id].
    apply in_app_or in Hr as [Hr|Hr].
    + specialize (Hlt _ Hr). lia.
    + apply In_insertedRows in Hr as (_ & _ & [_ ?]). done.
Qed.

Hypothesis keys_ok : NoDup (map pii_item_id existing).
Hypothesis catalog_ok : NoDup (map dpi_id catalog).

Lemma newActive_keys_distinct : NoDup (map itemKeyD newActive).
Proof.
  unfold newActiveItemsOf, itemKeyD, toString.
  rewrite <-(map_map dpi_id pretty). apply (NoDup_fmap_2 pretty).
  by apply NoDup_map_filter.
Qed.

Lemma active_item_unique i j :
  In i newActive -> In j newActive -> itemKeyD i = itemKeyD j -> i = j.
Proof.
  intros. pose proof newActive_keys_distinct.
  by apply (NoDup_map_inj_In itemKeyD newActive).
Qed.

(** A stored row whose item is still active is kept, under the name the
    catalog gives the item. *)
Lemma kept_row r i :
  In r existing -> In i newActive -> itemKeyE r = itemKeyD i ->
  ~ In (pii_id r) (map pii_id rm)
  /\ pii_item_name (renameBy targets r) = dpi_name_en i.
Proof.
  intros Hr Hi Hk.
  assert (In r (items_info db)) as Hr' by by apply In_eventItems in Hr as [? _].
  split.
  - intros Hin%removed_id_iff; [|done].
    apply In_toRemove in Hin as [_ Hnot]. apply Hnot.
    rewrite Hk. apply list_elem_of_fmap. exists i. by rewrite list_elem_of_In.
  - assert (forall t, In t targets -> t.1 = pii_id r -> t.2 = dpi_name_en i
                                                        /\ In i upd) as Honly.
    { intros t (j & old & Hj & Hold & _ & Hkj & ->)%target_is_existing Hid.
      simpl in *.
      assert (In old (items_info db)) as Hold'
        by by apply In_eventItems in Hold as [? _].
      rewrite (stored_row_unique old r Hold' Hr' Hid) in Hkj.
      assert (j = i) as ->; [|done].
      apply In_toUpdate in Hj as [Hj _]. apply active_item_unique; [done|done|].
      congruence. }
    destruct (decide (i ∈ upd)) as [Hiu%list_elem_of_In|Hiu].
    + apply renameBy_name.
      * apply In_toUpdate in Hiu as Hiu'. destruct Hiu' as (_ & old & Hold & _).
        exists (pii_id old, dpi_name_en i). split.
        { apply In_updateTargets. by exists i, old. }
        pose proof (existingByKey_lookup_NoDup itemKeyE existing r keys_ok Hr)
          as Hl.
        unfold ChangeSet.oldOf, JsMap.get in Hold.
        rewrite <-Hk, Hl in Hold. by injection Hold as <-.
      * intros t Ht Hid. by destruct (Honly t Ht Hid).
    + rewrite renameBy_other.
      2:{ intros t Ht Hid. destruct (Honly t Ht Hid) as [_ ?].
          by apply Hiu, list_elem_of_In. }
      pose proof (existingByKey_lookup_NoDup itemKeyE existing r keys_ok Hr)
        as Hl.
      rewrite Hk in Hl.
      destruct (itemDifferent r i) eqn:Hdiff.
      * exfalso. apply Hiu, list_elem_of_In, In_toUpdate. split; [done|].
        by exists r.
      * unfold itemDifferent in Hdiff.
        by apply negb_false_iff, String.eqb_eq in Hdiff.
Qed.

(** After the run the event has exactly the active items of the catalog. *)
Lemma stored_after_iff k n :
  In (k, n) (storedItems db' cfg) <-> In (k, n) (wantedItems activeIDs catalog).
Proof.
  unfold storedItems, wantedItems. rewrite !in_map_iff. split.
  - intros (r' & [= <- <-] & [Hr' Hev]%In_eventItems).
    apply In_items_after in Hr' as (r & Hr & -> & Hrm).
    rewrite renameBy_event in Hev. rewrite renameBy_item_id.
    apply in_app_or in Hr as [Hr|Hr].
    + assert (In r existing) as Hex by by apply In_eventItems.
      destruct (decide (itemKeyE r ∈ map itemKeyD newActive)) as [Hin|Hnot].
      * apply list_elem_of_fmap in Hin as (i & Hk & Hi%list_elem_of_In).
        exists i. split; [|done].
        destruct (kept_row r i Hex Hi Hk) as [_ ->].
        unfold itemKeyE, itemKeyD in Hk. by rewrite Hk.
      * exfalso. apply Hrm, in_map, In_toRemove. done.
    + destruct (fresh_row_kept r Hr) as [-> _].
      apply In_insertedRows in Hr as ((i & Hi & -> & ->) & _ & _).
      exists i. split; [done|]. by apply In_toInsert in Hi as [? _].
  - intros (i & [= <- <-] & Hi).
    destruct (decide (itemKeyD i ∈ map itemKeyE existing)) as [Hin|Hnot].
    + apply list_elem_of_fmap in Hin as (r & Hk & Hr%list_elem_of_In).
      symmetry in Hk. destruct (kept_row r i Hr Hi Hk) as [Hrm Hname].
      exists (renameBy targets r). rewrite renameBy_item_id, Hname.
      split; [unfold itemKeyE, itemKeyD in Hk; by rewrite Hk|].
      apply In_eventItems.
      apply In_eventItems in Hr as [Hr Hev]. rewrite renameBy_event.
      split; [|done]. apply In_items_after. exists r.
      split; [apply in_or_app; by left|done].
    + assert (In i ins) as Hins by by apply In_toInsert.
      destruct (insertedRows_item cfg (next_item_info_id db) ins i Hins)
        as (r & Hr & Hk & Hname).
      destruct (fresh_row_kept r Hr) as [Hrn Hrm].
      exists r. split; [by rewrite Hk, Hname|]. apply In_eventItems.
      split; [|by apply In_insertedRows in Hr as (_ & ? & _)].
      apply In_items_after. exists r. split; [apply in_or_app; by right|done].
Qed.

(** ... with one row for each. *)
Lemma stored_after_keys_distinct : NoDup (map fst (storedItems db' cfg)).
Proof.
  unfold storedItems. rewrite map_map. cbn [fst].
  unfold eventItems at 1, after, applyItemChanges. cbn [items_info].
  rewrite filter_andb, filter_map_comm, map_map.
  rewrite (map_ext _ pii_item_id) by (intros; apply renameBy_item_id).
  apply (NoDup_map_filter_impl pii_item_id _
           (fun r => N.eqb (pii_events_info_id r) cfg)).
  { intros r [_ Hev]%andb_true_iff. by rewrite renameBy_event in Hev. }
  rewrite List.filter_app, (filter_all _ fresh), map_app.
  2:{ intros r (_ & -> & _)%In_insertedRows. apply N.eqb_refl. }
  apply NoDup_app. split; [exact keys_ok|]. split.
  - intros k Hk. rewrite insertedRows_keys.
    intros (i & -> & Hi%list_elem_of_In)%list_elem_of_fmap.
    by apply In_toInsert in Hi as [_ Hnot].
  - rewrite insertedRows_keys. apply NoDup_map_filter, newActive_keys_distinct.
Qed.

(** A second run on the same catalog finds nothing to do. *)
Lemma item_change_set_empty_after :
  itemsToInsert (eventItems db' cfg) newActive = []
  /\ itemsToUpdate (eventItems db' cfg) newActive = []
  /\ itemsToRemove (eventItems db' cfg) newActive = [].
Proof.
  assert (forall r, In r (eventItems db' cfg) ->
            exists i, In i newActive /\ itemKeyD i = pii_item_id r
                      /\ dpi_name_en i = pii_item_name r) as Hstored.
  { intros r Hr.
    assert (In (pii_item_id r, pii_item_name r) (storedItems db' cfg)) as Hin.
    { unfold storedItems. apply in_map_iff. by exists r. }
    apply stored_after_iff in Hin. unfold wantedItems in Hin.
    apply in_map_iff in Hin as (i & [= ? ?] & ?). by exists i. }
  split; [|split].
  - apply filter_none. intros i Hi. apply negb_false_iff.
    rewrite existingByKey_has. apply bool_decide_eq_true_2.
    assert (In (itemKeyD i, dpi_name_en i) (storedItems db' cfg)) as Hin.
    { apply stored_after_iff. unfold wantedItems. apply in_map_iff. by exists i. }
    unfold storedItems in Hin. apply in_map_iff in Hin as (r & [= Hk _] & Hr).
    apply list_elem_of_fmap. exists r. by rewrite list_elem_of_In.
  - unfold itemsToUpdate. rewrite toUpdate_one_filter.
    apply filter_none. intros i Hi. cbv beta.
    destruct (ChangeSet.oldOf itemKeyE itemKeyD (eventItems db' cfg) i)
      as [old|] eqn:Hold; [|done].
    apply existingByKey_lookup_In in Hold as [Hin Hk].
    destruct (Hstored old Hin) as (j & Hj & Hkj & Hname).
    assert (j = i) as ->.
    { apply active_item_unique; [done|done|]. by rewrite Hkj. }
    unfold itemDifferent. rewrite Hname. apply negb_false_iff, String.eqb_refl.
  - apply filter_none. intros r Hr. apply negb_false_iff.
    rewrite desiredByKey_has. apply bool_decide_eq_true_2.
    destruct (Hstored r Hr) as (i & Hi & Hk & _).
    apply list_elem_of_fmap. exists i. by rewrite list_elem_of_In.
Qed.
End item_phase_result.

Lemma someActiveItemMissing_false activeIDs catalog :
  (forall a, In a activeIDs ->
             In a (map (fun i => toString (dpi_id i)) catalog)) ->
  Sync.someActiveItemMissing activeIDs catalog = false.
Proof.
  intros Hall. apply not_true_iff_false.
  intros (a & Ha & Hmiss)%existsb_exists.
  apply negb_true_iff, bool_decide_eq_false in Hmiss. apply Hmiss.
  rewrite elem_of_list_to_set. apply list_elem_of_In. by apply Hall.
Qed.

Lemma someActiveItemMissing_false_inv activeIDs catalog a :
  Sync.someActiveItemMissing activeIDs catalog = false ->
  In a activeIDs -> In a (map (fun i => toString (dpi_id i)) catalog).
Proof.
  intros Hm Ha. apply list_elem_of_In.
  destruct (decide (a ∈ map (fun i => toString (dpi_id i)) catalog)) as [|Hnot];
    [done|].
  apply not_true_iff_false in Hm. exfalso. apply Hm.
  apply someActiveItemMissing_true with a; [done|]. by rewrite <-list_elem_of_In.
Qed.

Lemma saveItemsInfo_fetch_fails api organizer event db :
  Sync.fetchItems api (orgURL organizer) (token organizer) (eventID event) = None ->
  Sync.saveItemsInfo api organizer event db =
  (Sync.Returned false, db,
   [ApiFetchItems (orgURL organizer) (token organizer) (eventID event);
    Log (LogErrorSyncingItems (orgURL organizer) (eventID event))]).
Proof.
  intros Hf. unfold Sync.saveItemsInfo, Sync.try_catch, Sync.bind, Sync.await.
  by rewrite Hf.
Qed.

Lemma after_idle cfg catalog activeIDs db :
  Sync.itemsToInsert (Sync.eventItems db cfg) (Sync.newActiveItemsOf activeIDs catalog) = [] ->
  Sync.itemsToUpdate (Sync.eventItems db cfg) (Sync.newActiveItemsOf activeIDs catalog) = [] ->
  Sync.itemsToRemove (Sync.eventItems db cfg) (Sync.newActiveItemsOf activeIDs catalog) = [] ->
  ItemPhase.after cfg catalog activeIDs db = db.
Proof.
  intros Hi Hu Hr. unfold ItemPhase.after, ItemPhase.applyItemChanges.
  rewrite Hi, Hu, Hr. cbn -[N.of_nat]. rewrite app_nil_r, N.add_0_r.
  rewrite filter_all by done.
  rewrite (map_ext _ id) by done. rewrite map_id. by destruct db.
Qed.

(** X1. [saveItemsInfo] always returns: it returns [true] exactly when the
    catalog was fetched and holds every active item id.  Whatever happens it
    leaves the event rows and the tickets alone and sends no statement to
    their tables; when it returns [false] the database is as it was and no
    statement was sent to the item table.  Statements sent to the database
    are taken to succeed. *)
Theorem saveItemsInfo_succeeds_iff
    (api : Sync.IDevconnectPretixAPI)
    (organizer : DevconnectPretixOrganizerConfig)
    (event : DevconnectPretixEventConfig) (db : Sync.Db) :
  exists b db' tr,
    Sync.saveItemsInfo api organizer event db = (Sync.Returned b, db', tr)
    /\ Sync.events_info db' = Sync.events_info db
    /\ Sync.tickets db' = Sync.tickets db
    /\ forallb Laws.of_item_phase tr = true
    /\ (b = true <->
        exists catalog,
          Sync.fetchItems api (orgURL organizer) (token organizer) (eventID event)
            = Some catalog
          /\ forall a, In a (activeItemIDs event) ->
                       In a (map (fun i => toString (dpi_id i)) catalog))
    /\ (b = false -> db' = db /\ List.filter writes_item_info tr = []).
Proof.
  pose proof (saveItemsInfo_emits api organizer event db) as Hem.
  destruct (Sync.fetchItems api (orgURL organizer) (token organizer)
              (eventID event)) as [catalog|] eqn:Hf.
  - destruct (Sync.someActiveItemMissing (activeItemIDs event) catalog) eqn:Hm.
    + rewrite (saveItemsInfo_missing api organizer event catalog db Hf Hm) in *.
      eexists _, _, _. split; [reflexivity|]. repeat split; try done.
      intros (c & [= <-] & Hall).
      by rewrite (someActiveItemMissing_false _ _ Hall) in Hm.
    + destruct (saveItemsInfo_closed_form api organizer event catalog db Hf Hm)
        as (tr & Heq & _).
      rewrite Heq in *. eexists _, _, _. split; [reflexivity|].
      repeat split; try done.
      intros _. exists catalog. split; [done|]. intros a.
      by apply someActiveItemMissing_false_inv.
  - rewrite (saveItemsInfo_fetch_fails api organizer event db Hf) in *.
    eexists _, _, _. split; [reflexivity|]. repeat split; try done.
    by intros (c & ? & _).
Qed.

(** X2. A successful item phase makes the item table agree with the
    catalog.  When ids are a primary key below the sequence, the stored rows
    of the event have distinct item ids and the catalog has distinct ids,
    then after [saveItemsInfo] the (item id, name) pairs stored for the event
    are, up to order, those of the active items of the catalog, with one row
    for each item id; ids remain a primary key below the sequence. *)
Theorem saveItemsInfo_converges
    (api : Sync.IDevconnectPretixAPI)
    (organizer : DevconnectPretixOrganizerConfig)
    (event : DevconnectPretixEventConfig) (db : Sync.Db)
    (catalog : list DevconnectPretixItem) :
  Sync.fetchItems api (orgURL organizer) (token organizer) (eventID event)
    = Some catalog ->
  (forall a, In a (activeItemIDs event) ->
             In a (map (fun i => toString (dpi_id i)) catalog)) ->
  ItemPhase.idsWellFormed db ->
  NoDup (map pii_item_id (Sync.eventItems db (ec_id event))) ->
  NoDup (map dpi_id catalog) ->
  exists db' tr,
    Sync.saveItemsInfo api organizer event db = (Sync.Returned true, db', tr)
    /\ ItemPhase.storedItems db' (ec_id event)
       ≡ₚ ItemPhase.wantedItems (activeItemIDs event) catalog
    /\ NoDup (map fst (ItemPhase.storedItems db' (ec_id event)))
    /\ ItemPhase.idsWellFormed db'.
Proof.
  intros Hf Hall Hids Hkeys Hcat.
  pose proof (someActiveItemMissing_false _ _ Hall) as Hm.
  destruct (saveItemsInfo_closed_form api organizer event catalog db Hf Hm)
    as (tr & Heq & _).
  eexists _, tr. split; [exact Heq|].
  assert (NoDup (map fst (ItemPhase.storedItems
                            (ItemPhase.after (ec_id event) catalog
                               (activeItemIDs event) db) (ec_id event)))) as Hnd
    by (by apply stored_after_keys_distinct).
  split; [|split; [exact Hnd|by apply ids_after]].
  apply NoDup_Permutation.
  - by apply (NoDup_fmap_1 fst).
  - apply (NoDup_fmap_1 fst). unfold ItemPhase.wantedItems.
    rewrite <-list_fmap_compose.
    by apply newActive_keys_distinct.
  - intros [k n]. rewrite !list_elem_of_In. by apply stored_after_iff.
Qed.

Lemma saveItemsInfo_converges_witness :
  exists db' tr,
    Sync.saveItemsInfo Fixtures2.api Fixtures.organizer Fixtures.eventA
      Fixtures2.dbThreeEvents = (Sync.Returned true, db', tr)
    /\ ItemPhase.storedItems db' 1 ≡ₚ [("1", "GA")]
    /\ NoDup (map fst (ItemPhase.storedItems db' 1))
    /\ ItemPhase.idsWellFormed db'.
Proof.
  apply (saveItemsInfo_converges Fixtures2.api Fixtures.organizer Fixtures.eventA
           Fixtures2.dbThreeEvents Fixtures.catalog).
  - reflexivity.
  - intros a [<-|[]]. vm_compute. by left.
  - split.
    + apply (bool_decide_unpack _). vm_compute. exact I.
    + intros r Hr. vm_compute in Hr.
      destruct Hr as [<-|[<-|[<-|[<-|[]]]]]; reflexivity.
  - apply (bool_decide_unpack _). vm_compute. exact I.
  - apply (bool_decide_unpack _). vm_compute. exact I.
Defined.

(** X3. The item phase is idempotent: under the same conditions a second
    run of [saveItemsInfo] against the same catalog sends no statement to
    the item table and leaves the database as the first run left it. *)
Theorem saveItemsInfo_second_run_idle
    (api : Sync.IDevconnectPretixAPI)
    (organizer : DevconnectPretixOrganizerConfig)
    (event : DevconnectPretixEventConfig) (db : Sync.Db)
    (catalog : list DevconnectPretixItem) :
  Sync.fetchItems api (orgURL organizer) (token organizer) (eventID event)
    = Some catalog ->
  (forall a, In a (activeItemIDs event) ->
             In a (map (fun i => toString (dpi_id i)) catalog)) ->
  ItemPhase.idsWellFormed db ->
  NoDup (map pii_item_id (Sync.eventItems db (ec_id event))) ->
  NoDup (map dpi_id catalog) ->
  exists db1 tr1 tr2,
    Sync.saveItemsInfo api organizer event db = (Sync.Returned true, db1, tr1)
    /\ Sync.saveItemsInfo api organizer event db1 = (Sync.Returned true, db1, tr2)
    /\ List.filter writes_item_info tr2 = [].
Proof.
  intros Hf Hall Hids Hkeys Hcat.
  pose proof (someActiveItemMissing_false _ _ Hall) as Hm.
  destruct (saveItemsInfo_closed_form api organizer event catalog db Hf Hm)
    as (tr1 & Heq1 & _).
  destruct (saveItemsInfo_closed_form api organizer event catalog
              (ItemPhase.after (ec_id event) catalog (activeItemIDs event) db)
              Hf Hm) as (tr2 & Heq2 & Hw2).
  destruct (item_change_set_empty_after db (ec_id event) catalog
              (activeItemIDs event)) as (Hi & Hu & Hr); [done..|].
  rewrite (after_idle _ _ _ _ Hi Hu Hr) in Heq2.
  rewrite Hi, Hu, Hr in Hw2.
  eexists _, tr1, tr2. split; [exact Heq1|]. split; [exact Heq2|exact Hw2].
Qed.

Lemma saveItemsInfo_second_run_idle_witness :
  exists db1 tr1 tr2,
    Sync.saveItemsInfo Fixtures2.api Fixtures.organizer Fixtures.eventA
      Fixtures2.dbThreeEvents = (Sync.Returned true, db1, tr1)
    /\ Sync.saveItemsInfo Fixtures2.api Fixtures.organizer Fixtures.eventA db1
       = (Sync.Returned true, db1, tr2)
    /\ List.filter writes_item_info tr2 = [].
Proof.
  apply (saveItemsInfo_second_run_idle Fixtures2.api Fixtures.organizer
           Fixtures.eventA Fixtures2.dbThreeEvents Fixtures.catalog).
  - reflexivity.
  - intros a [<-|[]]. vm_compute. by left.
  - split.
    + apply (bool_decide_unpack _). vm_compute. exact I.
    + intros r Hr. vm_compute in Hr.
      destruct Hr as [<-|[<-|[<-|[<-|[]]]]]; reflexivity.
  - apply (bool_decide_unpack _). vm_compute. exact I.
  - apply (bool_decide_unpack _). vm_compute. exact I.
Defined.

(** X4. The item phase of one event never touches the item rows of another
    event: when ids are a primary key below the sequence, the rows stored for
    any other event are the same before and after [saveItemsInfo], whatever
    its outcome. *)
Theorem saveItemsInfo_leaves_other_events
    (api : Sync.IDevconnectPretixAPI)
    (organizer : DevconnectPretixOrganizerConfig)
    (event : DevconnectPretixEventConfig) (db : Sync.Db) (other : N) :
  ItemPhase.idsWellFormed db ->
  other <> ec_id event ->
  exists b db' tr,
    Sync.saveItemsInfo api organizer event db = (Sync.Returned b, db', tr)
    /\ Sync.eventItems db' other = Sync.eventItems db other.
Proof.
  intros Hids Hne.
  destruct (Sync.fetchItems api (orgURL organizer) (token organizer)
              (eventID event)) as [catalog|] eqn:Hf.
  - destruct (Sync.someActiveItemMissing (activeItemIDs event) catalog) eqn:Hm.
    + rewrite (saveItemsInfo_missing api organizer event catalog db Hf Hm).
      by eexists _, _, _.
    + destruct (saveItemsInfo_closed_form api organizer event catalog db Hf Hm)
        as (tr & -> & _).
      eexists _, _, _. split; [reflexivity|]. by apply other_event_untouched.
  - rewrite (saveItemsInfo_fetch_fails api organizer event db Hf).
    by eexists _, _, _.
Qed.

Lemma saveItemsInfo_leaves_other_events_witness :
  exists b db' tr,
    Sync.saveItemsInfo Fixtures2.api Fixtures.organizer Fixtures.eventA
      Fixtures2.dbThreeEvents = (Sync.Returned b, db', tr)
    /\ Sync.eventItems db' 2 = Sync.eventItems Fixtures2.dbThreeEvents 2.
Proof.
  apply (saveItemsInfo_leaves_other_events Fixtures2.api Fixtures.organizer
           Fixtures.eventA Fixtures2.dbThreeEvents 2).
  - split.
    + apply (bool_decide_unpack _). vm_compute. exact I.
    + intros r Hr. vm_compute in Hr.
      destruct Hr as [<-|[<-|[<-|[<-|[]]]]]; reflexivity.
  - discriminate.
Defined.

(** X5. An event that tracks no item: when [activeItemIDs] is empty and the
    catalog was fetched, [saveItemsInfo] returns [true], sends one delete for
    every row stored for the event and nothing else to the item table, and
    no row of the event is left. *)
Theorem saveItemsInfo_no_active_item_clears_event
    (api : Sync.IDevconnectPretixAPI)
    (organizer : DevconnectPretixOrganizerConfig)
    (event : DevconnectPretixEventConfig) (db : Sync.Db)
    (catalog : list DevconnectPretixItem) :
  Sync.fetchItems api (orgURL organizer) (token organizer) (eventID event)
    = Some catalog ->
  activeItemIDs event = [] ->
  exists db' tr,
    Sync.saveItemsInfo api organizer event db = (Sync.Returned true, db', tr)
    /\ List.filter writes_item_info tr
       = map DeleteItemInfo (map pii_id (Sync.eventItems db (ec_id event)))
    /\ Sync.eventItems db' (ec_id event) = [].
Proof.
  intros Hf Hempty.
  assert (Sync.someActiveItemMissing (activeItemIDs event) catalog = false) as Hm
    by by rewrite Hempty.
  destruct (saveItemsInfo_closed_form api organizer event catalog db Hf Hm)
    as (tr & Heq & Hw).
  assert (Sync.newActiveItemsOf (activeItemIDs event) catalog = []) as Hnew.
  { rewrite Hempty. apply filter_none. intros i _.
    apply bool_decide_eq_false_2. set_solver. }
  assert (Sync.itemsToRemove (Sync.eventItems db (ec_id event))
            (Sync.newActiveItemsOf (activeItemIDs event) catalog)
          = Sync.eventItems db (ec_id event)) as Hrm.
  { rewrite Hnew. apply filter_all. intros r _. apply negb_true_iff.
    rewrite desiredByKey_has. apply bool_decide_eq_false_2. set_solver. }
  eexists _, tr. split; [exact Heq|]. split.
  - rewrite Hw, Hrm, Hnew. done.
  - destruct (Sync.eventItems
                (ItemPhase.after (ec_id event) catalog (activeItemIDs event) db)
                (ec_id event)) as [|r' l] eqn:Hl; [done|].
    exfalso.
    assert (In r' (Sync.eventItems
                     (ItemPhase.after (ec_id event) catalog (activeItemIDs event) db)
                     (ec_id event))) as Hr' by (rewrite Hl; by left).
    apply In_eventItems in Hr' as [Hr' Hev].
    apply In_items_after in Hr' as (r & Hr & -> & Hnot).
    rewrite renameBy_event in Hev. rewrite Hrm in Hnot. rewrite Hnew in Hr.
    cbn in Hr. rewrite app_nil_r in Hr. apply Hnot, in_map.
    by apply In_eventItems.
Qed.

Lemma saveItemsInfo_no_active_item_clears_event_witness :
  exists db' tr,
    Sync.saveItemsInfo Fixtures2.api Fixtures.organizer Fixtures2.eventC
      Fixtures2.dbThreeEvents = (Sync.Returned true, db', tr)
    /\ List.filter writes_item_info tr = map DeleteItemInfo [13%N]
    /\ Sync.eventItems db' 3 = [].
Proof.
  apply (saveItemsInfo_no_active_item_clears_event Fixtures2.api
           Fixtures.organizer Fixtures2.eventC Fixtures2.dbThreeEvents
           Fixtures.catalog); reflexivity.
Defined.

(** ** The three phases together *)

Lemma filter_agree {A} (P f g : A -> bool) (l : list A) :
  forallb P l = true -> (forall x, P x = true -> f x = g x) ->
  List.filter f l = List.filter g l.
Proof.
  intros Hl Hfg. apply filter_ext_in. intros x Hx. apply Hfg.
  by apply (proj1 (forallb_forall P l) Hl).
Qed.

Lemma filter_absent {A} (P f : A -> bool) (l : list A) :
  forallb P l = true -> (forall x, P x = true -> f x = false) ->
  List.filter f l = [].
Proof.
  intros Hl Hf. apply filter_none. intros x Hx. apply Hf.
  by apply (proj1 (forallb_forall P l) Hl).
Qed.

(** Effects of the event phase, then of the item phase, then of the ticket
    phase: the writes come table by table. *)
Lemma writes_in_phase_order (l1 l2 l3 : list Effect) :
  forallb Laws.of_event_phase l1 = true ->
  forallb Laws.of_item_phase l2 = true ->
  forallb Laws.of_ticket_phase_only l3 = true ->
  List.filter Laws.is_write (l1 ++ l2 ++ l3) =
  List.filter writes_event_info (l1 ++ l2 ++ l3)
  ++ List.filter writes_item_info (l1 ++ l2 ++ l3)
  ++ List.filter writes_ticket (l1 ++ l2 ++ l3).
Proof.
  intros H1 H2 H3. rewrite !List.filter_app.
  assert (forall e, Laws.of_event_phase e = true ->
            Laws.is_write e = writes_event_info e
            /\ writes_item_info e = false /\ writes_ticket e = false) as E1.
  { intros e. unfold Laws.of_event_phase, Laws.is_write.
    destruct (writes_item_info e), (writes_ticket e), (writes_event_info e); done. }
  assert (forall e, Laws.of_item_phase e = true ->
            Laws.is_write e = writes_item_info e
            /\ writes_event_info e = false /\ writes_ticket e = false) as E2.
  { intros e. unfold Laws.of_item_phase, Laws.is_write.
    destruct (writes_item_info e), (writes_ticket e), (writes_event_info e); done. }
  assert (forall e, Laws.of_ticket_phase_only e = true ->
            Laws.is_write e = writes_ticket e
            /\ writes_event_info e = false /\ writes_item_info e = false) as E3.
  { intros e. unfold Laws.of_ticket_phase_only, Laws.is_write.
    destruct (writes_item_info e), (writes_ticket e), (writes_event_info e); done. }
  rewrite (filter_agree _ Laws.is_write writes_event_info l1 H1)
    by (intros; by apply E1).
  rewrite (filter_agree _ Laws.is_write writes_item_info l2 H2)
    by (intros; by apply E2).
  rewrite (filter_agree _ Laws.is_write writes_ticket l3 H3)
    by (intros; by apply E3).
  rewrite (filter_absent _ writes_item_info l1 H1) by (intros; by apply E1).
  rewrite (filter_absent _ writes_ticket l1 H1) by (intros; by apply E1).
  rewrite (filter_absent _ writes_event_info l2 H2) by (intros; by apply E2).
  rewrite (filter_absent _ writes_ticket l2 H2) by (intros; by apply E2).
  rewrite (filter_absent _ writes_event_info l3 H3) by (intros; by apply E3).
  rewrite (filter_absent _ writes_item_info l3 H3) by (intros; by apply E3).
  by rewrite !app_nil_r.
Qed.

(** X6. [syncAllPretixForOrganizerAndEvent] never throws, whatever the
    client and the database do to its phases, and its writes come phase by
    phase: all statements on the event table, then all statements on the item
    table, then all statements on the ticket table. *)
Theorem sync_pair_returns_and_orders_writes
    (api : Sync.IDevconnectPretixAPI)
    (organizer : DevconnectPretixOrganizerConfig)
    (event : DevconnectPretixEventConfig) (db : Sync.Db) :
  exists db' tr,
    Sync.syncAllPretixForOrganizerAndEvent api organizer event db
      = (Sync.Returned tt, db', tr)
    /\ List.filter Laws.is_write tr =
         List.filter writes_event_info tr
         ++ List.filter writes_item_info tr
         ++ List.filter writes_ticket tr.
Proof.
  unfold Sync.syncAllPretixForOrganizerAndEvent, Sync.bind, Sync.logger, Sync.emit.
  pose proof (saveEventInfo_emits api organizer event db) as He.
  destruct (saveEventInfo_returns api organizer event db) as (b1 & db1 & t1 & Heq1).
  rewrite Heq1 in *. cbn [fst snd] in He.
  destruct b1; cbn [negb].
  2:{ eexists _, _. split; [reflexivity|].
      change (Log (LogSyncing (orgURL organizer) (eventID event))
              :: t1 ++ [Log LogAbortingSync])
        with ((Log (LogSyncing (orgURL organizer) (eventID event)) :: t1)
              ++ [Log LogAbortingSync] ++ []).
      apply (writes_in_phase_order (Log (LogSyncing (orgURL organizer) (eventID event)) :: t1) [Log LogAbortingSync] []);
        [exact He|done|done]. }
  pose proof (saveItemsInfo_emits api organizer event db1) as Hi.
  destruct (saveItemsInfo_returns api organizer event db1) as (b2 & db2 & t2 & Heq2).
  rewrite Heq2 in *. cbn [fst snd] in Hi.
  destruct b2; cbn [negb].
  2:{ eexists _, _. split; [reflexivity|].
      change (Log (LogSyncing (orgURL organizer) (eventID event))
              :: t1 ++ t2 ++ [Log LogAbortingSync])
        with ((Log (LogSyncing (orgURL organizer) (eventID event)) :: t1)
              ++ t2 ++ [Log LogAbortingSync]).
      apply (writes_in_phase_order (Log (LogSyncing (orgURL organizer) (eventID event)) :: t1) t2 [Log LogAbortingSync]);
        [exact He|exact Hi|done]. }
  pose proof (saveTickets_emits api organizer event db2) as Ht.
  destruct (saveTickets_returns api organizer event db2) as (b3 & db3 & t3 & Heq3).
  rewrite Heq3 in *. cbn [fst snd] in Ht.
  destruct b3; cbn [negb]; (eexists _, _; split; [reflexivity|]).
  - change (Log (LogSyncing (orgURL organizer) (eventID event))
            :: t1 ++ t2 ++ t3 ++ [])
      with ((Log (LogSyncing (orgURL organizer) (eventID event)) :: t1)
            ++ t2 ++ (t3 ++ [])).
    apply (writes_in_phase_order (Log (LogSyncing (orgURL organizer) (eventID event)) :: t1) t2 (t3 ++ []));
      [exact He|exact Hi|]. by rewrite app_nil_r.
  - change (Log (LogSyncing (orgURL organizer) (eventID event))
            :: t1 ++ t2 ++ t3 ++ [Log LogErrorUpdatingTickets])
      with ((Log (LogSyncing (orgURL organizer) (eventID event)) :: t1)
            ++ t2 ++ (t3 ++ [Log LogErrorUpdatingTickets])).
    apply (writes_in_phase_order (Log (LogSyncing (orgURL organizer) (eventID event)) :: t1) t2
             (t3 ++ [Log LogErrorUpdatingTickets])); [exact He|exact Hi|].
    by rewrite forallb_app, Ht.
Qed.

(** X7. When the event cannot be fetched,
    [syncAllPretixForOrganizerAndEvent] stops after the event phase: it calls
    neither [fetchItems] nor [fetchOrders], sends no statement at all, and
    leaves the database as it was. *)
Theorem sync_pair_stops_when_event_fetch_fails
    (api : Sync.IDevconnectPretixAPI)
    (organizer : DevconnectPretixOrganizerConfig)
    (event : DevconnectPretixEventConfig) (db : Sync.Db) :
  Sync.fetchEvent api (orgURL organizer) (token organizer) (eventID event) = None ->
  Sync.syncAllPretixForOrganizerAndEvent api organizer event db =
  (Sync.Returned tt, db,
   [Log (LogSyncing (orgURL organizer) (eventID event));
    ApiFetchEvent (orgURL organizer) (token organizer) (eventID event);
    Log (LogErrorSyncingEvent (orgURL organizer) (eventID event));
    Log LogAbortingSync]).
Proof.
  intros Hf.
  unfold Sync.syncAllPretixForOrganizerAndEvent, Sync.saveEventInfo,
    Sync.try_catch, Sync.bind, Sync.await, Sync.logger, Sync.emit.
  by rewrite Hf.
Qed.

Lemma sync_pair_stops_when_event_fetch_fails_witness :
  Sync.syncAllPretixForOrganizerAndEvent Fixtures3.apiDown Fixtures.organizer
    Fixtures.eventA Fixtures.dbItems =
  (Sync.Returned tt, Fixtures.dbItems,
   [Log (LogSyncing "organizer-url" "event-a");
    ApiFetchEvent "organizer-url" "token" "event-a";
    Log (LogErrorSyncingEvent "organizer-url" "event-a");
    Log LogAbortingSync]).
Proof.
  apply (sync_pair_stops_when_event_fetch_fails Fixtures3.apiDown
           Fixtures.organizer Fixtures.eventA Fixtures.dbItems).
  reflexivity.
Defined.

(** X8. [saveTickets] always returns, and returns [true] exactly when the
    orders were fetched.  It sends no statement to the event or item tables
    and leaves both as they were; when the orders cannot be fetched it does
    nothing but log the error, and the database is as it was.  Statements
    sent to the database are taken to succeed. *)
Theorem saveTickets_succeeds_iff
    (api : Sync.IDevconnectPretixAPI)
    (organizer : DevconnectPretixOrganizerConfig)
    (event : DevconnectPretixEventConfig) (db : Sync.Db) :
  exists b db' tr,
    Sync.saveTickets api organizer event db = (Sync.Returned b, db', tr)
    /\ Sync.events_info db' = Sync.events_info db
    /\ Sync.items_info db' = Sync.items_info db
    /\ forallb Laws.of_ticket_phase_only tr = true
    /\ (b = true <->
        Sync.fetchOrders api (orgURL organizer) (token organizer)
          (eventID event) <> None)
    /\ (b = false ->
        db' = db
        /\ tr = [ApiFetchOrders (orgURL organizer) (token organizer)
                   (eventID event);
                 Log (LogErrorSyncing (orgURL organizer) (eventID event))]).
Proof.
  pose proof (saveTickets_emits api organizer event db) as Hem.
  destruct (Sync.fetchOrders api (orgURL organizer) (token organizer)
              (eventID event)) as [orders|] eqn:Hf.
  - destruct (saveTickets_closed_form api organizer event orders db Hf)
      as (tr & Heq & _).
    rewrite Heq in *. eexists _, _, _. split; [reflexivity|].
    repeat split; try done.
  - assert (Sync.saveTickets api organizer event db =
            (Sync.Returned false, db,
             [ApiFetchOrders (orgURL organizer) (token organizer) (eventID event);
              Log (LogErrorSyncing (orgURL organizer) (eventID event))])) as Heq.
    { unfold Sync.saveTickets, Sync.try_catch, Sync.bind, Sync.await.
      by rewrite Hf. }
    rewrite Heq in *. eexists _, _, _. split; [reflexivity|].
    repeat split; try done.
Qed.

(** X9. The ticket phase never removes a ticket row: after [saveTickets]
    on fetched orders the table holds the rows it held, in the same order and
    with the same email and owning item, followed by the inserted candidates;
    a row that was flagged as deleted is still flagged. *)
Theorem saveTickets_retains_rows
    (api : Sync.IDevconnectPretixAPI)
    (organizer : DevconnectPretixOrganizerConfig)
    (event : DevconnectPretixEventConfig)
    (orders : list DevconnectPretixOrder) (db : Sync.Db) :
  Sync.fetchOrders api (orgURL organizer) (token organizer) (eventID event)
    = Some orders ->
  exists db' tr,
    Sync.saveTickets api organizer event db = (Sync.Returned true, db', tr)
    /\ map Sync.getEmailAndItemKey (Sync.tickets db') =
         map Sync.getEmailAndItemKey (Sync.tickets db)
         ++ map Sync.getEmailAndItemKey
              (Sync.newTicketsOf (Sync.storedTickets db (ec_id event))
                 (Sync.candidates db (ec_id event) orders))
    /\ Forall2 (fun before now => is_deleted before = true -> is_deleted now = true)
         (Sync.tickets db)
         (take (length (Sync.tickets db)) (Sync.tickets db')).
Proof.
  intros Hf.
  destruct (saveTickets_closed_form api organizer event orders db Hf)
    as (tr & Heq & _).
  eexists _, tr. split; [exact Heq|]. cbn [Sync.tickets Sync.set_tickets].
  rewrite applyTicketChanges_rows. split.
  - rewrite map_map, (map_ext _ Sync.getEmailAndItemKey)
      by (intros; apply rowAfter_key).
    by rewrite map_app.
  - rewrite map_app, take_app_length'. 2:{ by rewrite length_map. }
    apply Forall2_fmap_r, Forall_Forall2_diag, Forall_forall.
    intros r _ Hd. by rewrite rowAfter_deleted, Hd.
Qed.

Lemma saveTickets_retains_rows_witness :
  exists db' tr,
    Sync.saveTickets Fixtures3.api Fixtures.organizer Fixtures.eventA
      Fixtures.dbItems = (Sync.Returned true, db', tr)
    /\ map Sync.getEmailAndItemKey (Sync.tickets db') = [("x@y.com", 10%N)].
Proof.
  destruct (saveTickets_retains_rows Fixtures3.api Fixtures.organizer
              Fixtures.eventA [Fixtures3.singleOrder] Fixtures.dbItems eq_refl)
    as (db' & tr & Heq & Hkeys & _).
  exists db', tr. split; [exact Heq|]. rewrite Hkeys. vm_compute. reflexivity.
Defined.

Lemma saveTickets_keeps_invariant_when_candidates_distinct_witness :
  exists db' tr,
    Sync.saveTickets Fixtures3.api Fixtures.organizer Fixtures.eventA
      Fixtures.dbItems = (Sync.Returned true, db', tr)
    /\ Sync.ticketInvariant db'.
Proof.
  apply (saveTickets_keeps_invariant_when_candidates_distinct Fixtures3.api
           Fixtures.organizer Fixtures.eventA [Fixtures3.singleOrder]
           Fixtures.dbItems).
  - reflexivity.
  - apply (bool_decide_unpack _). vm_compute. exact I.
  - apply (bool_decide_unpack _). vm_compute. exact I.
Defined.

Lemma saveTickets_second_run_idle_when_candidates_distinct_witness :
  exists db1 tr1 tr2,
    Sync.saveTickets Fixtures3.api Fixtures.organizer Fixtures.eventA
      Fixtures.dbItems = (Sync.Returned true, db1, tr1)
    /\ Sync.saveTickets Fixtures3.api Fixtures.organizer Fixtures.eventA db1
       = (Sync.Returned true, db1, tr2)
    /\ List.filter writes_ticket tr2 = [].
Proof.
  apply (saveTickets_second_run_idle_when_candidates_distinct Fixtures3.api
           Fixtures.organizer Fixtures.eventA [Fixtures3.singleOrder]
           Fixtures.dbItems).
  - reflexivity.
  - apply (bool_decide_unpack _). vm_compute. exact I.
  - apply (bool_decide_unpack _). vm_compute. exact I.
Defined.

(** ** More on the projection *)

Section projection_more.
Import Projection ProjectionSpec.

Lemma tracked_lookup itemsInfo op :
  tracked itemsInfo op = true
  <-> is_Some (itemsInfoByItemID itemsInfo !! toString (item op.2)).
Proof.
  unfold tracked, itemsInfoByItemID.
  rewrite <-not_eq_None_Some, of_entries_lookup_None, <-list_fmap_compose.
  rewrite existsb_exists. split.
  - intros (i & Hi & Heq%String.eqb_eq) Hnot. apply Hnot.
    apply list_elem_of_fmap. exists i. by rewrite list_elem_of_In.
  - intros Hin. apply dec_stable in Hin.
    apply list_elem_of_fmap in Hin as (i & Hk & Hi%list_elem_of_In).
    exists i. split; [done|]. apply String.eqb_eq. by rewrite Hk.
Qed.

Lemma positionTickets_length itemsInfo op :
  length (positionTickets (itemsInfoByItemID itemsInfo) op.1 op.2)
  = if tracked itemsInfo op then 1 else 0.
Proof.
  destruct (itemsInfoByItemID itemsInfo !! toString (item op.2)) as [info|] eqn:Hl.
  - rewrite (positionTickets_tracked _ _ _ info Hl).
    assert (tracked itemsInfo op = true) as -> by (apply tracked_lookup; eauto).
    done.
  - rewrite (proj1 (positionTickets_untracked _ _ _ Hl)).
    destruct (tracked itemsInfo op) eqn:Ht; [|done].
    apply tracked_lookup in Ht as [? ?]. congruence.
Qed.

Lemma positionLogs_length itemsInfo op :
  length (positionLogs (itemsInfoByItemID itemsInfo) op.1 op.2)
  = if tracked itemsInfo op && lacksEmail op then 1 else 0.
Proof.
  unfold lacksEmail.
  destruct (itemsInfoByItemID itemsInfo !! toString (item op.2)) as [info|] eqn:Hl.
  - rewrite (positionLogs_tracked _ _ _ info Hl).
    assert (tracked itemsInfo op = true) as -> by (apply tracked_lookup; eauto).
    by destruct (truthy (attendee_email op.2)).
  - rewrite (proj2 (positionTickets_untracked _ _ _ Hl)).
    destruct (tracked itemsInfo op) eqn:Ht; [|done].
    apply tracked_lookup in Ht as [? ?]. congruence.
Qed.

(** The two nested loops are one pass over the positions of the paid
    orders. *)
Lemma projection_comprehension orders itemsInfo :
  ordersToDevconnectTickets orders itemsInfo =
  (flat_map (fun op => positionTickets (itemsInfoByItemID itemsInfo) op.1 op.2)
     (paidPositions orders),
   flat_map (fun op => positionLogs (itemsInfoByItemID itemsInfo) op.1 op.2)
     (paidPositions orders)).
Proof.
  rewrite ordersToDevconnectTickets_flat. unfold paidPositions.
  induction orders as [|o orders IH]; [done|]. cbn [flat_map List.filter].
  injection IH as IH1 IH2. rewrite IH1, IH2.
  destruct (String.eqb_spec (ord_status o) "p") as [Hp|Hp].
  - destruct (orderTickets_paid (itemsInfoByItemID itemsInfo) o Hp) as [-> ->].
    cbn [flat_map]. rewrite !flat_map_app. f_equal; f_equal.
    + induction (ord_positions o) as [|p ps IHp]; [done|]. simpl. by rewrite IHp.
    + induction (ord_positions o) as [|p ps IHp]; [done|]. simpl. by rewrite IHp.
  - by destruct (orderTickets_unpaid (itemsInfoByItemID itemsInfo) o Hp)
      as [-> ->].
Qed.

Lemma length_flat_map_01 {A B} (f : A -> list B) (p : A -> bool) (l : list A) :
  (forall x, length (f x) = if p x then 1 else 0) ->
  length (flat_map f l) = length (List.filter p l).
Proof.
  intros Hf. induction l as [|x l IH]; [done|]. simpl.
  rewrite length_app, Hf, IH. by destruct (p x).
Qed.

Lemma lower_ascii_not_upper c : is_upper (lower_ascii c) = false.
Proof. destruct c as [[] [] [] [] [] [] [] []]; reflexivity. Qed.

Lemma toLowerCase_no_upper s : has_upper (toLowerCase s) = false.
Proof.
  unfold has_upper. induction s as [|c s IH]; [done|]. simpl.
  by rewrite lower_ascii_not_upper, IH.
Qed.
End projection_more.

(** X10. [ordersToDevconnectTickets] emits one ticket for each position of a
    paid order whose item has a row in [itemsInfo], in the order of the
    orders and of their positions, named after the attendee; it logs one
    line for each of these positions that has no attendee email.  So there
    are no more log lines than tickets, and no more tickets than positions
    in paid orders. *)
Theorem projection_counts
    (orders : list DevconnectPretixOrder) (itemsInfo : list PretixItemInfo) :
  let out := Projection.ordersToDevconnectTickets orders itemsInfo in
  let kept := List.filter (ProjectionSpec.tracked itemsInfo)
                (ProjectionSpec.paidPositions orders) in
  map full_name out.1 = map (fun op => attendee_name op.2) kept
  /\ length out.2 = length (List.filter ProjectionSpec.lacksEmail kept)
  /\ length out.2 <= length out.1
     <= length (ProjectionSpec.paidPositions orders).
Proof.
  intros out kept. subst out kept. rewrite projection_comprehension.
  cbn [fst snd].
  assert (forall l,
    map full_name
      (flat_map (fun op => Projection.positionTickets
                             (Projection.itemsInfoByItemID itemsInfo) op.1 op.2) l)
    = map (fun op => attendee_name op.2)
        (List.filter (ProjectionSpec.tracked itemsInfo) l)) as Hnames.
  { induction l as [|op l IH]; [done|]. cbn [flat_map List.filter].
    rewrite map_app, IH.
    destruct (Projection.itemsInfoByItemID itemsInfo !! toString (item op.2))
      as [info|] eqn:Hl.
    - rewrite (positionTickets_tracked _ _ _ info Hl).
      assert (ProjectionSpec.tracked itemsInfo op = true) as ->
        by (apply tracked_lookup; eauto).
      done.
    - rewrite (proj1 (positionTickets_untracked _ _ _ Hl)).
      destruct (ProjectionSpec.tracked itemsInfo op) eqn:Ht; [|done].
      apply tracked_lookup in Ht as [? ?]. congruence. }
  assert (length (flat_map
            (fun op => Projection.positionLogs
                         (Projection.itemsInfoByItemID itemsInfo) op.1 op.2)
            (ProjectionSpec.paidPositions orders))
          = length (List.filter ProjectionSpec.lacksEmail
                      (List.filter (ProjectionSpec.tracked itemsInfo)
                         (ProjectionSpec.paidPositions orders)))) as Hlogs.
  { rewrite filter_andb.
    apply (length_flat_map_01 _
             (fun op => ProjectionSpec.tracked itemsInfo op
                        && ProjectionSpec.lacksEmail op)).
    intros op. apply positionLogs_length. }
  split; [apply Hnames|]. split; [exact Hlogs|].
  rewrite Hlogs.
  rewrite (length_flat_map_01 _ (ProjectionSpec.tracked itemsInfo))
    by (intros op; apply positionTickets_length).
  split; apply filter_length_le.
Qed.

(** X11. Orders are projected independently of one another: the tickets and
    log lines of two order lists put end to end are those of the first
    followed by those of the second, and reordering the orders only reorders
    the tickets. *)
Theorem projection_is_per_order
    (orders1 orders2 orders' : list DevconnectPretixOrder)
    (itemsInfo : list PretixItemInfo) :
  orders1 ++ orders2 ≡ₚ orders' ->
  let project := fun os => Projection.ordersToDevconnectTickets os itemsInfo in
  (project (orders1 ++ orders2)).1 = (project orders1).1 ++ (project orders2).1
  /\ (project (orders1 ++ orders2)).2 = (project orders1).2 ++ (project orders2).2
  /\ (project orders').1 ≡ₚ (project orders1).1 ++ (project orders2).1.
Proof.
  intros Hp project. subst project. cbv beta.
  rewrite !ordersToDevconnectTickets_flat. cbn [fst snd].
  rewrite !flat_map_app. split; [done|]. split; [done|].
  rewrite <-flat_map_app. symmetry.
  change (flat_map ?f ?l) with (mbind f l). by rewrite Hp.
Qed.

Lemma projection_is_per_order_witness :
  (Projection.ordersToDevconnectTickets
     [Fixtures.pendingOrder; Fixtures.paidOrder] [Fixtures.rowGA]).1
  ≡ₚ (Projection.ordersToDevconnectTickets [Fixtures.paidOrder] [Fixtures.rowGA]).1
     ++ (Projection.ordersToDevconnectTickets [Fixtures.pendingOrder]
           [Fixtures.rowGA]).1.
Proof.
  apply (projection_is_per_order [Fixtures.paidOrder] [Fixtures.pendingOrder]
           [Fixtures.pendingOrder; Fixtures.paidOrder] [Fixtures.rowGA]).
  apply perm_swap.
Defined.

(** X12. No email emitted by [ordersToDevconnectTickets] holds an ASCII
    capital letter, whichever of the attendee email and the purchaser email
    it comes from. *)
Theorem projected_emails_have_no_capital
    (orders : list DevconnectPretixOrder) (itemsInfo : list PretixItemInfo)
    (t : DevconnectPretixTicket) :
  In t (Projection.ordersToDevconnectTickets orders itemsInfo).1 ->
  ProjectionSpec.has_upper (email t) = false.
Proof.
  rewrite projection_comprehension. cbn [fst].
  intros (op & _ & Ht)%in_flat_map.
  destruct (Projection.itemsInfoByItemID itemsInfo !! toString (item op.2))
    as [info|] eqn:Hl.
  - rewrite (positionTickets_tracked _ _ _ info Hl) in Ht.
    destruct Ht as [<-|[]]. apply toLowerCase_no_upper.
  - by rewrite (proj1 (positionTickets_untracked _ _ _ Hl)) in Ht.
Qed.

Lemma projected_emails_have_no_capital_witness :
  ProjectionSpec.has_upper "x@y.com" = false.
Proof.
  apply (projected_emails_have_no_capital [Fixtures.paidOrder] [Fixtures.rowGA]
           {| email := "x@y.com"; full_name := "Alice";
              devconnect_pretix_items_info_id := 10; is_deleted := false |}).
  vm_compute. by left.
Defined.

(** X13. The ticket phase only creates tickets for the event it syncs: every
    candidate [saveTickets] projects from the orders is owned by an item row
    of that event and is not flagged as deleted. *)
Theorem candidates_belong_to_event
    (db : Sync.Db) (cfg : N) (orders : list DevconnectPretixOrder)
    (t : DevconnectPretixTicket) :
  In t (Sync.candidates db cfg orders) ->
  is_deleted t = false
  /\ exists info, In info (Sync.items_info db)
                  /\ pii_events_info_id info = cfg
                  /\ devconnect_pretix_items_info_id t = pii_id info.
Proof.
  intros (Hd & _ & info & Hinfo & Hid)%projected_ticket_shape.
  split; [done|]. exists info. by apply In_eventItems in Hinfo as [? ?].
Qed.

Lemma candidates_belong_to_event_witness :
  is_deleted {| email := "x@y.com"; full_name := "Alice";
                devconnect_pretix_items_info_id := 10; is_deleted := false |}
  = false
  /\ exists info, In info (Sync.items_info Fixtures.dbItems)
                  /\ pii_events_info_id info = 1%N
                  /\ 10%N = pii_id info.
Proof.
  apply (candidates_belong_to_event Fixtures.dbItems 1 [Fixtures3.singleOrder]
           {| email := "x@y.com"; full_name := "Alice";
              devconnect_pretix_items_info_id := 10; is_deleted := false |}).
  vm_compute. by left.
Defined.

(** ** The service object *)

Section Service_facts.
Import Service.
Context {API : Type}.
Implicit Types (s : State API) (e : Event API) (evs : list (Event API)).

Lemma run_app s evs1 evs2 :
  run s (evs1 ++ evs2) =
  match run s evs1 with Some s' => run s' evs2 | None => None end.
Proof.
  revert s. induction evs1 as [|e evs1 IH]; intros s; [done|]. simpl.
  destruct (step s e); [apply IH|done].
Qed.

Lemma run_snoc s evs e s' :
  run s (evs ++ [e]) = Some s' ->
  exists s1, run s evs = Some s1 /\ step s1 e = Some s'.
Proof.
  rewrite run_app. destruct (run s evs) as [s1|]; [|done]. simpl.
  destruct (step s1 e) as [s2|] eqn:Hs; [|done]. intros [= <-]. eauto.
Qed.

(** What one step does to the flag. *)
Lemma step_flag s e s' :
  step s e = Some s' ->
  hasCompletedSyncSinceStarting s' =
  match e with
  | CycleSucceeds => true
  | CallReplaceApi _ => false
  | _ => hasCompletedSyncSinceStarting s
  end.
Proof.
  destruct e; simpl; try (by intros [= <-]).
  - intros [= <-]. unfold replaceApi.
    by destruct (Scheduler.timeout (sched s)).
  - unfold settle. destruct (Scheduler.in_flight (sched s)); [done|].
    by intros [= <-].
  - unfold settle. destruct (Scheduler.in_flight (sched s)); [done|].
    by intros [= <-].
  - destruct (existsb _ _); [|done]. by intros [= <-].
Qed.

Lemma flag_after s0 evs s :
  hasCompletedSyncSinceStarting s0 = false ->
  run s0 evs = Some s ->
  hasCompletedSyncSinceStarting s = true <->
  exists pre post, evs = pre ++ CycleSucceeds :: post
                   /\ forallb (fun e => negb (is_replace e)) post = true.
Proof.
  intros H0. revert s. induction evs as [|e evs IH] using rev_ind; intros s Hrun.
  - injection Hrun as <-. rewrite H0. split; [done|].
    intros (pre & post & Heq & _). by destruct pre.
  - apply run_snoc in Hrun as (s1 & Hrun & Hstep).
    rewrite (step_flag _ _ _ Hstep). specialize (IH s1 Hrun).
    assert (forall pre post,
              evs ++ [e] = pre ++ CycleSucceeds :: post ->
              (post = [] /\ e = CycleSucceeds /\ evs = pre)
              \/ exists post', post = post' ++ [e]
                               /\ evs = pre ++ CycleSucceeds :: post') as Hsplit.
    { intros pre post Heq. destruct post as [|x post _] using rev_ind.
      - left. apply app_inj_tail in Heq as [-> ->]. done.
      - right. rewrite app_comm_cons, app_assoc in Heq.
        apply app_inj_tail in Heq as [-> ->]. by exists post. }
    assert (e = CycleSucceeds \/ e <> CycleSucceeds) as [->|Hns]
      by (destruct e; (by left) || (by right)).
    { split; [|done]. intros _. by exists evs, []. }
    destruct (is_replace e) eqn:Hrep.
    { destruct e; try done. split; [done|].
      intros (pre & post & Heq & Hpost).
      destruct (Hsplit pre post Heq) as [(_ & ? & _)|(post' & -> & _)]; [done|].
      rewrite forallb_app in Hpost. simpl in Hpost.
      by rewrite andb_false_r in Hpost. }
    assert (match e with
            | CycleSucceeds => true
            | CallReplaceApi _ => false
            | _ => hasCompletedSyncSinceStarting s1
            end = hasCompletedSyncSinceStarting s1) as -> by by destruct e.
    rewrite IH. split.
    + intros (pre & post & -> & Hpost). exists pre, (post ++ [e]).
      split; [by rewrite <-app_assoc|].
      rewrite forallb_app, Hpost. simpl. by rewrite Hrep.
    + intros (pre & post & Heq & Hpost).
      destruct (Hsplit pre post Heq) as [(_ & ? & _)|(post' & -> & ->)]; [done|].
      exists pre, post'. split; [done|].
      rewrite forallb_app in Hpost. by apply andb_true_iff in Hpost as [? _].
Qed.

Lemma one_loop_step s e s' :
  one_loop s -> calm s e = true -> step s e = Some s' -> one_loop s'.
Proof.
  intros [Hle Harm] Hcalm Hstep. unfold one_loop in *.
  destruct s as [sc api fl]. destruct sc as [tm ar nx fl' cs]. simpl in *.
  destruct e; simpl in *; try done.
  - (* stop *)
    injection Hstep as <-. unfold Scheduler.stop. simpl.
    destruct tm as [h|]; simpl; [|done]. split.
    + pose proof (filter_length_le (fun h' => negb (N.eqb h' h)) ar). lia.
    + intros h' [Hin _]%filter_In. by apply Harm.
  - (* replaceApi *)
    injection Hstep as <-. unfold replaceApi. simpl.
    destruct tm as [h|]; simpl; [|done].
    rewrite orb_false_r in Hcalm. apply Nat.eqb_eq in Hcalm. subst fl'.
    rewrite (filter_none _ ar).
    2:{ intros h' Hh'. specialize (Harm h' Hh'). injection Harm as ->.
        by rewrite N.eqb_refl. }
    simpl. split; [lia|done].
  - (* the cycle succeeds *)
    unfold settle in Hstep. simpl in Hstep. destruct fl' as [|n]; [done|].
    injection Hstep as <-. simpl.
    assert (ar = []) as -> by (destruct ar; [done|simpl in Hle; lia]).
    simpl. split; [lia|]. by intros h [<-|[]].
  - (* the cycle fails *)
    unfold settle in Hstep. simpl in Hstep. destruct fl' as [|n]; [done|].
    injection Hstep as <-. simpl.
    assert (ar = []) as -> by (destruct ar; [done|simpl in Hle; lia]).
    simpl. split; [lia|]. by intros h' [<-|[]].
  - (* the timer fires *)
    destruct (existsb (N.eqb h) ar) eqn:Hex; [|done]. injection Hstep as <-.
    simpl. apply existsb_exists in Hex as (h' & Hh' & <-%N.eqb_eq).
    destruct ar as [|x [|y ar]]; [done| |simpl in Hle; lia].
    destruct Hh' as [->|[]]. simpl in *. rewrite N.eqb_refl. simpl.
    split; [lia|done].
Qed.

Lemma one_loop_run s evs s' :
  one_loop s -> calm_run s evs = true -> run s evs = Some s' -> one_loop s'.
Proof.
  revert s. induction evs as [|e evs IH]; intros s Hone Hcalm Hrun.
  - by injection Hrun as <-.
  - simpl in *. apply andb_true_iff in Hcalm as [Hc Hrest].
    destruct (step s e) as [s1|] eqn:Hstep; [|done].
    apply (IH s1); [by apply (one_loop_step s e)|done|done].
Qed.
End Service_facts.

(** X14. The readiness flag tells the outcome of the last relevant event:
    starting from a new service, [hasCompletedSyncSinceStarting] is [true]
    exactly when some cycle has succeeded and [replaceApi] has not been called
    since.  Failed cycles, [stop()] and timers leave it as it is. *)
Theorem readiness_flag_reflects_last_success
    {API : Type} (api : API) (evs : list (Service.Event API))
    (s : Service.State API) :
  Service.run (Service.construct api) evs = Some s ->
  Service.hasCompletedSyncSinceStarting s = true <->
  exists pre post,
    evs = pre ++ Service.CycleSucceeds :: post
    /\ forallb (fun e => negb (Service.is_replace e)) post = true.
Proof. intros Hrun. by apply (flag_after (Service.construct api)). Qed.

Lemma readiness_flag_reflects_last_success_witness :
  exists s,
    Service.run (Service.construct tt)
      [Service.CallStartSyncLoop; Service.CycleSucceeds; Service.TimerFires 0;
       Service.CycleFails] = Some s
    /\ Service.hasCompletedSyncSinceStarting s = true.
Proof.
  eexists. split; [reflexivity|].
  apply (readiness_flag_reflects_last_success tt
           [Service.CallStartSyncLoop; Service.CycleSucceeds;
            Service.TimerFires 0; Service.CycleFails]); [reflexivity|].
  exists [Service.CallStartSyncLoop], [Service.TimerFires 0; Service.CycleFails].
  split; reflexivity.
Defined.

(** X15. The loop never overlaps itself.  In a service obtained from
    [startDevconnectPretixSyncService], as long as [startSyncLoop] is not
    called again and [replaceApi] is only called while no cycle is in flight
    (or before the first timer was set), there is at every moment at most one
    cycle in flight or one timer armed, never both: the next cycle is
    scheduled only once the previous one has settled, whether it succeeded or
    failed. *)
Theorem started_service_keeps_one_loop
    {API : Type} (isZuzalu : bool) (devconnectPretixAPI : option API)
    (s0 s : Service.State API) (evs : list (Service.Event API)) :
  Service.startDevconnectPretixSyncService isZuzalu devconnectPretixAPI = Some s0 ->
  Service.calm_run s0 evs = true ->
  Service.run s0 evs = Some s ->
  isZuzalu = false
  /\ Scheduler.in_flight (Service.sched s)
     + length (Scheduler.armed (Service.sched s)) <= 1.
Proof.
  intros Hstart Hcalm Hrun.
  unfold Service.startDevconnectPretixSyncService in Hstart.
  destruct isZuzalu; [done|]. destruct devconnectPretixAPI as [api|]; [|done].
  injection Hstart as <-. split; [done|].
  apply (one_loop_run (Service.startSyncLoop (Service.construct api)) evs s);
    [|done|done].
  split; [simpl; lia|]. by intros h [].
Qed.

Lemma started_service_keeps_one_loop_witness :
  match Service.run (Service.startSyncLoop (Service.construct tt))
          [Service.CycleFails; Service.CallReplaceApi tt;
           Service.CycleSucceeds; Service.TimerFires 1] with
  | Some s =>
      Scheduler.in_flight (Service.sched s)
      + length (Scheduler.armed (Service.sched s)) <= 1
  | None => False
  end.
Proof.
  destruct (Service.run (Service.startSyncLoop (Service.construct tt))
              [Service.CycleFails; Service.CallReplaceApi tt;
               Service.CycleSucceeds; Service.TimerFires 1]) as [s|] eqn:Hrun.
  - apply (started_service_keeps_one_loop false (Some tt)
             (Service.startSyncLoop (Service.construct tt)) s
             [Service.CycleFails; Service.CallReplaceApi tt;
              Service.CycleSucceeds; Service.TimerFires 1]
             eq_refl eq_refl Hrun).
  - vm_compute in Hrun. discriminate Hrun.
Defined.

(** ** The queries on the item table *)



(** ** The mock client *)

Lemma sync_pair_event_fetch_fails api organizer event db :
  Sync.fetchEvent api (orgURL organizer) (token organizer) (eventID event) = None ->
  Sync.syncAllPretixForOrganizerAndEvent api organizer event db =
  (Sync.Returned tt, db,
   [Log (LogSyncing (orgURL organizer) (eventID event));
    ApiFetchEvent (orgURL organizer) (token organizer) (eventID event);
    Log (LogErrorSyncingEvent (orgURL organizer) (eventID event));
    Log LogAbortingSync]).
Proof.
  intros Hf.
  unfold Sync.syncAllPretixForOrganizerAndEvent, Sync.saveEventInfo,
    Sync.try_catch, Sync.bind, Sync.await, Sync.logger, Sync.emit.
  by rewrite Hf.
Qed.

(** X17. With the mock client, an event is synced only if the mock data
    gives it a non-empty name: for an event id without a name, or with the
    empty name, [fetchEvent] throws, and
    [syncAllPretixForOrganizerAndEvent] leaves the database as it was
    without asking for items or orders. *)
Theorem mock_event_without_name_is_not_synced
    (c : Mock.Constants) (mockData : Mock.IMockDevconnectPretixData)
    (organizer : DevconnectPretixOrganizerConfig)
    (event : DevconnectPretixEventConfig) (db : Sync.Db) :
  truthy (Mock.eventNameByEventID mockData !! eventID event) = false ->
  Sync.syncAllPretixForOrganizerAndEvent
    (Mock.getDevconnectMockPretixAPI c mockData) organizer event db =
  (Sync.Returned tt, db,
   [Log (LogSyncing (orgURL organizer) (eventID event));
    ApiFetchEvent (orgURL organizer) (token organizer) (eventID event);
    Log (LogErrorSyncingEvent (orgURL organizer) (eventID event));
    Log LogAbortingSync]).
Proof.
  intros Hname. apply sync_pair_event_fetch_fails. simpl. by rewrite Hname.
Qed.

Lemma mock_event_without_name_is_not_synced_witness :
  (Sync.syncAllPretixForOrganizerAndEvent
     (Mock.getDevconnectMockPretixAPI Fixtures4.constants Fixtures4.mockData)
     Fixtures.organizer Fixtures2.eventB Fixtures2.dbThreeEvents).1.2
  = Fixtures2.dbThreeEvents.
Proof.
  rewrite (mock_event_without_name_is_not_synced Fixtures4.constants
             Fixtures4.mockData Fixtures.organizer Fixtures2.eventB
             Fixtures2.dbThreeEvents); [reflexivity|].
  vm_compute. reflexivity.
Defined.

(** X18. The mock configuration agrees with the mock catalog: for every
    event of [MOCK_PRETIX_API_CONFIG], whatever the constants and the mock
    data, [saveItemsInfo] against the mock client finds all active items and
    returns [true]. *)
Theorem mock_item_phase_succeeds
    (c : Mock.Constants) (mockData : Mock.IMockDevconnectPretixData)
    (organizer : DevconnectPretixOrganizerConfig)
    (event : DevconnectPretixEventConfig) (db : Sync.Db) :
  In organizer (Mock.MOCK_PRETIX_API_CONFIG c) ->
  In event (events organizer) ->
  exists db' tr,
    Sync.saveItemsInfo (Mock.getDevconnectMockPretixAPI c mockData)
      organizer event db = (Sync.Returned true, db', tr).
Proof.
  intros Horg Hev.
  assert (Sync.someActiveItemMissing (activeItemIDs event)
            [{| dpi_id := Mock.ITEM_1 c; dpi_name_en := "item-1" |};
             {| dpi_id := Mock.ITEM_2 c; dpi_name_en := "item-2" |}] = false) as Hm.
  { apply someActiveItemMissing_false. destruct Horg as [<-|[]].
    destruct Hev as [<-|[<-|[<-|[]]]]; simpl; intros a Ha; tauto. }
  destruct (saveItemsInfo_closed_form
              (Mock.getDevconnectMockPretixAPI c mockData) organizer event _ db
              eq_refl Hm) as (tr & Heq & _).
  by eexists _, tr.
Qed.

Lemma mock_item_phase_succeeds_witness :
  exists db' tr,
    Sync.saveItemsInfo
      (Mock.getDevconnectMockPretixAPI Fixtures4.constants Fixtures4.mockData)
      {| orgURL := "organizer-url"; token := "token";
         events := [Fixtures.eventA; Fixtures2.eventB; Fixtures2.eventC] |}
      Fixtures2.eventB Fixtures2.dbThreeEvents = (Sync.Returned true, db', tr).
Proof.
  apply (mock_item_phase_succeeds Fixtures4.constants Fixtures4.mockData
           {| orgURL := "organizer-url"; token := "token";
              events := [Fixtures.eventA; Fixtures2.eventB; Fixtures2.eventC] |}
           Fixtures2.eventB Fixtures2.dbThreeEvents).
  - left. reflexivity.
  - right. left. reflexivity.
Defined.


(** ** The ticket phase and the other events *)

Section tickets_of_other_events.
Import Sync.
Variable db : Db.
Variable cfg : N.
Variable orders : list DevconnectPretixOrder.

Local Abbreviation stored := (storedTickets db cfg).
Local Abbreviation wanted := (candidates db cfg orders).

(** A row that does not belong to the event is neither renamed nor
    flagged. *)
Lemma foreign_row_untouched r :
  ticket_of_event db cfg r = false ->
  rowAfter (updatedTicketsOf stored wanted) (removedTicketsOf stored wanted) r
  = r.
Proof.
  intros Hev.
  assert (forall u, ticket_of_event db cfg u = true -> same_key r u = false)
    as Hother.
  { intros u Hu. apply not_true_iff_false. intros Hs%same_key_true.
    rewrite (ticket_of_event_ext db cfg r u) in Hev by by apply key_item_id.
    congruence. }
  unfold rowAfter. rewrite renameBy_untouched.
  2:{ intros u [Hu _]%In_toUpdate. apply Hother.
      apply (candidate_of_event db cfg orders u Hu). }
  unfold deleteBy.
  assert (forall l, (forall u, In u l -> same_key r u = false) ->
            foldl (fun row t => setDeletedWhere t row) r l = r) as Hfold.
  { induction l as [|u l IH]; intros Hl; [done|]. simpl.
    unfold setDeletedWhere at 2. rewrite (Hl u (or_introl eq_refl)).
    apply IH. intros u' Hu'. apply Hl. by right. }
  apply Hfold. intros u [Hu _]%In_toRemove. apply Hother.
  by apply In_storedTickets in Hu as (_ & _ & ?).
Qed.

Lemma foreign_rows_after :
  List.filter (fun r => negb (ticket_of_event db cfg r))
    (applyTicketChanges (newTicketsOf stored wanted)
       (updatedTicketsOf stored wanted) (removedTicketsOf stored wanted)
       (tickets db))
  = List.filter (fun r => negb (ticket_of_event db cfg r)) (tickets db).
Proof.
  rewrite applyTicketChanges_rows, filter_map_comm.
  set (g := rowAfter _ _).
  assert (forall r, ticket_of_event db cfg (g r) = ticket_of_event db cfg r)
    as Hg.
  { intros r. apply ticket_of_event_ext, key_item_id, rowAfter_key. }
  rewrite (filter_ext _ (fun r => negb (ticket_of_event db cfg r)))
    by (intros r; by rewrite Hg).
  rewrite List.filter_app, map_app.
  rewrite (filter_none _ (newTicketsOf stored wanted)), app_nil_r.
  2:{ intros t [Ht _]%In_toInsert. apply negb_false_iff.
      apply (candidate_of_event db cfg orders t Ht). }
  rewrite <-(map_id (List.filter _ (tickets db))) at 2.
  apply map_ext_in. intros r [_ Hr%negb_true_iff]%filter_In.
  by apply foreign_row_untouched.
Qed.
End tickets_of_other_events.

(** X20. The ticket phase of one event leaves the tickets of the other
    events alone: after [saveTickets], the ticket rows whose owning item is
    not an item of the event are the same rows, in the same order, as
    before. *)
Theorem saveTickets_leaves_other_events
    (api : Sync.IDevconnectPretixAPI)
    (organizer : DevconnectPretixOrganizerConfig)
    (event : DevconnectPretixEventConfig) (db : Sync.Db) :
  exists b db' tr,
    Sync.saveTickets api organizer event db = (Sync.Returned b, db', tr)
    /\ List.filter (fun r => negb (Sync.ticket_of_event db (ec_id event) r))
         (Sync.tickets db')
       = List.filter (fun r => negb (Sync.ticket_of_event db (ec_id event) r))
           (Sync.tickets db).
Proof.
  destruct (Sync.fetchOrders api (orgURL organizer) (token organizer)
              (eventID event)) as [orders|] eqn:Hf.
  - destruct (saveTickets_closed_form api organizer event orders db Hf)
      as (tr & Heq & _).
    eexists _, _, tr. split; [exact Heq|]. apply foreign_rows_after.
  - eexists _, _, _. split; [|reflexivity].
    unfold Sync.saveTickets, Sync.try_catch, Sync.bind, Sync.await.
    by rewrite Hf.
Qed.
